(** * MakHosGame: Thai checkers rules engine and minimax bot

    A shallow embedding of [services/gameRules.ts] and [services/ai.ts]
    (with the declarations of [types.ts]) and the properties of the
    rules and search engines proved over it.

    Conventions of the embedding:
    - a JS [number] holding a row, column, depth or score is a [Z];
    - [BoardState = (Piece | null)[][]] is a list of rows of optional
      pieces; [wf_board] says it is the 8x8 grid the type comment asks for;
    - [Error("No piece at from position")] is the [None] of [executeMove];
    - [Infinity] and [-Infinity] are the two extra points of [num];
    - [Math.random] is an explicit random source passed to [getBotMove];
    - recursion that the source leaves to the run time ([minimax]) takes a
      budget, and running out of it is an outcome of its own;
    - [executeMove] is given twice: on board values ([executeMove]) and on
      a store of arrays and piece objects ([executeMoveH]), where copying
      and in-place writes can be told apart. *)

From Stdlib Require Import ZArith Lia Bool.
From stdpp Require Import base list.

Open Scope Z_scope.

(** ** types.ts *)

(** [enum Player { None = 0, Red = 1, Black = 2 }] *)
Inductive Player := PNone | Red | Black.

(** [enum PieceType { Man, King }] *)
Inductive PieceType := Man | King.

Record Piece := mkPiece { player : Player; type : PieceType }.

Record Position := mkPos { row : Z; col : Z }.

Record Move := mkMove {
  from : Position;
  to : Position;
  isCapture : bool;
  capturedPiece : option Position
}.

(** [enum Difficulty { Easy, Medium, Hard }] *)
Inductive Difficulty := Easy | Medium | Hard.

Abbreviation Board := (list (list (option Piece))).

#[global] Instance Player_eq_dec : EqDecision Player.
Proof. solve_decision. Defined.

#[global] Instance PieceType_eq_dec : EqDecision PieceType.
Proof. solve_decision. Defined.

#[global] Instance Piece_eq_dec : EqDecision Piece.
Proof. solve_decision. Defined.

#[global] Instance Position_eq_dec : EqDecision Position.
Proof. solve_decision. Defined.

#[global] Instance Move_eq_dec : EqDecision Move.
Proof. solve_decision. Defined.

#[global] Instance Difficulty_eq_dec : EqDecision Difficulty.
Proof. solve_decision. Defined.

(** ** gameRules.ts *)

Definition BOARD_SIZE : Z := 8.

(** The index range [0 .. BOARD_SIZE-1] of both [for] loops. *)
Definition indices : list Z := [0; 1; 2; 3; 4; 5; 6; 7].

(** [board[r][c]]; [None] is JS [null]. Reads outside the grid, which the
    source guards with [isValidPos], give [None] here. *)
Definition sq (b : Board) (r c : Z) : option Piece :=
  if (0 <=? r) && (0 <=? c) then
    match b !! Z.to_nat r with
    | Some rw => match rw !! Z.to_nat c with Some o => o | None => None end
    | None => None
    end
  else None.

(** [board[r][c] = v] on a grid; nothing happens outside the grid. *)
Definition set_sq (b : Board) (r c : Z) (v : option Piece) : Board :=
  if (0 <=? r) && (0 <=? c) then
    match b !! Z.to_nat r with
    | Some rw => <[Z.to_nat r := <[Z.to_nat c := v]> rw]> b
    | None => b
    end
  else b.

Definition wf_board (b : Board) : Prop :=
  length b = 8%nat ∧ Forall (λ rw, length rw = 8%nat) b.

Definition wf_boardb (b : Board) : bool :=
  Nat.eqb (length b) 8 && forallb (λ rw, Nat.eqb (length rw) 8) b.

Definition init_cell (r c : Z) : option Piece :=
  let cell := None in
  if (r + c) mod 2 =? 1 then
    let cell := if r <? 2 then Some (mkPiece Black Man) else cell in
    let cell := if r >? 5 then Some (mkPiece Red Man) else cell in
    cell
  else cell.

Definition createInitialBoard : Board :=
  map (λ r, map (λ c, init_cell r c) indices) indices.

Definition isValidPos (r c : Z) : bool :=
  (0 <=? r) && (r <? BOARD_SIZE) && (0 <=? c) && (c <? BOARD_SIZE).

Definition isSamePos (p1 p2 : Position) : bool :=
  (row p1 =? row p2) && (col p1 =? col p2).

Definition is_null (o : option Piece) : bool :=
  match o with None => true | Some _ => false end.

Definition slide (pos : Position) (r c : Z) : Move :=
  mkMove pos (mkPos r c) false None.

Definition capture (pos : Position) (r c : Z) (cap : Position) : Move :=
  mkMove pos (mkPos r c) true (Some cap).

Definition forward_dirs (p : Player) : list (Z * Z) :=
  if decide (p = Red) then [(-1, -1); (-1, 1)] else [(1, -1); (1, 1)].

Definition man_slide (b : Board) (pos : Position) (d : Z * Z) : list Move :=
  let nr := row pos + fst d in
  let nc := col pos + snd d in
  if isValidPos nr nc && is_null (sq b nr nc) then [slide pos nr nc] else [].

Definition man_capture (b : Board) (pos : Position) (p : Player) (d : Z * Z)
  : list Move :=
  let midR := row pos + fst d in
  let midC := col pos + snd d in
  let landR := row pos + fst d * 2 in
  let landC := col pos + snd d * 2 in
  if isValidPos landR landC then
    match sq b midR midC with
    | Some midPiece =>
        if negb (bool_decide (player midPiece = p)) && is_null (sq b landR landC)
        then [capture pos landR landC (mkPos midR midC)]
        else []
    | None => []
    end
  else [].

Definition getManMoves (b : Board) (pos : Position) (p : Player) : list Move :=
  let directions := forward_dirs p in
  let moveDirs := directions in
  let capDirs := directions in
  flat_map (man_slide b pos) moveDirs ++ flat_map (man_capture b pos p) capDirs.

Definition king_dirs : list (Z * Z) := [(-1, -1); (-1, 1); (1, -1); (1, 1)].

(** The [while (isValidPos(r, c))] loop of one ray. Each round moves [r] by
    [dr]; [fuel] bounds the rounds ([kingRay_fuel] shows 8 is enough). *)
Fixpoint kingRay (fuel : nat) (b : Board) (pos : Position) (p : Player)
    (dr dc r c : Z) (foundOpponent : bool) (opponentPos : option Position)
  : list Move :=
  match fuel with
  | O => []
  | S fuel' =>
      if isValidPos r c then
        match sq b r c with
        | None =>
            if negb foundOpponent then
              slide pos r c ::
                kingRay fuel' b pos p dr dc (r + dr) (c + dc) foundOpponent opponentPos
            else
              match opponentPos with
              | Some op => [capture pos r c op]
              | None =>
                  kingRay fuel' b pos p dr dc (r + dr) (c + dc) foundOpponent opponentPos
              end
        | Some currentPiece =>
            if bool_decide (player currentPiece = p) then []
            else if foundOpponent then []
            else kingRay fuel' b pos p dr dc (r + dr) (c + dc) true (Some (mkPos r c))
        end
      else []
  end.

Definition king_ray (b : Board) (pos : Position) (p : Player) (d : Z * Z)
  : list Move :=
  kingRay 8 b pos p (fst d) (snd d) (row pos + fst d) (col pos + snd d) false None.

Definition getKingMoves (b : Board) (pos : Position) (p : Player) : list Move :=
  flat_map (king_ray b pos p) king_dirs.

Definition getPieceMoves (b : Board) (pos : Position) (piece : Piece) : list Move :=
  match type piece with
  | Man => getManMoves b pos (player piece)
  | King => getKingMoves b pos (player piece)
  end.

(** The moves gathered before the forced-capture filter. *)
Definition gatherMoves (b : Board) (p : Player) (mustMovePiece : option Position)
  : list Move :=
  match mustMovePiece with
  | Some mp =>
      match sq b (row mp) (col mp) with
      | Some piece =>
          if bool_decide (player piece = p) then getPieceMoves b mp piece else []
      | None => []
      end
  | None =>
      flat_map (λ r,
        flat_map (λ c,
          match sq b r c with
          | Some piece =>
              if bool_decide (player piece = p)
              then getPieceMoves b (mkPos r c) piece else []
          | None => []
          end) indices) indices
  end.

(** [moves.filter(m => m.isCapture)] *)
Definition captureMoves (moves : list Move) : list Move :=
  filter (λ m, isCapture m = true) moves.

Definition getValidMoves (b : Board) (p : Player) (mustMovePiece : option Position)
  : list Move :=
  let moves := gatherMoves b p mustMovePiece in
  if (0 <? Z.of_nat (length (captureMoves moves))) then captureMoves moves else moves.

(** The promotion test of [executeMove]. *)
Definition promotes (piece : Piece) (toRow : Z) : bool :=
  match type piece with
  | Man =>
      (bool_decide (player piece = Red) && (toRow =? 0))
      || (bool_decide (player piece = Black) && (toRow =? BOARD_SIZE - 1))
  | King => false
  end.

(** The moved piece as [newBoard] holds it after the promotion check. *)
Definition movedPiece (piece : Piece) (toRow : Z) : Piece :=
  if promotes piece toRow then mkPiece (player piece) King else piece.

(** [executeMove]; [None] is the thrown [Error]. On values the deep copy is
    the board itself ([executeMoveH] below has the copy). The source writes the moved
    object into [newBoard[to]] and sets its [type] afterwards: the only
    reference the new board can still hold to that object is the one at [to],
    so the promoted piece is written there directly. *)
Definition executeMove (currentBoard : Board) (move : Move)
  : option (Board * bool) :=
  let newBoard := currentBoard in
  match sq newBoard (row (from move)) (col (from move)) with
  | None => None
  | Some piece =>
      let promoted := promotes piece (row (to move)) in
      let piece' := movedPiece piece (row (to move)) in
      let newBoard := set_sq newBoard (row (to move)) (col (to move)) (Some piece') in
      let newBoard := set_sq newBoard (row (from move)) (col (from move)) None in
      let newBoard :=
        match isCapture move, capturedPiece move with
        | true, Some cp => set_sq newBoard (row cp) (col cp) None
        | _, _ => newBoard
        end in
      Some (newBoard, promoted)
  end.

Definition owned_by (p : Player) (o : option Piece) : bool :=
  match o with
  | Some piece => bool_decide (player piece = p)
  | None => false
  end.

(** The counting loops of [checkWinner]. *)
Definition countPieces (b : Board) (p : Player) : Z :=
  fold_left (λ acc r,
    fold_left (λ acc c, if owned_by p (sq b r c) then acc + 1 else acc) indices acc)
    indices 0.

Definition checkWinner (b : Board) : option Player :=
  let redCount := countPieces b Red in
  let blackCount := countPieces b Black in
  if redCount =? 0 then Some Black
  else if blackCount =? 0 then Some Red
  else
    let redValid := getValidMoves b Red None in
    let blackValid := getValidMoves b Black None in
    if Z.of_nat (length redValid) =? 0 then Some Black
    else if Z.of_nat (length blackValid) =? 0 then Some Red
    else None.

(** ** ai.ts *)

Definition SCORES_MAN : Z := 100.
Definition SCORES_KING : Z := 300.
Definition SCORES_WIN : Z := 10000.

(** JS truthiness of a [Player | null]: [null] and [Player.None = 0] are falsy. *)
Definition truthy (w : option Player) : bool :=
  match w with
  | Some Red | Some Black => true
  | Some PNone | None => false
  end.

(** The body of the inner [for] loop of [evaluateBoard] on one square. *)
Definition eval_cell (p : Player) (r : Z) (o : option Piece) (score : Z) : Z :=
  match o with
  | None => score
  | Some piece =>
      let value :=
        match type piece with King => SCORES_KING | Man => SCORES_MAN end in
      if bool_decide (player piece = p) then
        let score := score + value in
        match type piece with
        | Man => score + (if bool_decide (p = Red) then 7 - r else r) * 2
        | King => score
        end
      else
        let score := score - value in
        match type piece with
        | Man => score - (if bool_decide (player piece = Red) then 7 - r else r) * 2
        | King => score
        end
  end.

Definition materialScore (b : Board) (p : Player) : Z :=
  fold_left (λ score r,
    fold_left (λ score c, eval_cell p r (sq b r c) score) indices score)
    indices 0.

Definition evaluateBoard (b : Board) (p : Player) : Z :=
  let winner := checkWinner b in
  if bool_decide (winner = Some p) then SCORES_WIN
  else if truthy winner && negb (bool_decide (winner = Some p)) then - SCORES_WIN
  else materialScore b p.

(** A JS number that may be [Infinity] or [-Infinity]. *)
Inductive num := NegInf | Fin (z : Z) | PosInf.

Definition num_le (a b : num) : bool :=
  match a, b with
  | NegInf, _ => true
  | _, PosInf => true
  | Fin x, Fin y => x <=? y
  | _, _ => false
  end.

Definition num_max (a b : num) : num := if num_le a b then b else a.
Definition num_min (a b : num) : num := if num_le a b then a else b.
Definition num_gt (a b : num) : bool := negb (num_le a b).

(** How a call ends: with a value, with the [Error] of [executeMove], or
    with the recursion budget of the model exhausted. *)
Inductive outcome (A : Type) := Done (a : A) | Thrown | OutOfFuel.
Arguments Done {A} a.
Arguments Thrown {A}.
Arguments OutOfFuel {A}.

Definition otherPlayer (p : Player) : Player :=
  if bool_decide (p = Red) then Black else Red.

(** [move.isCapture && !promoted] and some next move of the piece captures. *)
Definition chainContinues (newBoard : Board) (currentPlayer : Player)
    (move : Move) (promoted : bool) : bool :=
  if isCapture move && negb promoted then
    let nextMoves := getValidMoves newBoard currentPlayer (Some (to move)) in
    existsb isCapture nextMoves
  else false.

Section Search.

(** The recursive call [minimax(newBoard, depth, alpha, beta, maximizing,
    player, activePiece)], with the bot's identity fixed. *)
Variable rec : Board → Z → num → num → bool → option Position → outcome num.

Definition searchChild (board : Board) (depth : Z) (alpha beta : num)
    (maximizingPlayer : bool) (currentPlayer : Player) (move : Move)
  : outcome num :=
  match executeMove board move with
  | None => Thrown
  | Some (newBoard, promoted) =>
      if chainContinues newBoard currentPlayer move promoted
      then rec newBoard depth alpha beta maximizingPlayer (Some (to move))
      else rec newBoard (depth - 1) alpha beta (negb maximizingPlayer) None
  end.

Fixpoint maxLoop (board : Board) (depth : Z) (currentPlayer : Player)
    (moves : list Move) (maxEval alpha beta : num) : outcome num :=
  match moves with
  | [] => Done maxEval
  | move :: rest =>
      match searchChild board depth alpha beta true currentPlayer move with
      | Done evalScore =>
          let maxEval := num_max maxEval evalScore in
          let alpha := num_max alpha evalScore in
          if num_le beta alpha then Done maxEval
          else maxLoop board depth currentPlayer rest maxEval alpha beta
      | Thrown => Thrown
      | OutOfFuel => OutOfFuel
      end
  end.

Fixpoint minLoop (board : Board) (depth : Z) (currentPlayer : Player)
    (moves : list Move) (minEval alpha beta : num) : outcome num :=
  match moves with
  | [] => Done minEval
  | move :: rest =>
      match searchChild board depth alpha beta false currentPlayer move with
      | Done evalScore =>
          let minEval := num_min minEval evalScore in
          let beta := num_min beta evalScore in
          if num_le beta alpha then Done minEval
          else minLoop board depth currentPlayer rest minEval alpha beta
      | Thrown => Thrown
      | OutOfFuel => OutOfFuel
      end
  end.

(** The root loop of [getBotMove]: every candidate is searched with the
    full window and the first strictly greater score wins. *)
Fixpoint rootLoop (board : Board) (depth : Z) (botPlayer : Player)
    (moves : list Move) (bestMove : Move) (maxEval : num) : outcome Move :=
  match moves with
  | [] => Done bestMove
  | move :: rest =>
      match searchChild board depth NegInf PosInf true botPlayer move with
      | Done evalScore =>
          if num_gt evalScore maxEval
          then rootLoop board depth botPlayer rest move evalScore
          else rootLoop board depth botPlayer rest bestMove maxEval
      | Thrown => Thrown
      | OutOfFuel => OutOfFuel
      end
  end.

End Search.

Fixpoint minimax (fuel : nat) (board : Board) (depth : Z) (alpha beta : num)
    (maximizingPlayer : bool) (p : Player) (activePiece : option Position)
  : outcome num :=
  match fuel with
  | O => OutOfFuel
  | S fuel' =>
      let winner := checkWinner board in
      if (depth =? 0) || truthy winner then Done (Fin (evaluateBoard board p))
      else
        let currentPlayer := if maximizingPlayer then p else otherPlayer p in
        let validMoves := getValidMoves board currentPlayer activePiece in
        if Z.of_nat (length validMoves) =? 0 then
          Done (Fin (if maximizingPlayer then - SCORES_WIN else SCORES_WIN))
        else
          let rec := λ nb d a b' mx ap, minimax fuel' nb d a b' mx p ap in
          if maximizingPlayer
          then maxLoop rec board depth currentPlayer validMoves NegInf alpha beta
          else minLoop rec board depth currentPlayer validMoves PosInf alpha beta
  end.

(** The two uses of [Math.random] in [getBotMove]: the index
    [Math.floor(Math.random() * n)] and the order that
    [sort(() => Math.random() - 0.5)] leaves the moves in. *)
Record RandomSource := mkRandom {
  randomIndex : nat → nat;
  shuffle : list Move → list Move
}.

Definition random_ok (rnd : RandomSource) : Prop :=
  (∀ n, (0 < n)%nat → (randomIndex rnd n < n)%nat) ∧
  (∀ l, shuffle rnd l ≡ₚ l).

Definition getBotMove (rnd : RandomSource) (fuel : nat) (board : Board)
    (botPlayer : Player) (difficulty : Difficulty)
    (activePiece : option Position) : outcome (option Move) :=
  let validMoves := getValidMoves board botPlayer activePiece in
  match validMoves with
  | [] => Done None
  | first :: _ =>
      match difficulty with
      | Easy => Done (validMoves !! randomIndex rnd (length validMoves))
      | _ =>
          let depth := if bool_decide (difficulty = Medium) then 2 else 4 in
          let bestMove := first in
          let shuffledMoves := shuffle rnd validMoves in
          let rec := λ nb d a b' mx ap, minimax fuel nb d a b' mx botPlayer ap in
          match rootLoop rec board depth botPlayer shuffledMoves bestMove NegInf with
          | Done m => Done (Some m)
          | Thrown => Thrown
          | OutOfFuel => OutOfFuel
          end
      end
  end.

(** ** The object store behind [executeMove]

    [executeMove] is the one function that writes: it copies the board
    ([map] of [map] with a spread of every piece object), then assigns to
    cells of the copy and to the [type] field of the moved object. The store
    below keeps the three kinds of objects involved, each addressed by its
    index; allocation appends. *)

Abbreviation loc := nat (only parsing).

Record Heap := mkHeap {
  pieceObjs : list Piece;
  rowArrs : list (list (option loc));
  boardArrs : list (list loc)
}.

(** What a cell holds: [null] or the piece object it refers to. *)
Definition readCell (ps : list Piece) (cell : option loc) : option (option Piece) :=
  match cell with
  | None => Some None
  | Some l => match ps !! l with Some p => Some (Some p) | None => None end
  end.

Definition readRow (h : Heap) (ra : loc) : option (list (option Piece)) :=
  match rowArrs h !! ra with
  | Some rw => mapM (readCell (pieceObjs h)) rw
  | None => None
  end.

(** The board value an outer array denotes; [None] if it is not a board of
    the store. *)
Definition readBoard (h : Heap) (br : loc) : option Board :=
  match boardArrs h !! br with
  | Some ras => mapM (readRow h) ras
  | None => None
  end.

(** [row.map(p => p ? { ...p } : null)]: the copies are appended to the
    piece objects [ps]. *)
Fixpoint copyRow (ps : list Piece) (rw : list (option loc))
  : option (list Piece * list (option loc)) :=
  match rw with
  | [] => Some (ps, [])
  | None :: rest =>
      match copyRow ps rest with
      | Some (ps', rest') => Some (ps', None :: rest')
      | None => None
      end
  | Some l :: rest =>
      match ps !! l with
      | Some p =>
          match copyRow (ps ++ [p]) rest with
          | Some (ps', rest') => Some (ps', Some (length ps) :: rest')
          | None => None
          end
      | None => None
      end
  end.

(** [currentBoard.map(row => ...)] over the row references of the board. *)
Fixpoint copyRows (h : Heap) (ras : list loc) : option (Heap * list loc) :=
  match ras with
  | [] => Some (h, [])
  | ra :: rest =>
      match rowArrs h !! ra with
      | Some rw =>
          match copyRow (pieceObjs h) rw with
          | Some (ps', rw') =>
              let h1 := mkHeap ps' (rowArrs h ++ [rw']) (boardArrs h) in
              match copyRows h1 rest with
              | Some (h2, rest') => Some (h2, length (rowArrs h) :: rest')
              | None => None
              end
          | None => None
          end
      | None => None
      end
  end.

Definition deepCopy (h : Heap) (br : loc) : option (Heap * loc) :=
  match boardArrs h !! br with
  | Some ras =>
      match copyRows h ras with
      | Some (h1, ras') =>
          Some (mkHeap (pieceObjs h1) (rowArrs h1) (boardArrs h1 ++ [ras']),
                length (boardArrs h1))
      | None => None
      end
  | None => None
  end.

(** The reference stored at [board[r][c]]. *)
Definition getCell (h : Heap) (br : loc) (r c : Z) : option loc :=
  if (0 <=? r) && (0 <=? c) then
    match boardArrs h !! br with
    | Some ras =>
        match ras !! Z.to_nat r with
        | Some ra =>
            match rowArrs h !! ra with
            | Some rw => match rw !! Z.to_nat c with Some o => o | None => None end
            | None => None
            end
        | None => None
        end
    | None => None
    end
  else None.

(** [board[r][c] = v]: a write into the row array that [board[r]] refers to. *)
Definition setCell (h : Heap) (br : loc) (r c : Z) (v : option loc) : Heap :=
  if (0 <=? r) && (0 <=? c) then
    match boardArrs h !! br with
    | Some ras =>
        match ras !! Z.to_nat r with
        | Some ra =>
            match rowArrs h !! ra with
            | Some rw =>
                mkHeap (pieceObjs h)
                       (<[ra := <[Z.to_nat c := v]> rw]> (rowArrs h))
                       (boardArrs h)
            | None => h
            end
        | None => h
        end
    | None => h
    end
  else h.

(** [executeMove] statement by statement on the store. [None] is the thrown
    [Error] (or a board reference that the store does not hold). *)
Definition executeMoveH (h : Heap) (currentBoard : loc) (move : Move)
  : option (Heap * loc * bool) :=
  match deepCopy h currentBoard with
  | None => None
  | Some (h, newBoard) =>
      match getCell h newBoard (row (from move)) (col (from move)) with
      | None => None
      | Some pl =>
          match pieceObjs h !! pl with
          | None => None
          | Some piece =>
              let h := setCell h newBoard (row (to move)) (col (to move)) (Some pl) in
              let h := setCell h newBoard (row (from move)) (col (from move)) None in
              let h :=
                match isCapture move, capturedPiece move with
                | true, Some cp => setCell h newBoard (row cp) (col cp) None
                | _, _ => h
                end in
              let promoted := promotes piece (row (to move)) in
              let h :=
                if promoted
                then mkHeap (<[pl := mkPiece (player piece) King]> (pieceObjs h))
                            (rowArrs h) (boardArrs h)
                else h in
              Some (h, newBoard, promoted)
          end
      end
  end.

(** Allocating a board value in a store: the inverse of [readBoard]. *)
Fixpoint allocRow (ps : list Piece) (rw : list (option Piece))
  : list Piece * list (option loc) :=
  match rw with
  | [] => (ps, [])
  | None :: rest =>
      let '(ps', rest') := allocRow ps rest in (ps', None :: rest')
  | Some p :: rest =>
      let '(ps', rest') := allocRow (ps ++ [p]) rest in
      (ps', Some (length ps) :: rest')
  end.

Fixpoint allocRows (h : Heap) (b : Board) : Heap * list loc :=
  match b with
  | [] => (h, [])
  | rw :: rest =>
      let '(ps', rw') := allocRow (pieceObjs h) rw in
      let h1 := mkHeap ps' (rowArrs h ++ [rw']) (boardArrs h) in
      let '(h2, rest') := allocRows h1 rest in
      (h2, length (rowArrs h) :: rest')
  end.

Definition allocBoard (h : Heap) (b : Board) : Heap * loc :=
  let '(h1, ras) := allocRows h b in
  (mkHeap (pieceObjs h1) (rowArrs h1) (boardArrs h1 ++ [ras]), length (boardArrs h1)).

Definition emptyHeap : Heap := mkHeap [] [] [].

(** [h'] holds every object of [h] unchanged (and maybe more). *)
Definition extends (h h' : Heap) : Prop :=
  pieceObjs h `prefix_of` pieceObjs h' ∧
  rowArrs h `prefix_of` rowArrs h' ∧
  boardArrs h `prefix_of` boardArrs h'.

(** A reference that is [null] or points to a piece object [h] does not hold. *)
Definition fresh_ref (h : Heap) (v : option loc) : Prop :=
  match v with Some l => (length (pieceObjs h) <= l)%nat | None => True end.

(** A row of the copy: a new array whose cells refer to new piece objects. *)
Definition fresh_row (h h' : Heap) (ra : loc) : Prop :=
  (length (rowArrs h) <= ra)%nat ∧
  ∃ rw, rowArrs h' !! ra = Some rw ∧
    ∀ l, Some l ∈ rw → (length (pieceObjs h) <= l)%nat.

(** The board [br] of [h'] is made of objects that [h] does not hold: its
    outer array, its row arrays and its piece objects are all new. *)
Definition fresh_board (h h' : Heap) (br : loc) : Prop :=
  (length (boardArrs h) ≤ br)%nat ∧
  ∃ ras, boardArrs h' !! br = Some ras ∧
    ∀ ra, ra ∈ ras →
      (length (rowArrs h) ≤ ra)%nat ∧
      ∃ rw, rowArrs h' !! ra = Some rw ∧
        ∀ l, Some l ∈ rw → (length (pieceObjs h) ≤ l)%nat.

(** ** Boards and moves used in examples *)

Definition emptyBoard : Board := replicate 8 (replicate 8 None).

Definition place (b : Board) (r c : Z) (p : Player) (t : PieceType) : Board :=
  set_sq b r c (Some (mkPiece p t)).

(** A Red man on (5,3) that can jump the Black man on (4,2), and a second
    Red man on (6,5) that can only slide. *)
Definition forcedBoard : Board :=
  place (place (place emptyBoard 5 3 Red Man) 4 2 Black Man) 6 5 Red Man.

(** A single Black man on (3,2) and a single Red man on (5,3). *)
Definition scenarioBoard : Board :=
  place (place emptyBoard 3 2 Black Man) 5 3 Red Man.

(** Both forward squares of the Red man on (0,1) and of the Black man on
    (7,0) are off the board: neither side can move. *)
Definition deadlockBoard : Board :=
  place (place emptyBoard 0 1 Red Man) 7 0 Black Man.

(** A board on which the only piece stands on (2,1), and the move that
    takes it from (2,1) to (2,1). *)
Definition loneBoard : Board := place emptyBoard 2 1 Red Man.

Definition selfMove : Move := slide (mkPos 2 1) 2 1.

(** Two men of one colour next to each other, and the move of the one onto
    the other. *)
Definition crowdedBoard : Board :=
  place (place emptyBoard 5 2 Red Man) 4 3 Red Man.

Definition crushMove : Move := slide (mkPos 5 2) 4 3.

(** ** Predicates of the statements *)

(** Player [p] has a piece on the board. *)
Definition has_piece (b : Board) (p : Player) : Prop :=
  ∃ r c, isValidPos r c = true ∧ owned_by p (sq b r c) = true.

Definition pos_in_bounds (pos : Position) : Prop :=
  isValidPos (row pos) (col pos) = true.

(** [from], [to] and, if present, [capturedPiece] lie on the board. *)
Definition move_in_bounds (m : Move) : Prop :=
  pos_in_bounds (from m) ∧ pos_in_bounds (to m) ∧
  match capturedPiece m with Some cp => pos_in_bounds cp | None => True end.

(** The active piece, when there is one, is a square of the board. *)
Definition active_ok (ap : option Position) : Prop :=
  match ap with Some pos => pos_in_bounds pos | None => True end.

(** Every piece belongs to Red or to Black: the [Player.None] of the enum is
    never the owner of a piece. *)
Definition cell_two_sided (o : option Piece) : bool :=
  match o with
  | Some piece => negb (bool_decide (player piece = PNone))
  | None => true
  end.

Definition two_sided (b : Board) : Prop :=
  Forall (Forall (λ o, cell_two_sided o = true)) b.

Definition two_sidedb (b : Board) : bool :=
  forallb (forallb cell_two_sided) b.

(** C9 as it is stated, at one board and move: when both [from] and [to] are
    occupied the call returns and [to] holds the moving piece. *)
Definition destination_replaced (b : Board) (m : Move) : Prop :=
  ∀ piece victim,
    sq b (row (from m)) (col (from m)) = Some piece →
    sq b (row (to m)) (col (to m)) = Some victim →
    ∃ nb pr, executeMove b m = Some (nb, pr) ∧
      sq nb (row (to m)) (col (to m)) = Some (movedPiece piece (row (to m))).

(** The destination is the square the move captures. *)
Definition captures_destination (m : Move) : bool :=
  isCapture m && bool_decide (capturedPiece m = Some (to m)).

(** ** Rays *)

(** The square [k] steps from [pos] in direction [d]. *)
Definition ray (pos : Position) (d : Z * Z) (k : Z) : Position :=
  mkPos (row pos + k * fst d) (col pos + k * snd d).

Definition at_sq (b : Board) (pos : Position) : option Piece :=
  sq b (row pos) (col pos).

Definition slideTo (pos tgt : Position) : Move := slide pos (row tgt) (col tgt).

Definition captureTo (pos tgt cap : Position) : Move :=
  capture pos (row tgt) (col tgt) cap.

(** What a move of a king on [pos] along the ray [d] looks like: it lands on
    an empty square [k] steps away, and either every square before it is
    empty (a slide), or the square just before it holds an enemy piece, which
    is captured, and every square before that one is empty. *)
Definition ray_move (b : Board) (pos : Position) (p : Player) (d : Z * Z)
    (m : Move) : Prop :=
  ∃ k, 1 <= k ∧ pos_in_bounds (ray pos d k) ∧ at_sq b (ray pos d k) = None ∧
    ((m = slideTo pos (ray pos d k) ∧
      ∀ j, 1 <= j < k → at_sq b (ray pos d j) = None) ∨
     (2 <= k ∧ m = captureTo pos (ray pos d k) (ray pos d (k - 1)) ∧
      (∃ e, at_sq b (ray pos d (k - 1)) = Some e ∧ player e ≠ p) ∧
      ∀ j, 1 <= j < k - 1 → at_sq b (ray pos d j) = None)).

(** The flying-king position of C1: a king of [p] on [pos]; along [d] two
    empty squares, an enemy piece at distance 3, and two empty squares of the
    board beyond it. *)
Definition flying_setup (b : Board) (p : Player) (pos : Position) (d : Z * Z)
  : Prop :=
  wf_board b ∧ pos_in_bounds pos ∧ d ∈ king_dirs ∧
  at_sq b pos = Some (mkPiece p King) ∧
  at_sq b (ray pos d 1) = None ∧ at_sq b (ray pos d 2) = None ∧
  (∃ e, at_sq b (ray pos d 3) = Some e ∧ player e ≠ p) ∧
  at_sq b (ray pos d 4) = None ∧ at_sq b (ray pos d 5) = None ∧
  pos_in_bounds (ray pos d 5).

(** A Red king on (0,1) and a Black man on (3,4), three steps down its
    diagonal; (4,5) and (5,6) beyond it are empty. *)
Definition kingBoard : Board :=
  place (place emptyBoard 0 1 Red King) 3 4 Black Man.

(** The same with a second Black man on (5,6), and with a Red man on (2,3). *)
Definition kingBoardBlocked : Board := place kingBoard 5 6 Black Man.

Definition kingBoardOwn : Board := place kingBoard 2 3 Red Man.

(** What every generated move looks like on the board it was generated for:
    it starts on a piece of the player, lands on an empty square of the board
    and, if it captures, names a square that holds an enemy piece. *)
Definition legal_shape (b : Board) (p : Player) (m : Move) : Prop :=
  pos_in_bounds (from m) ∧ owned_by p (at_sq b (from m)) = true ∧
  pos_in_bounds (to m) ∧ at_sq b (to m) = None ∧
  match capturedPiece m with
  | Some cp =>
      isCapture m = true ∧ pos_in_bounds cp ∧
      ∃ e, at_sq b cp = Some e ∧ player e ≠ p
  | None => isCapture m = false
  end.

(** ** The measure of the search *)

Definition occ (o : option Piece) : nat :=
  match o with Some _ => 1%nat | None => 0%nat end.

Definition rowCount (rw : list (option Piece)) : nat := sum_list (occ <$> rw).

(** The number of pieces on the board, of either colour. *)
Definition pieceCount (b : Board) : nat := sum_list (rowCount <$> b).

(** A budget for [minimax]: it orders the calls by depth first and by the
    number of pieces second (a board has at most 64 of them). *)
Definition searchBound (depth : Z) (b : Board) : nat :=
  (Z.to_nat depth * 65 + pieceCount b + 1)%nat.

Definition is_fin (x : num) : Prop :=
  match x with Fin _ => True | _ => False end.

(** ** Two random sources *)

(** [Math.random] always returning 0: index 0, and a sort that leaves the
    moves in place. *)
Definition pickFirst : RandomSource := mkRandom (λ _, 0%nat) (λ l, l).

(** Draws that select the last index and leave the moves reversed. *)
Definition pickLast : RandomSource := mkRandom (λ n, pred n) (λ l, reverse l).

(** A budget that is enough for the searches of [getBotMove] at depth 2
    and at depth 4. *)
Definition botBound (b : Board) : nat := searchBound 4 b.

(** Red man on (5,3) with Black men on (4,2) and (2,2): a double jump. *)
Definition chainBoard : Board :=
  place (place (place emptyBoard 5 3 Red Man) 4 2 Black Man) 2 2 Black Man.

(** The initial board allocated in an empty store. *)
Definition initialHeap : Heap := fst (allocBoard emptyHeap createInitialBoard).

Definition initialRef : loc := snd (allocBoard emptyHeap createInitialBoard).

(** No piece object is referred to from two cells of the rows [ras]. *)
Definition rows_inj (h : Heap) (ras : list loc) : Prop :=
  ∀ i j rai raj rwi rwj ci cj l,
    ras !! i = Some rai → rowArrs h !! rai = Some rwi → rwi !! ci = Some (Some l) →
    ras !! j = Some raj → rowArrs h !! raj = Some rwj → rwj !! cj = Some (Some l) →
    i = j ∧ ci = cj.

(** The outer array [nb] is an 8x8 grid of the store: eight different row
    arrays of eight cells. *)
Definition board_shape (h : Heap) (nb : loc) (ras : list loc) : Prop :=
  boardArrs h !! nb = Some ras ∧ length ras = 8%nat ∧ NoDup ras ∧
  Forall (λ ra, ∃ rw, rowArrs h !! ra = Some rw ∧ length rw = 8%nat) ras.

(** The square a move clears besides [from]: [capturedPiece] of a capture. *)
Definition clearedSquare (m : Move) : option Position :=
  if isCapture m then capturedPiece m else None.

(** ** App.tsx: the game state and its handlers

    The component keeps its state in hooks; a handler reads the state of the
    render it was created in and queues at most one update per state variable,
    so it is a function from the state to the next state. The thrown [Error]
    of [executeMove] is the [None] of a handler. *)

(** [enum GameMode { PvP, PvBot }] *)
Inductive GameMode := PvP | PvBot.

Record GameState := mkGame {
  board : Board;
  currentPlayer : Player;
  winner : option Player;
  turnCount : Z;
  activePiece : option Position
}.

(** The state variables of [App] that the handlers read or write. *)
Record AppState := mkApp {
  gameState : GameState;
  selectedPos : option Position;
  gameMode : GameMode;
  difficulty : Difficulty;
  isBotThinking : bool
}.

#[global] Instance GameMode_eq_dec : EqDecision GameMode.
Proof. solve_decision. Defined.

(** The initial [useState] values, which [resetGame] restores. *)
Definition initialGameState : GameState :=
  mkGame createInitialBoard Red None 1 None.

Definition initialApp : AppState :=
  mkApp initialGameState None PvBot Medium false.

(** The memo [validMoves]. *)
Definition validMoves (gs : GameState) : list Move :=
  if truthy (winner gs) then []
  else getValidMoves (board gs) (currentPlayer gs) (activePiece gs).

(** The memo [validDestinations]. *)
Definition validDestinations (app : AppState) : list Move :=
  match selectedPos app with
  | None => []
  | Some sel =>
      filter (λ m, isSamePos (from m) sel = true) (validMoves (gameState app))
  end.

Definition isForceCapture (gs : GameState) : bool :=
  existsb isCapture (validMoves gs).

Definition isBotTurn (app : AppState) : bool :=
  bool_decide (gameMode app = PvBot)
  && bool_decide (currentPlayer (gameState app) = Black)
  && negb (truthy (winner (gameState app))).

Definition handleMoveExecution (app : AppState) (move : Move) : option AppState :=
  let gs := gameState app in
  match executeMove (board gs) move with
  | None => None
  | Some (newBoard, promoted) =>
      let nextPlayer := currentPlayer gs in
      let nextActivePiece := None in
      let winner' := checkWinner newBoard in
      let flipped := if bool_decide (currentPlayer gs = Red) then Black else Red in
      let '(nextPlayer, nextActivePiece, selected) :=
        if isCapture move && negb promoted then
          let chainMoves := getValidMoves newBoard (currentPlayer gs) (Some (to move)) in
          if existsb isCapture chainMoves then
            (nextPlayer, Some (to move),
             if bool_decide (gameMode app = PvP)
                || bool_decide (currentPlayer gs = Red)
             then Some (to move) else selectedPos app)
          else (flipped, nextActivePiece, None)
        else (flipped, nextActivePiece, None) in
      Some (mkApp
              (mkGame newBoard nextPlayer winner'
                 (if bool_decide (nextPlayer = currentPlayer gs)
                  then turnCount gs else turnCount gs + 1)
                 nextActivePiece)
              selected (gameMode app) (difficulty app) (isBotThinking app))
  end.

Definition withSelected (app : AppState) (sel : option Position) : AppState :=
  mkApp (gameState app) sel (gameMode app) (difficulty app) (isBotThinking app).

Definition handleSquareClick (app : AppState) (r c : Z) : option AppState :=
  let gs := gameState app in
  if truthy (winner gs) || isBotThinking app
     || (isBotTurn app && negb (truthy (winner gs)))
  then Some app
  else
    let clickedPos := mkPos r c in
    let clickedPiece := sq (board gs) r c in
    match find (λ m, isSamePos (to m) clickedPos) (validDestinations app) with
    | Some move => handleMoveExecution app move
    | None =>
        if owned_by (currentPlayer gs) clickedPiece then
          if match activePiece gs with
             | Some ap => negb (isSamePos ap clickedPos)
             | None => false
             end
          then Some app
          else
            let hasMoves :=
              existsb (λ m, isSamePos (from m) clickedPos) (validMoves gs) in
            Some (withSelected app (if hasMoves then Some clickedPos else None))
        else
          match activePiece gs with
          | None => Some (withSelected app None)
          | Some _ => Some app
          end
    end.

(** The body of the timer of the bot effect, for a bot turn: the move of
    [getBotMove] for Black, executed if there is one; then
    [setIsBotThinking(false)]. *)
Definition botStep (rnd : RandomSource) (fuel : nat) (app : AppState)
  : outcome AppState :=
  let gs := gameState app in
  match getBotMove rnd fuel (board gs) Black (difficulty app) (activePiece gs) with
  | Done (Some move) =>
      match handleMoveExecution app move with
      | Some app' =>
          Done (mkApp (gameState app') (selectedPos app') (gameMode app')
                  (difficulty app') false)
      | None => Thrown
      end
  | Done None =>
      Done (mkApp (gameState app) (selectedPos app) (gameMode app)
              (difficulty app) false)
  | Thrown => Thrown
  | OutOfFuel => OutOfFuel
  end.

Definition resetGame (app : AppState) : AppState :=
  mkApp initialGameState None (gameMode app) (difficulty app) false.

(** ** Predicates of further statements *)

(** Every piece of the grid stands on a dark square. *)
Definition dark_only (b : Board) : Prop :=
  ∀ r c piece, isValidPos r c = true → sq b r c = Some piece → (r + c) mod 2 = 1.

Definition dark_onlyb (b : Board) : bool :=
  forallb (λ r,
    forallb (λ c,
      match sq b r c with
      | Some _ => (r + c) mod 2 =? 1
      | None => true
      end) indices) indices.

(** The forward row step of a man of [p]. *)
Definition forward (p : Player) : Z := if bool_decide (p = Red) then -1 else 1.

(** 1 for [true], 0 for [false]. *)
Definition bz (x : bool) : Z := if x then 1 else 0.

(** The piece a move takes, if any, belongs to [q]. *)
Definition takes_from (b : Board) (m : Move) (q : Player) : bool :=
  match capturedPiece m with
  | Some cp => owned_by q (at_sq b cp)
  | None => false
  end.

(** The sum of [w] over a list of indices. *)
Definition sumZ (w : Z → Z) (l : list Z) : Z :=
  fold_left (λ acc x, acc + w x) l 0.

Definition has_pieceb (b : Board) (p : Player) : bool :=
  existsb (λ r, existsb (λ c, owned_by p (sq b r c)) indices) indices.

(** The depth [getBotMove] searches to. *)
Definition botDepth (d : Difficulty) : Z :=
  if bool_decide (d = Medium) then 2 else 4.

(** The score the root loop of [getBotMove] computes for one candidate. *)
Definition rootScore (fuel : nat) (b : Board) (bot : Player) (depth : Z)
    (m : Move) : outcome num :=
  searchChild (λ nb d a b' mx ap, minimax fuel nb d a b' mx bot ap)
    b depth NegInf PosInf true bot m.

(** ** The states of a game *)

(** What holds of the game state throughout a game. *)
Definition game_inv (gs : GameState) : Prop :=
  wf_board (board gs) ∧ two_sided (board gs) ∧ dark_only (board gs) ∧
  winner gs = checkWinner (board gs) ∧
  (currentPlayer gs = Red ∨ currentPlayer gs = Black) ∧
  1 <= turnCount gs ∧
  countPieces (board gs) Red <= 8 ∧ countPieces (board gs) Black <= 8 ∧
  match activePiece gs with
  | Some pos =>
      pos_in_bounds pos ∧
      owned_by (currentPlayer gs) (at_sq (board gs) pos) = true ∧
      ∃ c, c ∈ getValidMoves (board gs) (currentPlayer gs) (Some pos) ∧
           isCapture c = true
  | None => True
  end.

(** The states the component can be in: the initial state under any
    settings; a click on a square of the board; the bot's move on its turn,
    whatever [Math.random] draws; a reset; a change of the settings or of
    the thinking flag. *)
Inductive reachable : AppState → Prop :=
  | reach_init sel mode diff thinking :
      reachable (mkApp initialGameState sel mode diff thinking)
  | reach_click app r c app' :
      reachable app → isValidPos r c = true →
      handleSquareClick app r c = Some app' → reachable app'
  | reach_bot rnd fuel app app' :
      reachable app → random_ok rnd → isBotTurn app = true →
      botStep rnd fuel app = Done app' → reachable app'
  | reach_reset app : reachable app → reachable (resetGame app)
  | reach_settings app mode diff thinking :
      reachable app →
      reachable (mkApp (gameState app) (selectedPos app) mode diff thinking).

(** The state after Red's first move (6,1) -> (5,0) from the initial state. *)
Definition openingMove : Move := slide (mkPos 6 1) 5 0.

Definition afterOpening : AppState :=
  mkApp
    (mkGame (set_sq (set_sq createInitialBoard 5 0 (Some (mkPiece Red Man))) 6 1 None)
       Black None 2 None)
    None PvBot Medium false.

(** The state in which the Red man of [chainBoard] is to move, and the state
    after its first jump. *)
Definition chainApp : AppState :=
  mkApp (mkGame chainBoard Red None 1 None) (Some (mkPos 5 3)) PvP Medium false.

Definition afterJump : AppState :=
  mkApp
    (mkGame (set_sq (set_sq (set_sq chainBoard 3 1 (Some (mkPiece Red Man)))
                       5 3 None) 4 2 None)
       Red None 1 (Some (mkPos 3 1)))
    (Some (mkPos 3 1)) PvP Medium false.

(** ** The search without pruning

    A reference for [minimax]: the same recursion with the two
    [if (beta <= alpha) break] statements removed, so that every move of
    every node is searched and no window is needed. It is what alpha-beta
    pruning is meant to compute. *)

Section Exhaustive.

Variable rec : Board → Z → bool → option Position → outcome num.

Definition plainChild (board : Board) (depth : Z) (maximizingPlayer : bool)
    (currentPlayer : Player) (move : Move) : outcome num :=
  match executeMove board move with
  | None => Thrown
  | Some (newBoard, promoted) =>
      if chainContinues newBoard currentPlayer move promoted
      then rec newBoard depth maximizingPlayer (Some (to move))
      else rec newBoard (depth - 1) (negb maximizingPlayer) None
  end.

Fixpoint plainMax (board : Board) (depth : Z) (currentPlayer : Player)
    (moves : list Move) (maxEval : num) : outcome num :=
  match moves with
  | [] => Done maxEval
  | move :: rest =>
      match plainChild board depth true currentPlayer move with
      | Done evalScore =>
          plainMax board depth currentPlayer rest (num_max maxEval evalScore)
      | Thrown => Thrown
      | OutOfFuel => OutOfFuel
      end
  end.

Fixpoint plainMin (board : Board) (depth : Z) (currentPlayer : Player)
    (moves : list Move) (minEval : num) : outcome num :=
  match moves with
  | [] => Done minEval
  | move :: rest =>
      match plainChild board depth false currentPlayer move with
      | Done evalScore =>
          plainMin board depth currentPlayer rest (num_min minEval evalScore)
      | Thrown => Thrown
      | OutOfFuel => OutOfFuel
      end
  end.

End Exhaustive.

Fixpoint exhaustive (fuel : nat) (board : Board) (depth : Z)
    (maximizingPlayer : bool) (p : Player) (activePiece : option Position)
  : outcome num :=
  match fuel with
  | O => OutOfFuel
  | S fuel' =>
      let winner := checkWinner board in
      if (depth =? 0) || truthy winner then Done (Fin (evaluateBoard board p))
      else
        let currentPlayer := if maximizingPlayer then p else otherPlayer p in
        let validMoves := getValidMoves board currentPlayer activePiece in
        if Z.of_nat (length validMoves) =? 0 then
          Done (Fin (if maximizingPlayer then - SCORES_WIN else SCORES_WIN))
        else
          let rec := λ nb d mx ap, exhaustive fuel' nb d mx p ap in
          if maximizingPlayer
          then plainMax rec board depth currentPlayer validMoves NegInf
          else plainMin rec board depth currentPlayer validMoves PosInf
  end.

(** How the result [r] of a search with window [(alpha, beta)] relates to the
    value [v] of the search without pruning: exact inside the window, and a
    bound on the side it falls out of. *)
Definition within (alpha beta v r : num) : Prop :=
  (num_le r alpha = true → num_le v r = true) ∧
  (num_le beta r = true → num_le r v = true) ∧
  (num_le r alpha = false → num_le beta r = false → r = v).

(** The exhaustive score of one candidate of the root loop. *)
Definition plainScore (fuel : nat) (b : Board) (bot : Player) (depth : Z)
    (m : Move) : outcome num :=
  plainChild (λ nb d mx ap, exhaustive fuel nb d mx bot ap) b depth true bot m.

(** The order of [num] read in two integers: which of the three kinds a
    number is, and its value when it is finite. *)
Definition rank (a : num) : Z :=
  match a with NegInf => -1 | Fin _ => 0 | PosInf => 1 end.

Definition val (a : num) : Z := match a with Fin z => z | _ => 0 end.

(** What one square adds to the score of [evaluateBoard]. *)
Definition cellWeight (p : Player) (r : Z) (o : option Piece) : Z :=
  eval_cell p r o 0.

(** * Properties *)

(** ** Reading and writing squares *)

Lemma isValidPos_spec r c :
  isValidPos r c = true ↔ 0 <= r < 8 ∧ 0 <= c < 8.
Proof. unfold isValidPos, BOARD_SIZE. rewrite !andb_true_iff. lia. Qed.

Lemma wf_boardb_spec b : wf_boardb b = true ↔ wf_board b.
Proof.
  unfold wf_boardb, wf_board.
  rewrite andb_true_iff, Nat.eqb_eq, forallb_forall, Forall_forall.
  split; intros [H1 H2]; split; auto; intros x Hx.
  - apply Nat.eqb_eq, H2. by apply list_elem_of_In.
  - apply Nat.eqb_eq, H2. by apply list_elem_of_In.
Qed.

Lemma wf_row b r :
  wf_board b → 0 <= r < 8 →
  ∃ rw, b !! Z.to_nat r = Some rw ∧ length rw = 8%nat.
Proof.
  intros [Hl Hr] Hrange.
  destruct (lookup_lt_is_Some_2 b (Z.to_nat r)) as [rw Hrw]; [lia|].
  exists rw; split; [done|].
  by eapply (Forall_lookup_1 _ _ _ _ Hr Hrw).
Qed.

Lemma sq_set_sq_eq b r c v :
  wf_board b → isValidPos r c = true → sq (set_sq b r c v) r c = v.
Proof.
  intros Hwf [Hr Hc]%isValidPos_spec.
  destruct (wf_row b r Hwf Hr) as (rw & Hrw & Hlen).
  unfold sq, set_sq.
  replace ((0 <=? r) && (0 <=? c)) with true by (symmetry; apply andb_true_iff; lia).
  rewrite Hrw. cbn beta iota.
  rewrite list_lookup_insert_eq by (destruct Hwf; lia).
  by rewrite list_lookup_insert_eq by lia.
Qed.

Lemma sq_set_sq_ne b r c v r' c' :
  r ≠ r' ∨ c ≠ c' → sq (set_sq b r c v) r' c' = sq b r' c'.
Proof.
  intros Hne. unfold sq, set_sq.
  destruct ((0 <=? r) && (0 <=? c)) eqn:E; [|done].
  destruct ((0 <=? r') && (0 <=? c')) eqn:E'; [|done].
  apply andb_true_iff in E as [Er Ec], E' as [Er' Ec'].
  destruct (b !! Z.to_nat r) as [rw|] eqn:Hrw; [|done].
  destruct (decide (r = r')) as [<-|Hr].
  - rewrite Hrw, list_lookup_insert_eq by by eapply lookup_lt_Some.
    rewrite list_lookup_insert_ne; [done|]. lia.
  - rewrite list_lookup_insert_ne; [done|]. lia.
Qed.

Lemma wf_set_sq b r c v : wf_board b → wf_board (set_sq b r c v).
Proof.
  intros [Hl Hr]. unfold set_sq.
  destruct ((0 <=? r) && (0 <=? c)); [|done].
  destruct (b !! Z.to_nat r) as [rw|] eqn:Hrw; [|done].
  split; [by rewrite length_insert|].
  apply Forall_insert; [done|].
  rewrite length_insert. by eapply (Forall_lookup_1 _ _ _ _ Hr Hrw).
Qed.

Lemma sq_set_sq b r c v r' c' :
  wf_board b → isValidPos r c = true →
  sq (set_sq b r c v) r' c' =
    if bool_decide (r = r' ∧ c = c') then v else sq b r' c'.
Proof.
  intros Hwf Hv. case_bool_decide as H.
  - destruct H as [<- <-]. by apply sq_set_sq_eq.
  - apply sq_set_sq_ne. lia.
Qed.

Lemma wf_emptyBoard : wf_board emptyBoard.
Proof. apply wf_boardb_spec. reflexivity. Qed.

Lemma wf_createInitialBoard : wf_board createInitialBoard.
Proof. apply wf_boardb_spec. reflexivity. Qed.

(** ** Forced capture *)

Lemma elem_of_captureMoves m moves :
  m ∈ captureMoves moves ↔ isCapture m = true ∧ m ∈ moves.
Proof. unfold captureMoves. by rewrite list_elem_of_filter. Qed.

Lemma getValidMoves_cases b p ap :
  (captureMoves (gatherMoves b p ap) ≠ [] ∧
   getValidMoves b p ap = captureMoves (gatherMoves b p ap)) ∨
  (captureMoves (gatherMoves b p ap) = [] ∧
   getValidMoves b p ap = gatherMoves b p ap).
Proof.
  unfold getValidMoves. cbv zeta.
  destruct (captureMoves (gatherMoves b p ap)) as [|m l]; [by right|by left].
Qed.

Lemma getValidMoves_subset b p ap m :
  m ∈ getValidMoves b p ap → m ∈ gatherMoves b p ap.
Proof.
  destruct (getValidMoves_cases b p ap) as [[_ ->]|[_ ->]]; [|done].
  by intros [_ ?]%elem_of_captureMoves.
Qed.

Lemma getValidMoves_captures b p ap m :
  m ∈ gatherMoves b p ap → isCapture m = true → m ∈ getValidMoves b p ap.
Proof.
  intros Hm Hc.
  assert (m ∈ captureMoves (gatherMoves b p ap)) as Hf
    by by apply elem_of_captureMoves.
  destruct (getValidMoves_cases b p ap) as [[_ ->]|[He _]]; [done|].
  rewrite He in Hf. by apply not_elem_of_nil in Hf.
Qed.

(** C2. If the list that [getValidMoves] returns holds a capture, it holds
    nothing but captures, and it is the list of the capture moves among the
    moves gathered over all the pieces that may move (every piece of the
    player, or the active piece): a piece that can only slide contributes
    nothing. *)
Theorem mandatory_capture (b : Board) (p : Player) (ap : option Position) (m : Move) :
  m ∈ getValidMoves b p ap → isCapture m = true →
  (∀ m', m' ∈ getValidMoves b p ap → isCapture m' = true) ∧
  getValidMoves b p ap = captureMoves (gatherMoves b p ap).
Proof.
  intros Hm Hc.
  destruct (getValidMoves_cases b p ap) as [[_ Heq]|[He Heq]].
  - split; [|done]. intros m'. rewrite Heq. by intros [? _]%elem_of_captureMoves.
  - exfalso. rewrite Heq in Hm.
    assert (m ∈ captureMoves (gatherMoves b p ap)) as Hf
      by by apply elem_of_captureMoves.
    rewrite He in Hf. by apply not_elem_of_nil in Hf.
Qed.

Lemma mandatory_capture_witness :
  (∀ m', m' ∈ getValidMoves forcedBoard Red None → isCapture m' = true) ∧
  getValidMoves forcedBoard Red None = captureMoves (gatherMoves forcedBoard Red None).
Proof.
  apply (mandatory_capture forcedBoard Red None (capture (mkPos 5 3) 3 1 (mkPos 4 2))).
  - vm_compute. apply list_elem_of_here.
  - reflexivity.
Defined.

Example forcedBoard_moves :
  gatherMoves forcedBoard Red None =
    [slide (mkPos 5 3) 4 4; capture (mkPos 5 3) 3 1 (mkPos 4 2);
     slide (mkPos 6 5) 5 4; slide (mkPos 6 5) 5 6] ∧
  getValidMoves forcedBoard Red None = [capture (mkPos 5 3) 3 1 (mkPos 4 2)].
Proof. by vm_compute. Qed.

(** ** The end-to-end scenario of the specification *)

(** C7, as stated, fails: on this board (3,2) is a knight's move away from
    (5,3), not on one of its diagonals, and the list returned is not the single
    capture landing on (2,1). *)
Lemma scenario_capture_refuted :
  getValidMoves scenarioBoard Red None ≠ [capture (mkPos 5 3) 2 1 (mkPos 3 2)].
Proof. by vm_compute. Qed.

(** C7, amended. On the board of the scenario [getValidMoves] for Red returns
    exactly the two slides of the Red man, to (4,2) and to (4,4), and no
    capture. *)
Theorem scenario_moves :
  getValidMoves scenarioBoard Red None =
    [slide (mkPos 5 3) 4 2; slide (mkPos 5 3) 4 4].
Proof. by vm_compute. Qed.

(** With the Black man on the diagonal, at (4,2), the capture landing on (3,1)
    is the only move. *)
Example adjacent_capture :
  getValidMoves (place (place emptyBoard 4 2 Black Man) 5 3 Red Man) Red None =
    [capture (mkPos 5 3) 3 1 (mkPos 4 2)].
Proof. by vm_compute. Qed.

(** ** Counting pieces and terminal positions *)

Lemma elem_of_indices r : r ∈ indices ↔ 0 <= r < 8.
Proof.
  unfold indices. rewrite !elem_of_cons, elem_of_nil. lia.
Qed.

Section Folds.

Context {A : Type} (F : Z → A → Z).
Hypothesis F_mono : ∀ acc x, acc <= F acc x.

Lemma fold_mono l acc : acc <= fold_left F l acc.
Proof.
  revert acc. induction l as [|x l IH]; intros acc; simpl; [lia|].
  specialize (IH (F acc x)). specialize (F_mono acc x). lia.
Qed.

Lemma fold_strict l acc x :
  x ∈ l → (∀ acc, acc < F acc x) → acc < fold_left F l acc.
Proof.
  intros Hx Hlt. revert acc.
  induction l as [|y l IH]; intros acc; [by apply not_elem_of_nil in Hx|].
  simpl. apply elem_of_cons in Hx as [<-|Hx].
  - pose proof (fold_mono l (F acc x)). specialize (Hlt acc). lia.
  - specialize (IH Hx (F acc y)). specialize (F_mono acc y). lia.
Qed.

End Folds.

Lemma countPieces_pos b p : has_piece b p → 0 < countPieces b p.
Proof.
  intros (r & c & [Hr Hc]%isValidPos_spec & Hown).
  unfold countPieces.
  apply (fold_strict _) with (x := r).
  - intros acc x. apply (fold_mono _). intros a y.
    destruct (owned_by p (sq b x y)); lia.
  - by apply elem_of_indices.
  - intros acc. apply (fold_strict _) with (x := c).
    + intros a y. destruct (owned_by p (sq b r y)); lia.
    + by apply elem_of_indices.
    + intros a. rewrite Hown. lia.
Qed.

(** C10. When both players have a piece but neither has a move,
    [checkWinner] answers Black: Red's empty move list is tested first. *)
Theorem double_stalemate_black (b : Board) :
  has_piece b Red → has_piece b Black →
  getValidMoves b Red None = [] → getValidMoves b Black None = [] →
  checkWinner b = Some Black.
Proof.
  intros Hred%countPieces_pos Hblack%countPieces_pos HnoRed HnoBlack.
  unfold checkWinner.
  destruct (countPieces b Red =? 0) eqn:E1; [done|].
  destruct (countPieces b Black =? 0) eqn:E2; [apply Z.eqb_eq in E2; lia|].
  by rewrite HnoRed.
Qed.

Lemma double_stalemate_black_witness : checkWinner deadlockBoard = Some Black.
Proof.
  apply (double_stalemate_black deadlockBoard).
  - exists 0, 1. split; reflexivity.
  - exists 7, 0. split; reflexivity.
  - reflexivity.
  - reflexivity.
Defined.

(** With pieces on both sides, Red without a move loses whatever Black can do. *)
Lemma red_stalemate_first b :
  has_piece b Red → has_piece b Black →
  getValidMoves b Red None = [] → checkWinner b = Some Black.
Proof.
  intros Hred%countPieces_pos Hblack%countPieces_pos HnoRed.
  unfold checkWinner.
  destruct (countPieces b Red =? 0) eqn:E1; [done|].
  destruct (countPieces b Black =? 0) eqn:E2; [apply Z.eqb_eq in E2; lia|].
  by rewrite HnoRed.
Qed.

(** ** Applying a move *)

Lemma executeMove_Some b m piece :
  sq b (row (from m)) (col (from m)) = Some piece →
  executeMove b m =
    Some (let nb := set_sq b (row (to m)) (col (to m))
                      (Some (movedPiece piece (row (to m)))) in
          let nb := set_sq nb (row (from m)) (col (from m)) None in
          match isCapture m, capturedPiece m with
          | true, Some cp => set_sq nb (row cp) (col cp) None
          | _, _ => nb
          end,
          promotes piece (row (to m))).
Proof. intros H. unfold executeMove. by rewrite H. Qed.

Lemma executeMove_wf b m nb pr :
  wf_board b → executeMove b m = Some (nb, pr) → wf_board nb.
Proof.
  intros Hwf. unfold executeMove.
  destruct (sq b _ _) as [piece|]; [|done].
  intros [= <- <-].
  destruct (isCapture m), (capturedPiece m); auto using wf_set_sq.
Qed.

(** C3. On an 8x8 board and for a move within the board, [executeMove]
    throws exactly when the square [move.from] is empty; when it holds a
    piece the call returns an 8x8 board together with the promotion flag. *)
Theorem executeMove_throws_iff (b : Board) (m : Move) :
  wf_board b → move_in_bounds m →
  (executeMove b m = None ↔ sq b (row (from m)) (col (from m)) = None) ∧
  (∀ piece, sq b (row (from m)) (col (from m)) = Some piece →
     ∃ nb, executeMove b m = Some (nb, promotes piece (row (to m))) ∧ wf_board nb).
Proof.
  intros Hwf Hin. split.
  - unfold executeMove. by destruct (sq b _ _).
  - intros piece Hp. rewrite (executeMove_Some _ _ _ Hp).
    eexists; split; [done|].
    eapply executeMove_wf; [done|]. by rewrite (executeMove_Some _ _ _ Hp).
Qed.

Lemma executeMove_throws_iff_witness :
  (executeMove createInitialBoard (slide (mkPos 6 1) 5 0) = None ↔
   sq createInitialBoard 6 1 = None) ∧
  (∀ piece, sq createInitialBoard 6 1 = Some piece →
     ∃ nb, executeMove createInitialBoard (slide (mkPos 6 1) 5 0)
             = Some (nb, promotes piece 5) ∧ wf_board nb).
Proof.
  apply (executeMove_throws_iff createInitialBoard (slide (mkPos 6 1) 5 0)).
  - apply wf_createInitialBoard.
  - repeat split.
Defined.

Example executeMove_empty_from :
  executeMove createInitialBoard (slide (mkPos 4 1) 3 0) = None.
Proof. reflexivity. Qed.

(** C9, as stated, fails for a move from a square to itself: the piece is
    written to [to] and then [from], the same square, is cleared. *)
Lemma destination_replaced_refuted :
  wf_board loneBoard ∧ move_in_bounds selfMove ∧
  ¬ destination_replaced loneBoard selfMove.
Proof.
  split; [apply wf_boardb_spec; reflexivity|].
  split; [repeat split|].
  intros H.
  destruct (H (mkPiece Red Man) (mkPiece Red Man) eq_refl eq_refl)
    as (nb & pr & Hex & Hsq).
  vm_compute in Hex. injection Hex as <- <-. vm_compute in Hsq. discriminate.
Qed.

(** C9, amended. [executeMove] does not look at the destination: on an 8x8
    board, for a move within the board with [from] and [to] both occupied, it
    returns without error and the piece that stood on [to] is gone. [to] then
    holds the moving piece (promoted if the promotion test passes), unless
    [to] is [from] itself or the square the move captures, in which case [to]
    is left empty. *)
Theorem executeMove_overwrites (b : Board) (m : Move) (piece victim : Piece) :
  wf_board b → move_in_bounds m →
  sq b (row (from m)) (col (from m)) = Some piece →
  sq b (row (to m)) (col (to m)) = Some victim →
  ∃ nb, executeMove b m = Some (nb, promotes piece (row (to m))) ∧
    sq nb (row (to m)) (col (to m)) =
      if bool_decide (from m = to m) || captures_destination m then None
      else Some (movedPiece piece (row (to m))).
Proof.
  intros Hwf (Hf & Ht & Hc) Hp Hv.
  rewrite (executeMove_Some _ _ _ Hp). eexists; split; [done|].
  destruct m as [[fr fc] [tr tc] cap cp]; simpl in *.
  unfold captures_destination, pos_in_bounds in *; simpl in *.
  set (b1 := set_sq b tr tc _).
  assert (wf_board b1) as Hwf1 by by apply wf_set_sq.
  assert (sq b1 tr tc = Some (movedPiece piece tr)) as H1 by by apply sq_set_sq_eq.
  set (b2 := set_sq b1 fr fc None).
  assert (wf_board b2) as Hwf2 by by apply wf_set_sq.
  assert (sq b2 tr tc = if bool_decide (mkPos fr fc = mkPos tr tc) then None
                        else Some (movedPiece piece tr)) as H2.
  { unfold b2. rewrite sq_set_sq by done.
    case_bool_decide as E1; case_bool_decide as E2; try done.
    - destruct E1 as [-> ->]. done.
    - injection E2 as -> ->. by destruct E1. }
  destruct cap, cp as [[cr cc]|]; simpl; rewrite ?orb_false_r; try done.
  rewrite sq_set_sq, H2 by done.
  destruct (bool_decide (mkPos fr fc = mkPos tr tc)); simpl.
  - by destruct (bool_decide (cr = tr ∧ cc = tc)).
  - destruct (bool_decide (cr = tr ∧ cc = tc)) eqn:E1,
      (bool_decide (Some (mkPos cr cc) = Some (mkPos tr tc))) eqn:E2; try done.
    + apply bool_decide_eq_true in E1 as [-> ->].
      by apply bool_decide_eq_false in E2.
    + apply bool_decide_eq_true in E2. injection E2 as -> ->.
      apply bool_decide_eq_false in E1. by destruct E1.
Qed.

Lemma executeMove_overwrites_witness :
  ∃ nb, executeMove crowdedBoard crushMove = Some (nb, false) ∧
    sq nb 4 3 = Some (mkPiece Red Man).
Proof.
  apply (executeMove_overwrites crowdedBoard crushMove (mkPiece Red Man) (mkPiece Red Man)).
  - apply wf_boardb_spec; reflexivity.
  - repeat split.
  - reflexivity.
  - reflexivity.
Defined.

(** ** The evaluation function *)

Lemma two_sidedb_spec b : two_sidedb b = true ↔ two_sided b.
Proof.
  unfold two_sidedb, two_sided.
  rewrite forallb_forall, Forall_forall. split; intros H rw Hrw.
  - apply Forall_forall. intros o Ho.
    apply list_elem_of_In, H in Hrw. rewrite forallb_forall in Hrw.
    by apply Hrw, list_elem_of_In.
  - apply list_elem_of_In, H in Hrw. rewrite Forall_forall in Hrw.
    apply forallb_forall. intros o Ho. by apply Hrw, list_elem_of_In.
Qed.

Lemma two_sided_sq b r c piece :
  two_sided b → sq b r c = Some piece → player piece ≠ PNone.
Proof.
  intros Hts. unfold sq.
  destruct ((0 <=? r) && (0 <=? c)); [|done].
  destruct (b !! Z.to_nat r) as [rw|] eqn:Hrw; [|done].
  destruct (rw !! Z.to_nat c) as [o|] eqn:Ho; [|done].
  intros ->.
  pose proof (Forall_lookup_1 _ _ _ _ Hts Hrw) as Hrow.
  pose proof (Forall_lookup_1 _ _ _ _ Hrow Ho) as Hcell.
  simpl in Hcell. by apply negb_true_iff, bool_decide_eq_false in Hcell.
Qed.

Lemma two_sided_set_sq b r c v :
  two_sided b → cell_two_sided v = true → two_sided (set_sq b r c v).
Proof.
  intros Hts Hv. unfold set_sq.
  destruct ((0 <=? r) && (0 <=? c)); [|done].
  destruct (b !! Z.to_nat r) as [rw|] eqn:Hrw; [|done].
  apply Forall_insert; [done|].
  apply Forall_insert; [|done].
  by eapply (Forall_lookup_1 _ _ _ _ Hts Hrw).
Qed.

Lemma two_sided_createInitialBoard : two_sided createInitialBoard.
Proof. apply two_sidedb_spec. reflexivity. Qed.

(** Moves keep the pieces two-sided: a move only relocates, removes or
    crowns a piece, and crowning keeps the owner. *)
Lemma executeMove_two_sided b m nb pr :
  two_sided b → executeMove b m = Some (nb, pr) → two_sided nb.
Proof.
  intros Hts. unfold executeMove.
  destruct (sq b _ _) as [piece|] eqn:Hp; [|done].
  intros [= <- <-].
  assert (cell_two_sided (Some (movedPiece piece (row (to m)))) = true) as Hmv.
  { pose proof (two_sided_sq _ _ _ _ Hts Hp) as Hne.
    unfold movedPiece.
    destruct (promotes _ _); simpl; by apply negb_true_iff, bool_decide_eq_false. }
  destruct (isCapture m), (capturedPiece m); auto using two_sided_set_sq.
Qed.

(** One square seen from both sides. *)
Lemma eval_cell_negate r o s :
  cell_two_sided o = true →
  eval_cell Red r o s = - eval_cell Black r o (- s).
Proof.
  destruct o as [[[] []]|]; simpl; intros H; try done; lia.
Qed.

Lemma materialScore_negate b :
  two_sided b → materialScore b Red = - materialScore b Black.
Proof.
  intros Hts. unfold materialScore.
  assert (∀ r l s, fold_left (λ score c, eval_cell Red r (sq b r c) score) l s =
                   - fold_left (λ score c, eval_cell Black r (sq b r c) score) l (- s))
    as Hinner.
  { intros r l. induction l as [|c l IH]; intros s; simpl; [lia|].
    rewrite IH, (eval_cell_negate r (sq b r c) s), Z.opp_involutive; [done|].
    destruct (sq b r c) as [piece|] eqn:Hp; [|done].
    simpl. pose proof (two_sided_sq _ _ _ _ Hts Hp).
    by apply negb_true_iff, bool_decide_eq_false. }
  assert (∀ cols l s,
    fold_left (λ score r,
      fold_left (λ score c, eval_cell Red r (sq b r c) score) cols score) l s =
    - fold_left (λ score r,
      fold_left (λ score c, eval_cell Black r (sq b r c) score) cols score) l (- s))
    as Houter.
  { intros cols. induction l as [|r l IH]; intros s; simpl; [lia|].
    by rewrite IH, Hinner, !Z.opp_involutive. }
  apply (Houter indices indices 0).
Qed.

(** C5. On a board that is not won, whose pieces all belong to Red or to
    Black, the score for Red is the opposite of the score for Black. *)
Theorem evaluateBoard_antisymmetric (b : Board) :
  two_sided b → checkWinner b = None →
  evaluateBoard b Red = - evaluateBoard b Black.
Proof.
  intros Hts Hw. unfold evaluateBoard. rewrite Hw. simpl.
  by apply materialScore_negate.
Qed.

Lemma evaluateBoard_antisymmetric_witness :
  evaluateBoard createInitialBoard Red = - evaluateBoard createInitialBoard Black.
Proof.
  apply (evaluateBoard_antisymmetric createInitialBoard).
  - apply two_sidedb_spec. reflexivity.
  - reflexivity.
Defined.

(** The terminal sentinels are opposite as well. *)
Lemma evaluateBoard_antisymmetric_won b :
  two_sided b → evaluateBoard b Red = - evaluateBoard b Black.
Proof.
  intros Hts. unfold evaluateBoard.
  assert (checkWinner b = None ∨ checkWinner b = Some Red ∨ checkWinner b = Some Black)
    as [Hw|[Hw|Hw]].
  { unfold checkWinner. repeat case_match; auto. }
  - rewrite Hw. simpl. by apply materialScore_negate.
  - by rewrite Hw.
  - by rewrite Hw.
Qed.

Example evaluateBoard_uneven :
  evaluateBoard (place (place emptyBoard 2 1 Red King) 1 0 Black Man) Red = 198 ∧
  evaluateBoard (place (place emptyBoard 2 1 Red King) 1 0 Black Man) Black = -198.
Proof. by vm_compute. Qed.

(** ** Move generation: the flying king *)

Lemma elem_of_flat_map {A B} (f : A → list B) (l : list A) (y : B) :
  y ∈ flat_map f l ↔ ∃ x, x ∈ l ∧ y ∈ f x.
Proof.
  rewrite list_elem_of_In, in_flat_map. split; intros (x & Hx & Hy); exists x.
  - by rewrite !list_elem_of_In.
  - by rewrite <- !list_elem_of_In.
Qed.

Lemma elem_of_king_dirs d :
  d ∈ king_dirs ↔ (fst d = 1 ∨ fst d = -1) ∧ (snd d = 1 ∨ snd d = -1).
Proof.
  unfold king_dirs. rewrite !elem_of_cons, elem_of_nil.
  destruct d as [dr dc]; simpl. split.
  - intros [H|[H|[H|[H|[]]]]]; injection H as -> ->; lia.
  - intros [[-> | ->] [-> | ->]]; auto.
Qed.

Lemma ray_eta pos d k : mkPos (row (ray pos d k)) (col (ray pos d k)) = ray pos d k.
Proof. done. Qed.

(** Squares between two squares of the board are on the board. *)
Lemma ray_between pos d k i :
  d ∈ king_dirs → pos_in_bounds pos → pos_in_bounds (ray pos d k) →
  0 <= i <= k → pos_in_bounds (ray pos d i).
Proof.
  intros Hd%elem_of_king_dirs Hp Hk Hi. destruct d as [dr dc].
  unfold pos_in_bounds, ray in *; simpl in *.
  apply isValidPos_spec in Hp, Hk. apply isValidPos_spec.
  destruct Hd as [[-> | ->] [-> | ->]]; lia.
Qed.

Lemma ray_short pos d k :
  d ∈ king_dirs → pos_in_bounds pos → pos_in_bounds (ray pos d k) → 0 <= k → k <= 7.
Proof.
  intros Hd%elem_of_king_dirs Hp Hk Hi. destruct d as [dr dc].
  unfold pos_in_bounds, ray in *; simpl in *.
  apply isValidPos_spec in Hp, Hk.
  destruct Hd as [[-> | ->] [-> | ->]]; lia.
Qed.

Lemma ray_inj pos d d' k k' :
  d ∈ king_dirs → d' ∈ king_dirs → 1 <= k → 1 <= k' →
  ray pos d k = ray pos d' k' → d = d' ∧ k = k'.
Proof.
  intros Hd%elem_of_king_dirs Hd'%elem_of_king_dirs Hk Hk'.
  destruct d as [dr dc], d' as [dr' dc']; unfold ray; simpl in *.
  intros [= Hr Hc].
  destruct Hd as [[-> | ->] [-> | ->]], Hd' as [[-> | ->] [-> | ->]];
    (split; [f_equal|]); lia.
Qed.

Lemma kingRay_S fuel b pos p dr dc r c found opp :
  kingRay (S fuel) b pos p dr dc r c found opp =
    if isValidPos r c then
      match sq b r c with
      | None =>
          if negb found then
            slide pos r c :: kingRay fuel b pos p dr dc (r + dr) (c + dc) found opp
          else
            match opp with
            | Some op => [capture pos r c op]
            | None => kingRay fuel b pos p dr dc (r + dr) (c + dc) found opp
            end
      | Some currentPiece =>
          if bool_decide (player currentPiece = p) then []
          else if found then []
          else kingRay fuel b pos p dr dc (r + dr) (c + dc) true (Some (mkPos r c))
      end
    else [].
Proof. done. Qed.

(** The ray loop, once it has passed an enemy piece on step [k]: the next
    square is the only landing square. *)
Lemma kingRay_landing fuel b pos p d k e m :
  at_sq b (ray pos d k) = Some e → player e ≠ p → 1 <= k →
  (∀ j, 1 <= j < k → at_sq b (ray pos d j) = None) →
  m ∈ kingRay fuel b pos p (fst d) (snd d)
        (row (ray pos d (k + 1))) (col (ray pos d (k + 1)))
        true (Some (ray pos d k)) →
  ray_move b pos p d m.
Proof.
  intros He Hne Hk Hempty.
  destruct fuel as [|fuel]; [by intros ?%not_elem_of_nil|].
  rewrite kingRay_S.
  destruct (isValidPos _ _) eqn:Hv; [|by intros ?%not_elem_of_nil].
  fold (at_sq b (ray pos d (k + 1))).
  destruct (at_sq b (ray pos d (k + 1))) as [piece|] eqn:Hp.
  - destruct (bool_decide _); by intros ?%not_elem_of_nil.
  - intros ->%list_elem_of_singleton.
    exists (k + 1). split; [lia|]. split; [done|]. split; [done|].
    right. replace (k + 1 - 1) with k by lia.
    split; [lia|]. split; [done|]. split; [by exists e|].
    intros j Hj. apply Hempty. lia.
Qed.

(** The ray loop before any piece was met. *)
Lemma kingRay_scan fuel b pos p d k m :
  1 <= k →
  (∀ j, 1 <= j < k → at_sq b (ray pos d j) = None) →
  m ∈ kingRay fuel b pos p (fst d) (snd d)
        (row (ray pos d k)) (col (ray pos d k)) false None →
  ray_move b pos p d m.
Proof.
  revert k. induction fuel as [|fuel IH]; intros k Hk Hempty;
    [by intros ?%not_elem_of_nil|].
  rewrite kingRay_S.
  destruct (isValidPos _ _) eqn:Hv; [|by intros ?%not_elem_of_nil].
  fold (at_sq b (ray pos d k)).
  assert (row (ray pos d k) + fst d = row (ray pos d (k + 1))) as ->
    by (simpl; lia).
  assert (col (ray pos d k) + snd d = col (ray pos d (k + 1))) as ->
    by (simpl; lia).
  destruct (at_sq b (ray pos d k)) as [piece|] eqn:Hp.
  - destruct (bool_decide (player piece = p)) eqn:Hown;
      [by intros ?%not_elem_of_nil|].
    apply bool_decide_eq_false in Hown.
    rewrite ray_eta. by apply (kingRay_landing fuel b pos p d k piece).
  - intros [->|Hm]%elem_of_cons.
    + exists k. split; [done|]. split; [done|]. split; [done|]. by left.
    + apply (IH (k + 1)); [lia| |done].
      intros j Hj. destruct (decide (j = k)) as [->|]; [done|]. apply Hempty. lia.
Qed.

Lemma king_ray_sound b pos p d m :
  m ∈ king_ray b pos p d → ray_move b pos p d m.
Proof.
  unfold king_ray. intros Hm.
  apply (kingRay_scan 8 b pos p d 1); [lia|intros; lia|].
  unfold ray; simpl.
  by replace (1 * fst d) with (fst d) by lia; replace (1 * snd d) with (snd d) by lia.
Qed.

Lemma ray_start pos d :
  (row pos + fst d = row (ray pos d 1)) ∧ (col pos + snd d = col (ray pos d 1)).
Proof. unfold ray; simpl. lia. Qed.

Lemma ray_next pos d k :
  (row (ray pos d k) + fst d = row (ray pos d (k + 1))) ∧
  (col (ray pos d k) + snd d = col (ray pos d (k + 1))).
Proof. unfold ray; simpl. lia. Qed.

(** A slide is generated for every empty square reached over empty squares. *)
Lemma kingRay_reach_slide fuel b pos p d j k :
  1 <= j <= k → (Z.to_nat (k - j) < fuel)%nat →
  (∀ i, j <= i <= k → pos_in_bounds (ray pos d i) ∧ at_sq b (ray pos d i) = None) →
  slideTo pos (ray pos d k) ∈
    kingRay fuel b pos p (fst d) (snd d)
      (row (ray pos d j)) (col (ray pos d j)) false None.
Proof.
  revert j. induction fuel as [|fuel IH]; intros j Hj Hfuel Hfree; [lia|].
  rewrite kingRay_S.
  destruct (Hfree j) as [Hv He]; [lia|].
  unfold pos_in_bounds in Hv. rewrite Hv.
  fold (at_sq b (ray pos d j)). rewrite He. simpl negb. cbv iota.
  destruct (decide (j = k)) as [->|Hjk]; [apply list_elem_of_here|].
  apply list_elem_of_further.
  destruct (ray_next pos d j) as [-> ->].
  apply IH; [lia|lia|]. intros i Hi. apply Hfree. lia.
Qed.

(** A capture is generated for the empty square right behind the first piece
    of the ray, when that piece is an enemy. *)
Lemma kingRay_reach_capture fuel b pos p d j k e :
  1 <= j <= k - 1 → (Z.to_nat (k - j) < fuel)%nat →
  (∀ i, j <= i < k - 1 →
     pos_in_bounds (ray pos d i) ∧ at_sq b (ray pos d i) = None) →
  pos_in_bounds (ray pos d (k - 1)) →
  at_sq b (ray pos d (k - 1)) = Some e → player e ≠ p →
  pos_in_bounds (ray pos d k) → at_sq b (ray pos d k) = None →
  captureTo pos (ray pos d k) (ray pos d (k - 1)) ∈
    kingRay fuel b pos p (fst d) (snd d)
      (row (ray pos d j)) (col (ray pos d j)) false None.
Proof.
  revert j. induction fuel as [|fuel IH];
    intros j Hj Hfuel Hfree Hvo Ho Hne Hvk Hk; [lia|].
  rewrite kingRay_S.
  destruct (decide (j = k - 1)) as [->|Hjk].
  - unfold pos_in_bounds in Hvo. rewrite Hvo.
    fold (at_sq b (ray pos d (k - 1))). rewrite Ho.
    rewrite bool_decide_eq_false_2 by done.
    destruct (ray_next pos d (k - 1)) as [-> ->]. rewrite ray_eta.
    replace (k - 1 + 1) with k by lia.
    destruct fuel as [|fuel]; [lia|].
    rewrite kingRay_S. unfold pos_in_bounds in Hvk. rewrite Hvk.
    fold (at_sq b (ray pos d k)). rewrite Hk. apply list_elem_of_here.
  - destruct (Hfree j) as [Hv He]; [lia|].
    unfold pos_in_bounds in Hv. rewrite Hv.
    fold (at_sq b (ray pos d j)). rewrite He. simpl negb. cbv iota.
    apply list_elem_of_further.
    destruct (ray_next pos d j) as [-> ->].
    apply IH; try done; [lia|lia|]. intros i Hi. apply Hfree. lia.
Qed.

Lemma king_ray_complete b pos p d m :
  pos_in_bounds pos → d ∈ king_dirs →
  ray_move b pos p d m → m ∈ king_ray b pos p d.
Proof.
  intros Hpos Hd (k & Hk & Hvk & Hek & Hcase).
  pose proof (ray_short pos d k Hd Hpos Hvk) as Hshort.
  unfold king_ray. destruct (ray_start pos d) as [-> ->].
  destruct Hcase as [[-> Hfree]|(Hk2 & -> & (e & He & Hne) & Hfree)].
  - apply kingRay_reach_slide; [lia|lia|].
    intros i Hi. split; [apply (ray_between pos d k); auto; lia|].
    destruct (decide (i = k)) as [->|]; [done|]. apply Hfree. lia.
  - apply (kingRay_reach_capture 8 b pos p d 1 k e); try done; [lia|lia| |].
    + intros i Hi. split; [apply (ray_between pos d k); auto; lia|].
      apply Hfree. lia.
    + apply (ray_between pos d k); auto; lia.
Qed.

(** The moves of a king along one ray are exactly the moves of [ray_move]. *)
Lemma king_ray_spec b pos p d m :
  pos_in_bounds pos → d ∈ king_dirs →
  m ∈ king_ray b pos p d ↔ ray_move b pos p d m.
Proof.
  intros Hpos Hd. split; [apply king_ray_sound|by apply king_ray_complete].
Qed.

(** Eight rounds are all the [while] loop can make: more fuel changes nothing. *)
Lemma kingRay_fuel_mono fuel n b pos p dr dc r c found opp :
  (dr = 1 ∨ dr = -1) →
  (isValidPos r c = true →
   (Z.to_nat (if bool_decide (dr = 1%Z) then 8 - r else r + 1) <= fuel)%nat) →
  kingRay (fuel + n) b pos p dr dc r c found opp =
  kingRay fuel b pos p dr dc r c found opp.
Proof.
  intros Hdr. revert r c found opp.
  induction fuel as [|fuel IH]; intros r c found opp Hrem.
  - destruct (isValidPos r c) eqn:Hv.
    + specialize (Hrem eq_refl). apply isValidPos_spec in Hv.
      case_bool_decide; lia.
    + destruct n; [done|]. simpl. by rewrite Hv.
  - change (S fuel + n)%nat with (S (fuel + n)). rewrite !kingRay_S.
    destruct (isValidPos r c) eqn:Hv; [|done].
    specialize (Hrem eq_refl).
    assert (∀ f o, kingRay (fuel + n) b pos p dr dc (r + dr) (c + dc) f o =
                   kingRay fuel b pos p dr dc (r + dr) (c + dc) f o) as Hnext.
    { intros f o. apply IH. intros _. apply isValidPos_spec in Hv.
      revert Hrem. repeat case_bool_decide; lia. }
    by rewrite !Hnext.
Qed.

Lemma kingRay_fuel n b pos p d r c found opp :
  d ∈ king_dirs →
  kingRay (8 + n) b pos p (fst d) (snd d) r c found opp =
  kingRay 8 b pos p (fst d) (snd d) r c found opp.
Proof.
  intros Hd%elem_of_king_dirs. apply kingRay_fuel_mono; [tauto|].
  intros Hv%isValidPos_spec. case_bool_decide; lia.
Qed.

(** ** Move generation: men, and the gathering loops *)

Lemma forward_dirs_king p d : d ∈ forward_dirs p → d ∈ king_dirs.
Proof.
  unfold forward_dirs, king_dirs. destruct (decide (p = Red));
    rewrite !elem_of_cons, !elem_of_nil; intuition.
Qed.

Lemma man_slide_spec b pos d m :
  m ∈ man_slide b pos d ↔
  m = slideTo pos (ray pos d 1) ∧
  pos_in_bounds (ray pos d 1) ∧ at_sq b (ray pos d 1) = None.
Proof.
  unfold man_slide. destruct (ray_start pos d) as [-> ->].
  fold (at_sq b (ray pos d 1)). unfold pos_in_bounds.
  destruct (isValidPos _ _); simpl.
  - destruct (at_sq b (ray pos d 1)); simpl.
    + rewrite elem_of_nil. by intuition.
    + rewrite list_elem_of_singleton. by intuition.
  - rewrite elem_of_nil. by intuition.
Qed.

Lemma man_capture_spec b pos p d m :
  m ∈ man_capture b pos p d ↔
  m = captureTo pos (ray pos d 2) (ray pos d 1) ∧
  pos_in_bounds (ray pos d 2) ∧ at_sq b (ray pos d 2) = None ∧
  ∃ e, at_sq b (ray pos d 1) = Some e ∧ player e ≠ p.
Proof.
  unfold man_capture. destruct (ray_start pos d) as [-> ->].
  replace (row pos + fst d * 2) with (row (ray pos d 2)) by (simpl; lia).
  replace (col pos + snd d * 2) with (col (ray pos d 2)) by (simpl; lia).
  rewrite ray_eta.
  fold (at_sq b (ray pos d 1)). fold (at_sq b (ray pos d 2)).
  unfold pos_in_bounds.
  destruct (isValidPos _ _); [|rewrite elem_of_nil; by intuition].
  destruct (at_sq b (ray pos d 1)) as [e|];
    [|rewrite elem_of_nil; split; [done|by intros (_ & _ & _ & ? & ? & _)]].
  destruct (bool_decide (player e = p)) eqn:Hown; simpl.
  - apply bool_decide_eq_true in Hown. rewrite elem_of_nil.
    split; [done|]. intros (_ & _ & _ & e' & [= <-] & Hne). by destruct Hne.
  - apply bool_decide_eq_false in Hown.
    destruct (at_sq b (ray pos d 2)); simpl.
    + rewrite elem_of_nil. by intuition.
    + rewrite list_elem_of_singleton. split; [|by intuition].
      intros ->. repeat split. by exists e.
Qed.

Lemma getManMoves_spec b pos p m :
  m ∈ getManMoves b pos p ↔
  ∃ d, d ∈ forward_dirs p ∧
    ((m = slideTo pos (ray pos d 1) ∧
      pos_in_bounds (ray pos d 1) ∧ at_sq b (ray pos d 1) = None) ∨
     (m = captureTo pos (ray pos d 2) (ray pos d 1) ∧
      pos_in_bounds (ray pos d 2) ∧ at_sq b (ray pos d 2) = None ∧
      ∃ e, at_sq b (ray pos d 1) = Some e ∧ player e ≠ p)).
Proof.
  unfold getManMoves. rewrite elem_of_app, !elem_of_flat_map. split.
  - intros [(d & Hd & Hm)|(d & Hd & Hm)]; exists d; split; try done.
    + left. by apply man_slide_spec.
    + right. by apply man_capture_spec.
  - intros (d & Hd & [Hm|Hm]); [left|right]; exists d; split; try done.
    + by apply man_slide_spec.
    + by apply man_capture_spec.
Qed.

Lemma getKingMoves_spec b pos p m :
  pos_in_bounds pos →
  m ∈ getKingMoves b pos p ↔ ∃ d, d ∈ king_dirs ∧ ray_move b pos p d m.
Proof.
  intros Hpos. unfold getKingMoves. rewrite elem_of_flat_map.
  split; intros (d & Hd & Hm); exists d; split; try done;
    by apply king_ray_spec.
Qed.

Lemma gatherMoves_all b p m :
  m ∈ gatherMoves b p None ↔
  ∃ pos piece, pos_in_bounds pos ∧ at_sq b pos = Some piece ∧
    player piece = p ∧ m ∈ getPieceMoves b pos piece.
Proof.
  unfold gatherMoves. rewrite elem_of_flat_map. split.
  - intros (r & Hr%elem_of_indices & (c & Hc%elem_of_indices & Hm)%elem_of_flat_map).
    destruct (sq b r c) as [piece|] eqn:Hp; [|by apply not_elem_of_nil in Hm].
    destruct (bool_decide (player piece = p)) eqn:Hown;
      [|by apply not_elem_of_nil in Hm].
    apply bool_decide_eq_true in Hown.
    exists (mkPos r c), piece. split; [by apply isValidPos_spec|done].
  - intros ([r c] & piece & [Hr Hc]%isValidPos_spec & Hp & Hown & Hm).
    cbn [row col] in *. exists r. split; [by apply elem_of_indices|].
    apply elem_of_flat_map. exists c. split; [by apply elem_of_indices|].
    unfold at_sq in Hp; simpl in Hp. rewrite Hp.
    by rewrite bool_decide_eq_true_2.
Qed.

Lemma gatherMoves_active b p pos m :
  m ∈ gatherMoves b p (Some pos) ↔
  ∃ piece, at_sq b pos = Some piece ∧ player piece = p ∧
    m ∈ getPieceMoves b pos piece.
Proof.
  unfold gatherMoves. fold (at_sq b pos). split.
  - destruct (at_sq b pos) as [piece|]; [|by intros ?%not_elem_of_nil].
    destruct (bool_decide (player piece = p)) eqn:Hown;
      [|by intros ?%not_elem_of_nil].
    apply bool_decide_eq_true in Hown. intros Hm. by exists piece.
  - intros (piece & -> & Hown & Hm). by rewrite bool_decide_eq_true_2.
Qed.

Lemma ray_move_from b pos p d m : ray_move b pos p d m → from m = pos.
Proof. intros (k & _ & _ & _ & [[-> _]|(_ & -> & _)]); done. Qed.

Lemma getPieceMoves_from b pos piece m :
  m ∈ getPieceMoves b pos piece → from m = pos.
Proof.
  unfold getPieceMoves. destruct (type piece).
  - intros (d & _ & [[-> _]|[-> _]])%getManMoves_spec; done.
  - unfold getKingMoves.
    intros (d & _ & Hm%king_ray_sound)%elem_of_flat_map.
    by eapply ray_move_from.
Qed.

(** Every gathered move is well shaped. *)
Lemma getPieceMoves_legal b pos piece m :
  pos_in_bounds pos → at_sq b pos = Some piece →
  m ∈ getPieceMoves b pos piece → legal_shape b (player piece) m.
Proof.
  intros Hpos Hp. unfold getPieceMoves.
  assert (owned_by (player piece) (at_sq b pos) = true) as Hown
    by (rewrite Hp; simpl; by apply bool_decide_eq_true_2).
  destruct (type piece).
  - intros (d & Hd%forward_dirs_king & [(-> & Hv & He)|(-> & Hv & He & e & Hm & Hne)])
      %getManMoves_spec.
    + by repeat split.
    + repeat split; try done; simpl.
      * apply (ray_between pos d 2); auto; lia.
      * by exists e.
  - intros (d & Hd & (k & Hk & Hv & He & Hcase))%getKingMoves_spec; [|done].
    destruct Hcase as [[-> _]|(Hk2 & -> & (e & Hm & Hne) & _)].
    + by repeat split.
    + repeat split; try done; simpl.
      * apply (ray_between pos d k); auto; lia.
      * by exists e.
Qed.

Lemma gatherMoves_legal b p ap m :
  active_ok ap → m ∈ gatherMoves b p ap → legal_shape b p m.
Proof.
  destruct ap as [pos|]; simpl.
  - intros Hpos (piece & Hp & <- & Hm)%gatherMoves_active.
    by apply (getPieceMoves_legal b pos).
  - intros _ (pos & piece & Hpos & Hp & <- & Hm)%gatherMoves_all.
    by apply (getPieceMoves_legal b pos).
Qed.

Lemma getValidMoves_legal b p ap m :
  active_ok ap → m ∈ getValidMoves b p ap → legal_shape b p m.
Proof. intros Hap Hm%getValidMoves_subset. by eapply gatherMoves_legal. Qed.

(** ** The reach of a flying king *)

Lemma ray_move_to b pos p d m :
  ray_move b pos p d m →
  ∃ k, 1 <= k ∧ to m = ray pos d k ∧ at_sq b (ray pos d k) = None ∧
    ((isCapture m = false ∧ ∀ j, 1 <= j < k → at_sq b (ray pos d j) = None) ∨
     (isCapture m = true ∧ capturedPiece m = Some (ray pos d (k - 1)) ∧
      (∃ e, at_sq b (ray pos d (k - 1)) = Some e ∧ player e ≠ p) ∧
      ∀ j, 1 <= j < k - 1 → at_sq b (ray pos d j) = None)).
Proof.
  intros (k & Hk & _ & He & [[-> Hfree]|(_ & -> & Hen & Hfree)]);
    exists k; repeat split; auto.
Qed.

(** C1, as stated, fails: behind the Black man on (3,4) the Red king on
    (0,1) finds (4,5) and (5,6) empty, and the capture landing on (5,6) is not
    among the moves: the ray loop stops at the first landing square. *)
Lemma flying_second_landing_refuted :
  flying_setup kingBoard Red (mkPos 0 1) (1, 1) ∧
  ¬ ∃ m, m ∈ getValidMoves kingBoard Red None ∧
         isCapture m = true ∧ to m = ray (mkPos 0 1) (1, 1) 5.
Proof.
  split.
  - split; [apply wf_boardb_spec; reflexivity|].
    split; [reflexivity|].
    split; [apply elem_of_king_dirs; simpl; lia|].
    repeat split. by exists (mkPiece Black Man).
  - change (getValidMoves kingBoard Red None)
      with [captureTo (mkPos 0 1) (mkPos 4 5) (mkPos 3 4)].
    by intros (m & ->%list_elem_of_singleton & _ & [=]).
Qed.

(** C1, amended. A king of [p] with two empty squares, then an enemy piece at
    distance 3, then two empty squares of the board along a diagonal: the
    moves returned for [p] include the capture landing on the first empty
    square beyond the enemy piece (distance 4), and no move of that king to
    the second one (distance 5). And on every board, for every move that the
    scan of a ray generates, landing [k] steps away: none of the squares up to
    the landing square holds a piece of [p] (an own piece blocks the ray), and
    no two squares before the landing square are occupied (nothing is
    generated beyond a second occupied square). *)
Theorem flying_king_reach (b : Board) (p : Player) (pos : Position) (d : Z * Z) :
  (flying_setup b p pos d →
   captureTo pos (ray pos d 4) (ray pos d 3) ∈ getValidMoves b p None ∧
   ∀ m, m ∈ getValidMoves b p None → from m = pos → to m ≠ ray pos d 5) ∧
  (∀ d' m k,
     d' ∈ king_dirs → m ∈ king_ray b pos p d' → to m = ray pos d' k → 1 <= k →
     (∀ j, 1 <= j <= k → owned_by p (at_sq b (ray pos d' j)) = false) ∧
     (∀ i j, 1 <= i < j → j < k →
        at_sq b (ray pos d' i) = None ∨ at_sq b (ray pos d' j) = None)).
Proof.
  split.
  - intros (Hwf & Hpos & Hd & Hking & H1 & H2 & (e & H3 & Hne) & H4 & H5 & Hv5).
    split.
    + apply getValidMoves_captures; [|done].
      apply gatherMoves_all. exists pos, (mkPiece p King).
      repeat split; try done.
      unfold getPieceMoves; simpl. apply getKingMoves_spec; [done|].
      exists d. split; [done|]. exists 4. split; [lia|].
      split; [apply (ray_between pos d 5); auto; lia|]. split; [done|].
      right. change (4 - 1) with 3. split; [lia|]. split; [done|].
      split; [by exists e|].
      intros j Hj. assert (j = 1 ∨ j = 2) as [-> | ->] by lia; done.
    + intros m Hm%getValidMoves_subset Hfrom Hto.
      apply gatherMoves_all in Hm as (pos' & piece & Hpos' & Hp & Hown & Hm).
      pose proof (getPieceMoves_from _ _ _ _ Hm) as Heq.
      rewrite Hfrom in Heq. subst pos'.
      rewrite Hking in Hp. injection Hp as <-.
      unfold getPieceMoves in Hm; simpl in Hm.
      apply getKingMoves_spec in Hm as (d' & Hd' & Hm); [|done].
      apply ray_move_to in Hm as (k & Hk & Hto' & Hek & Hcase).
      rewrite Hto in Hto'.
      destruct (ray_inj pos d d' 5 k Hd Hd') as [<- <-]; [lia|done|done|].
      destruct Hcase as [[_ Hfree]|(_ & _ & (e' & He' & _) & _)].
      * rewrite (Hfree 3) in H3 by lia. done.
      * change (5 - 1) with 4 in He'. by rewrite H4 in He'.
  - intros d' m k Hd' Hm%king_ray_sound Hto Hk.
    apply ray_move_to in Hm as (k' & Hk' & Hto' & Hek & Hcase).
    rewrite Hto in Hto'.
    destruct (ray_inj pos d' d' k k' Hd' Hd') as [_ <-]; [done|done|done|].
    destruct Hcase as [[_ Hfree]|(_ & _ & (e & He & Hne) & Hfree)].
    + split.
      * intros j Hj. destruct (decide (j = k)) as [->|]; [by rewrite Hek|].
        by rewrite Hfree by lia.
      * intros i j Hij Hjk. left. apply Hfree. lia.
    + split.
      * intros j Hj. destruct (decide (j = k)) as [->|]; [by rewrite Hek|].
        destruct (decide (j = k - 1)) as [->|].
        -- rewrite He. simpl. by apply bool_decide_eq_false_2.
        -- by rewrite Hfree by lia.
      * intros i j Hij Hjk. left. apply Hfree. lia.
Qed.

Lemma flying_king_reach_witness :
  captureTo (mkPos 0 1) (ray (mkPos 0 1) (1, 1) 4) (ray (mkPos 0 1) (1, 1) 3)
    ∈ getValidMoves kingBoard Red None ∧
  ∀ m, m ∈ getValidMoves kingBoard Red None →
       from m = mkPos 0 1 → to m ≠ ray (mkPos 0 1) (1, 1) 5.
Proof.
  apply (flying_king_reach kingBoard Red (mkPos 0 1) (1, 1)).
  split; [apply wf_boardb_spec; reflexivity|].
  split; [reflexivity|].
  split; [apply elem_of_king_dirs; simpl; lia|].
  repeat split. by exists (mkPiece Black Man).
Defined.

Example kingBoard_moves :
  getValidMoves kingBoard Red None =
    [captureTo (mkPos 0 1) (mkPos 4 5) (mkPos 3 4)] ∧
  king_ray kingBoard (mkPos 0 1) Red (1, 1) =
    [slide (mkPos 0 1) 1 2; slide (mkPos 0 1) 2 3;
     captureTo (mkPos 0 1) (mkPos 4 5) (mkPos 3 4)].
Proof. by vm_compute. Qed.

(** A second piece behind the captured one, two squares on: the landing
    square between them is still the only one. An own piece on the way:
    the ray ends in front of it. *)
Example kingBoard_obstructed :
  king_ray kingBoardBlocked (mkPos 0 1) Red (1, 1) =
    [slide (mkPos 0 1) 1 2; slide (mkPos 0 1) 2 3;
     captureTo (mkPos 0 1) (mkPos 4 5) (mkPos 3 4)] ∧
  king_ray kingBoardOwn (mkPos 0 1) Red (1, 1) = [slide (mkPos 0 1) 1 2].
Proof. by vm_compute. Qed.

(** ** Counting the pieces of a board *)

Lemma sum_list_insert {A} (f : A → nat) (l : list A) i x v :
  l !! i = Some x →
  (sum_list (f <$> <[i := v]> l) + f x = sum_list (f <$> l) + f v)%nat.
Proof.
  revert i. induction l as [|y l IH]; intros [|i] Hi; simplify_eq/=; [lia|].
  specialize (IH i Hi). lia.
Qed.

Lemma rowCount_le rw : (rowCount rw <= length rw)%nat.
Proof.
  unfold rowCount. induction rw as [|[?|] rw IH]; csimpl; lia.
Qed.

Lemma pieceCount_le b : wf_board b → (pieceCount b <= 64)%nat.
Proof.
  intros [Hlen Hrows]. unfold pieceCount.
  assert (sum_list (rowCount <$> b) <= 8 * length b)%nat; [|lia].
  clear Hlen. induction Hrows as [|rw b Hrw _ IH]; csimpl; [lia|].
  pose proof (rowCount_le rw). lia.
Qed.

Lemma pieceCount_set_sq b r c v :
  wf_board b → isValidPos r c = true →
  (pieceCount (set_sq b r c v) + occ (sq b r c) = pieceCount b + occ v)%nat.
Proof.
  intros Hwf [Hr Hc]%isValidPos_spec.
  destruct (wf_row b r Hwf Hr) as (rw & Hrw & Hlen).
  destruct (lookup_lt_is_Some_2 rw (Z.to_nat c)) as [x Hx]; [lia|].
  unfold sq, set_sq.
  replace ((0 <=? r) && (0 <=? c)) with true by (symmetry; apply andb_true_iff; lia).
  rewrite Hrw, Hx. unfold pieceCount.
  pose proof (sum_list_insert rowCount b _ _ (<[Z.to_nat c := v]> rw) Hrw) as Hb.
  pose proof (sum_list_insert occ rw _ _ v Hx) as Hrow.
  fold (rowCount (<[Z.to_nat c := v]> rw)) in Hrow. fold (rowCount rw) in Hrow.
  lia.
Qed.

Lemma pos_eq_dec_rc (a b : Position) :
  a ≠ b → row a ≠ row b ∨ col a ≠ col b.
Proof.
  destruct a as [r c], b as [r' c']; simpl. intros Hne.
  destruct (decide (r = r')) as [->|]; [|by left].
  right. intros ->. by apply Hne.
Qed.

Lemma at_sq_set_ne b pos v pos' :
  pos ≠ pos' → at_sq (set_sq b (row pos) (col pos) v) pos' = at_sq b pos'.
Proof. intros Hne%pos_eq_dec_rc. by apply sq_set_sq_ne. Qed.

(** A well-shaped move on its board: the call returns; a slide keeps the
    number of pieces and a capture takes exactly one away. *)
Lemma executeMove_legal b p m :
  wf_board b → legal_shape b p m →
  ∃ nb pr, executeMove b m = Some (nb, pr) ∧ wf_board nb ∧
    pieceCount nb = (pieceCount b - (if isCapture m then 1 else 0))%nat ∧
    (isCapture m = true → (0 < pieceCount b)%nat).
Proof.
  intros Hwf (Hvf & Hown & Hvt & Het & Hcap).
  destruct (at_sq b (from m)) as [piece|] eqn:Hp; [|done].
  unfold at_sq in Hp. rewrite (executeMove_Some _ _ _ Hp).
  eexists _, _. split; [done|].
  set (b1 := set_sq b (row (to m)) (col (to m)) _).
  assert (wf_board b1) as Hwf1 by by apply wf_set_sq.
  assert (from m ≠ to m) as Hft.
  { intros Heq. rewrite <- Heq in Het. unfold at_sq in Het. congruence. }
  pose proof (pieceCount_set_sq b _ _ (Some (movedPiece piece (row (to m)))) Hwf Hvt)
    as Hc1.
  fold b1 in Hc1. fold (at_sq b (to m)) in Hc1. rewrite Het in Hc1.
  set (b2 := set_sq b1 (row (from m)) (col (from m)) None).
  assert (wf_board b2) as Hwf2 by by apply wf_set_sq.
  pose proof (pieceCount_set_sq b1 _ _ None Hwf1 Hvf) as Hc2.
  fold b2 in Hc2. fold (at_sq b1 (from m)) in Hc2.
  assert (at_sq b1 (from m) = Some piece) as Hf1.
  { unfold b1. rewrite at_sq_set_ne by done. done. }
  rewrite Hf1 in Hc2. simpl in Hc1, Hc2.
  destruct (capturedPiece m) as [cp|] eqn:Hcp.
  - destruct Hcap as (-> & Hvc & e & He & Hne).
    assert (cp ≠ to m) as Hct by (intros ->; congruence).
    assert (cp ≠ from m) as Hcf.
    { intros ->. unfold at_sq in He. rewrite Hp in He. injection He as ->.
      simpl in Hown. by apply bool_decide_eq_true in Hown. }
    pose proof (pieceCount_set_sq b2 _ _ None Hwf2 Hvc) as Hc3.
    fold (at_sq b2 cp) in Hc3.
    assert (at_sq b2 cp = Some e) as Hf2.
    { unfold b2, b1. rewrite !at_sq_set_ne by done. done. }
    rewrite Hf2 in Hc3. simpl in Hc3.
    cbv zeta. fold b2.
    split; [by apply wf_set_sq|]. split; [lia|]. intros _. lia.
  - rewrite Hcap. cbv zeta. fold b2. split; [done|]. split; [lia|done].
Qed.

Lemma chainContinues_capture nb cur m pr :
  chainContinues nb cur m pr = true → isCapture m = true.
Proof. unfold chainContinues. by destruct (isCapture m). Qed.

(** ** The search: more fuel never changes a result *)

Section SearchMono.

Variables rec1 rec2 : Board → Z → num → num → bool → option Position → outcome num.

Hypothesis rec_mono : ∀ nb d a b' mx ap v,
  rec1 nb d a b' mx ap = Done v → rec2 nb d a b' mx ap = Done v.

Lemma searchChild_mono board depth alpha beta mx cur m v :
  searchChild rec1 board depth alpha beta mx cur m = Done v →
  searchChild rec2 board depth alpha beta mx cur m = Done v.
Proof.
  unfold searchChild. destruct (executeMove board m) as [[nb pr]|]; [|done].
  destruct (chainContinues nb cur m pr); apply rec_mono.
Qed.

Lemma maxLoop_mono board depth cur moves maxEval alpha beta v :
  maxLoop rec1 board depth cur moves maxEval alpha beta = Done v →
  maxLoop rec2 board depth cur moves maxEval alpha beta = Done v.
Proof.
  revert maxEval alpha. induction moves as [|m moves IH]; intros maxEval alpha;
    simpl; [done|].
  destruct (searchChild rec1 board depth alpha beta true cur m) as [e| |] eqn:Hc;
    [|done|done].
  rewrite (searchChild_mono _ _ _ _ _ _ _ _ Hc).
  destruct (num_le beta (num_max alpha e)); [done|apply IH].
Qed.

Lemma minLoop_mono board depth cur moves minEval alpha beta v :
  minLoop rec1 board depth cur moves minEval alpha beta = Done v →
  minLoop rec2 board depth cur moves minEval alpha beta = Done v.
Proof.
  revert minEval beta. induction moves as [|m moves IH]; intros minEval beta;
    simpl; [done|].
  destruct (searchChild rec1 board depth alpha beta false cur m) as [e| |] eqn:Hc;
    [|done|done].
  rewrite (searchChild_mono _ _ _ _ _ _ _ _ Hc).
  destruct (num_le (num_min beta e) alpha); [done|apply IH].
Qed.

Lemma rootLoop_mono board depth bot moves best maxEval v :
  rootLoop rec1 board depth bot moves best maxEval = Done v →
  rootLoop rec2 board depth bot moves best maxEval = Done v.
Proof.
  revert best maxEval. induction moves as [|m moves IH]; intros best maxEval;
    simpl; [done|].
  destruct (searchChild rec1 board depth NegInf PosInf true bot m) as [e| |] eqn:Hc;
    [|done|done].
  rewrite (searchChild_mono _ _ _ _ _ _ _ _ Hc).
  destruct (num_gt e maxEval); apply IH.
Qed.

End SearchMono.

Lemma minimax_S fuel board depth alpha beta mx p ap :
  minimax (S fuel) board depth alpha beta mx p ap =
    if (depth =? 0) || truthy (checkWinner board)
    then Done (Fin (evaluateBoard board p))
    else
      let cur := if mx then p else otherPlayer p in
      let validMoves := getValidMoves board cur ap in
      if Z.of_nat (length validMoves) =? 0 then
        Done (Fin (if mx then - SCORES_WIN else SCORES_WIN))
      else
        let rec := λ nb d a b' mx' ap', minimax fuel nb d a b' mx' p ap' in
        if mx
        then maxLoop rec board depth cur validMoves NegInf alpha beta
        else minLoop rec board depth cur validMoves PosInf alpha beta.
Proof. done. Qed.

Lemma minimax_fuel_mono fuel fuel' board depth alpha beta mx p ap v :
  (fuel <= fuel')%nat →
  minimax fuel board depth alpha beta mx p ap = Done v →
  minimax fuel' board depth alpha beta mx p ap = Done v.
Proof.
  revert fuel' board depth alpha beta mx ap v.
  induction fuel as [|fuel IH]; intros fuel' board depth alpha beta mx ap v Hle;
    [done|].
  destruct fuel' as [|fuel']; [lia|].
  rewrite !minimax_S.
  destruct ((depth =? 0) || truthy (checkWinner board)); [done|].
  cbv zeta.
  destruct (Z.of_nat (length _) =? 0); [done|].
  assert (∀ nb d a b' mx' ap' v',
            minimax fuel nb d a b' mx' p ap' = Done v' →
            minimax fuel' nb d a b' mx' p ap' = Done v') as Hrec.
  { intros. apply (IH fuel'); [lia|done]. }
  destruct mx.
  - by apply maxLoop_mono.
  - by apply minLoop_mono.
Qed.

(** ** The search terminates *)

Lemma num_max_fin a z : a ≠ PosInf → is_fin (num_max a (Fin z)).
Proof. destruct a; unfold num_max; simpl; try done. by destruct (_ <=? _). Qed.

Lemma num_min_fin a z : a ≠ NegInf → is_fin (num_min a (Fin z)).
Proof. destruct a; unfold num_min; simpl; try done. by destruct (_ <=? _). Qed.

Lemma is_fin_inv x : is_fin x → ∃ z, x = Fin z.
Proof. destruct x; try done. by eexists. Qed.

Section SearchTotal.

Variable rec : Board → Z → num → num → bool → option Position → outcome num.
Variables (board : Board) (depth : Z) (cur : Player) (mx : bool).
Variable moves : list Move.

Hypothesis child_total : ∀ m alpha beta,
  m ∈ moves → ∃ z, searchChild rec board depth alpha beta mx cur m = Done (Fin z).

Lemma maxLoop_total_aux ms maxEval alpha beta :
  mx = true → ms ⊆ moves →
  is_fin maxEval ∨ (maxEval = NegInf ∧ ms ≠ []) →
  ∃ z, maxLoop rec board depth cur ms maxEval alpha beta = Done (Fin z).
Proof.
  intros ->. revert maxEval alpha.
  induction ms as [|m ms IH]; intros maxEval alpha Hsub Hinit; simpl.
  - destruct Hinit as [Hfin|[_ ?]]; [|done]. apply is_fin_inv in Hfin as [z ->].
    by exists z.
  - destruct (child_total m alpha beta) as [z ->]; [apply Hsub; left|].
    assert (is_fin (num_max maxEval (Fin z))) as Hfin.
    { apply num_max_fin. destruct Hinit as [Hf|[-> _]]; [|done].
      by destruct maxEval. }
    destruct (num_le beta (num_max alpha (Fin z))).
    + apply is_fin_inv in Hfin as [z' ->]. by exists z'.
    + apply IH; [|by left]. intros x Hx. apply Hsub. by right.
Qed.

Lemma minLoop_total_aux ms minEval alpha beta :
  mx = false → ms ⊆ moves →
  is_fin minEval ∨ (minEval = PosInf ∧ ms ≠ []) →
  ∃ z, minLoop rec board depth cur ms minEval alpha beta = Done (Fin z).
Proof.
  intros ->. revert minEval beta.
  induction ms as [|m ms IH]; intros minEval beta Hsub Hinit; simpl.
  - destruct Hinit as [Hfin|[_ ?]]; [|done]. apply is_fin_inv in Hfin as [z ->].
    by exists z.
  - destruct (child_total m alpha beta) as [z ->]; [apply Hsub; left|].
    assert (is_fin (num_min minEval (Fin z))) as Hfin.
    { apply num_min_fin. destruct Hinit as [Hf|[-> _]]; [|done].
      by destruct minEval. }
    destruct (num_le (num_min beta (Fin z)) alpha).
    + apply is_fin_inv in Hfin as [z' ->]. by exists z'.
    + apply IH; [|by left]. intros x Hx. apply Hsub. by right.
Qed.

End SearchTotal.

(** One candidate move of a node whose children all fit the budget [n]. *)
Lemma searchChild_total n p board depth alpha beta mx cur m :
  (∀ b d a b' mx' ap,
     wf_board b → 0 <= d → active_ok ap → (searchBound d b <= n)%nat →
     ∃ z, minimax n b d a b' mx' p ap = Done (Fin z)) →
  wf_board board → 1 <= depth → (searchBound depth board <= S n)%nat →
  legal_shape board cur m →
  ∃ z, searchChild (λ nb d a b' mx' ap', minimax n nb d a b' mx' p ap')
         board depth alpha beta mx cur m = Done (Fin z).
Proof.
  intros IH Hwf Hdepth Hbound Hlegal.
  destruct (executeMove_legal board cur m Hwf Hlegal)
    as (nb & pr & Hex & Hwfnb & Hcount & Hpos).
  unfold searchChild. rewrite Hex.
  pose proof (pieceCount_le nb Hwfnb) as Hle.
  destruct (chainContinues nb cur m pr) eqn:Hchain.
  - apply chainContinues_capture in Hchain.
    rewrite Hchain in Hcount. specialize (Hpos Hchain).
    apply IH; [done|lia| |].
    + destruct Hlegal as (_ & _ & Hto & _). done.
    + unfold searchBound in *. lia.
  - apply IH; [done|lia|done|]. unfold searchBound in *. lia.
Qed.

Lemma minimax_total n p :
  ∀ b depth alpha beta mx ap,
    wf_board b → 0 <= depth → active_ok ap → (searchBound depth b <= n)%nat →
    ∃ z, minimax n b depth alpha beta mx p ap = Done (Fin z).
Proof.
  induction n as [|n IH]; intros b depth alpha beta mx ap Hwf Hdepth Hap Hbound.
  { unfold searchBound in Hbound. lia. }
  rewrite minimax_S.
  destruct (depth =? 0) eqn:Hd0; simpl; [by eexists|].
  destruct (truthy (checkWinner b)); [by eexists|].
  apply Z.eqb_neq in Hd0.
  destruct (Z.of_nat (length _) =? 0) eqn:Hlen; [by eexists|].
  assert (getValidMoves b (if mx then p else otherPlayer p) ap ≠ []) as Hne.
  { intros Hnil. rewrite Hnil in Hlen. done. }
  assert (∀ m alpha' beta',
    m ∈ getValidMoves b (if mx then p else otherPlayer p) ap →
    ∃ z, searchChild (λ nb d a b' mx' ap', minimax n nb d a b' mx' p ap')
           b depth alpha' beta' mx (if mx then p else otherPlayer p) m
         = Done (Fin z)) as Hchild.
  { intros m alpha' beta' Hm.
    apply searchChild_total; [done|done|lia|done|].
    by apply (getValidMoves_legal b _ ap). }
  destruct mx.
  - eapply maxLoop_total_aux; [apply Hchild|done|done|by right].
  - eapply minLoop_total_aux; [apply Hchild|done|done|by right].
Qed.

(** C6. On an 8x8 board, with a depth that is not negative (and an active
    piece, if any, on the board), [minimax] terminates: with any budget
    from [searchBound depth b] on, the model returns one and the same finite
    score. The budget orders calls by depth and then by number of pieces: a
    call that keeps the depth is made only for a capture, which leaves fewer
    pieces on the board, and every other call lowers the depth. *)
Theorem minimax_terminates (b : Board) (depth : Z) (alpha beta : num)
    (mx : bool) (p : Player) (ap : option Position) :
  wf_board b → 0 <= depth → active_ok ap →
  (∃ z, ∀ fuel, (searchBound depth b <= fuel)%nat →
          minimax fuel b depth alpha beta mx p ap = Done (Fin z)) ∧
  (∀ m nb pr,
     m ∈ getValidMoves b (if mx then p else otherPlayer p) ap →
     executeMove b m = Some (nb, pr) →
     (chainContinues nb (if mx then p else otherPlayer p) m pr = true →
      isCapture m = true ∧ (pieceCount nb < pieceCount b)%nat ∧
      (searchBound depth nb < searchBound depth b)%nat) ∧
     (1 <= depth → (searchBound (depth - 1) nb < searchBound depth b)%nat)).
Proof.
  intros Hwf Hdepth Hap. split.
  - destruct (minimax_total (searchBound depth b) p b depth alpha beta mx ap)
      as [z Hz]; [done|done|done|done|].
    exists z. intros fuel Hfuel. by apply (minimax_fuel_mono (searchBound depth b)).
  - intros m nb pr Hm Hex.
    pose proof (getValidMoves_legal b _ ap m Hap Hm) as Hlegal.
    destruct (executeMove_legal b _ m Hwf Hlegal)
      as (nb' & pr' & Hex' & Hwfnb & Hcount & Hpos).
    rewrite Hex in Hex'. injection Hex' as <- <-.
    pose proof (pieceCount_le nb Hwfnb) as Hle.
    split.
    + intros Hchain%chainContinues_capture. rewrite Hchain in Hcount.
      specialize (Hpos Hchain). unfold searchBound. split; [done|]. lia.
    + intros Hd. unfold searchBound. lia.
Qed.

Lemma minimax_terminates_witness :
  (∃ z, ∀ fuel, (searchBound 2 createInitialBoard <= fuel)%nat →
          minimax fuel createInitialBoard 2 NegInf PosInf true Black None
          = Done (Fin z)) ∧
  (∀ m nb pr,
     m ∈ getValidMoves createInitialBoard Black None →
     executeMove createInitialBoard m = Some (nb, pr) →
     (chainContinues nb Black m pr = true →
      isCapture m = true ∧ (pieceCount nb < pieceCount createInitialBoard)%nat ∧
      (searchBound 2 nb < searchBound 2 createInitialBoard)%nat) ∧
     (1 <= 2 → (searchBound (2 - 1) nb < searchBound 2 createInitialBoard)%nat)).
Proof.
  apply (minimax_terminates createInitialBoard 2 NegInf PosInf true Black None).
  - apply wf_boardb_spec. reflexivity.
  - lia.
  - exact I.
Defined.

Example minimax_initial :
  minimax (searchBound 2 createInitialBoard) createInitialBoard 2
    NegInf PosInf true Black None = Done (Fin 0).
Proof. by vm_compute. Qed.

(** A double jump is searched without spending depth: at depth 1 the second
    capture is still explored, and three nested calls are needed. *)
Example minimax_chain :
  getValidMoves chainBoard Red None = [capture (mkPos 5 3) 3 1 (mkPos 4 2)] ∧
  minimax 2 chainBoard 1 NegInf PosInf true Red None = OutOfFuel ∧
  minimax 3 chainBoard 1 NegInf PosInf true Red None = Done (Fin 10000).
Proof. by vm_compute. Qed.

(** ** The bot *)

Lemma rootLoop_elem rec board depth bot moves best maxEval m :
  rootLoop rec board depth bot moves best maxEval = Done m →
  m = best ∨ m ∈ moves.
Proof.
  revert best maxEval. induction moves as [|x moves IH]; intros best maxEval; simpl.
  - intros [= <-]. by left.
  - destruct (searchChild rec board depth NegInf PosInf true bot x) as [e| |];
      [|done|done].
    destruct (num_gt e maxEval); intros [->|Hm]%IH.
    + right. apply list_elem_of_here.
    + right. by apply list_elem_of_further.
    + by left.
    + right. by apply list_elem_of_further.
Qed.

Lemma rootLoop_total rec board depth bot moves best maxEval :
  (∀ m, m ∈ moves →
     ∃ z, searchChild rec board depth NegInf PosInf true bot m = Done (Fin z)) →
  ∃ m, rootLoop rec board depth bot moves best maxEval = Done m.
Proof.
  revert best maxEval. induction moves as [|x moves IH]; intros best maxEval Hc;
    simpl; [by eexists|].
  destruct (Hc x) as [z ->]; [apply list_elem_of_here|].
  destruct (num_gt (Fin z) maxEval); apply IH; intros m Hm; apply Hc;
    by apply list_elem_of_further.
Qed.

Lemma random_ok_pickFirst : random_ok pickFirst.
Proof. split; simpl; [lia|done]. Qed.

Lemma random_ok_pickLast : random_ok pickLast.
Proof. split; simpl; [lia|]. intros l. apply reverse_Permutation. Qed.

(** C8, as stated, fails for [getBotMove]: the same board, player,
    difficulty and active piece give different moves under different draws of
    [Math.random], at Easy and at Medium alike. *)
Lemma getBotMove_not_deterministic :
  random_ok pickFirst ∧ random_ok pickLast ∧
  getBotMove pickFirst (botBound createInitialBoard) createInitialBoard Black Easy None
    ≠ getBotMove pickLast (botBound createInitialBoard) createInitialBoard Black Easy None ∧
  getBotMove pickFirst (botBound createInitialBoard) createInitialBoard Black Medium None
    ≠ getBotMove pickLast (botBound createInitialBoard) createInitialBoard Black Medium None.
Proof.
  split; [apply random_ok_pickFirst|]. split; [apply random_ok_pickLast|].
  split; by vm_compute.
Qed.

Lemma getBotMove_draws rnd1 rnd2 fuel b p difficulty ap :
  randomIndex rnd1 (length (getValidMoves b p ap)) =
    randomIndex rnd2 (length (getValidMoves b p ap)) →
  shuffle rnd1 (getValidMoves b p ap) = shuffle rnd2 (getValidMoves b p ap) →
  getBotMove rnd1 fuel b p difficulty ap = getBotMove rnd2 fuel b p difficulty ap.
Proof.
  intros Hidx Hshuffle. unfold getBotMove.
  destruct (getValidMoves b p ap) as [|first rest] eqn:Hvm; [done|].
  destruct difficulty; by rewrite ?Hidx, ?Hshuffle.
Qed.

Lemma getBotMove_total rnd b p difficulty ap :
  wf_board b → active_ok ap → random_ok rnd →
  ∃ r, (∀ fuel, (botBound b <= fuel)%nat →
          getBotMove rnd fuel b p difficulty ap = Done r) ∧
       (r = None ↔ getValidMoves b p ap = []) ∧
       (∀ m, r = Some m → m ∈ getValidMoves b p ap).
Proof.
  intros Hwf Hap [Hidx Hperm]. unfold getBotMove.
  destruct (getValidMoves b p ap) as [|first rest] eqn:Hvm.
  { exists None. by repeat split. }
  set (vm := first :: rest) in *.
  assert (difficulty = Easy ∨ difficulty ≠ Easy) as [-> | Hsearch]
    by (destruct difficulty; auto).
  - destruct (lookup_lt_is_Some_2 vm (randomIndex rnd (length vm))) as [m Hm].
    { apply Hidx. simpl. lia. }
    exists (Some m). split; [by rewrite Hm|]. split; [done|].
    intros m' [= <-]. by eapply list_elem_of_lookup_2.
  - set (depth := if bool_decide (difficulty = Medium) then 2 else 4).
    assert (1 <= depth <= 4) as Hdepth by (unfold depth; case_bool_decide; lia).
    assert (∀ fuel m, (botBound b <= fuel)%nat → m ∈ shuffle rnd vm →
      ∃ z, searchChild (λ nb d a b' mx ap', minimax fuel nb d a b' mx p ap')
             b depth NegInf PosInf true p m = Done (Fin z)) as Hchild.
    { intros fuel m Hfuel Hm. rewrite Hperm in Hm.
      apply searchChild_total; [apply minimax_total|done|lia| |].
      - unfold botBound, searchBound in *. lia.
      - apply (getValidMoves_legal b p ap); [done|by rewrite Hvm]. }
    destruct (rootLoop_total
                (λ nb d a b' mx ap', minimax (botBound b) nb d a b' mx p ap')
                b depth p (shuffle rnd vm) first NegInf) as [m Hm].
    { intros m Hm. by apply Hchild. }
    exists (Some m).
    assert (∀ fuel, (botBound b <= fuel)%nat →
      rootLoop (λ nb d a b' mx ap', minimax fuel nb d a b' mx p ap')
        b depth p (shuffle rnd vm) first NegInf = Done m) as Hall.
    { intros fuel Hfuel. eapply rootLoop_mono; [|apply Hm].
      intros. by eapply minimax_fuel_mono. }
    split.
    + intros fuel Hfuel. specialize (Hall fuel Hfuel). fold depth.
      destruct difficulty; [done| |]; by rewrite Hall.
    + split; [done|]. intros m' [= <-].
      apply rootLoop_elem in Hm as [-> |Hm]; [apply list_elem_of_here|].
      by rewrite Hperm in Hm.
Qed.

(** C8, amended. [getBotMove] is a function of its arguments and of the
    values drawn from [Math.random]: two calls with the same board, player,
    difficulty and active piece that draw the same index and the same shuffled
    order return the same result. Whatever is drawn, on an 8x8 board the call
    returns, it returns no move exactly when there is no legal move, and a
    move it returns is one of the legal moves. *)
Theorem getBotMove_deterministic_in_draws (rnd1 rnd2 : RandomSource)
    (b : Board) (p : Player) (difficulty : Difficulty) (ap : option Position) :
  wf_board b → active_ok ap → random_ok rnd1 → random_ok rnd2 →
  (randomIndex rnd1 (length (getValidMoves b p ap)) =
     randomIndex rnd2 (length (getValidMoves b p ap)) →
   shuffle rnd1 (getValidMoves b p ap) = shuffle rnd2 (getValidMoves b p ap) →
   ∀ fuel, getBotMove rnd1 fuel b p difficulty ap
           = getBotMove rnd2 fuel b p difficulty ap) ∧
  (∃ r1 r2,
     (∀ fuel, (botBound b <= fuel)%nat →
        getBotMove rnd1 fuel b p difficulty ap = Done r1 ∧
        getBotMove rnd2 fuel b p difficulty ap = Done r2) ∧
     (r1 = None ↔ getValidMoves b p ap = []) ∧
     (r2 = None ↔ getValidMoves b p ap = []) ∧
     (∀ m, r1 = Some m ∨ r2 = Some m → m ∈ getValidMoves b p ap)).
Proof.
  intros Hwf Hap Hok1 Hok2. split.
  - intros Hidx Hshuffle fuel. by apply getBotMove_draws.
  - destruct (getBotMove_total rnd1 b p difficulty ap Hwf Hap Hok1)
      as (r1 & Hr1 & Hn1 & Hm1).
    destruct (getBotMove_total rnd2 b p difficulty ap Hwf Hap Hok2)
      as (r2 & Hr2 & Hn2 & Hm2).
    exists r1, r2. split; [|split; [done|split; [done|]]].
    + intros fuel Hfuel. split; [by apply Hr1|by apply Hr2].
    + intros m [H|H]; [by apply Hm1|by apply Hm2].
Qed.

Lemma getBotMove_deterministic_in_draws_witness :
  (randomIndex pickFirst (length (getValidMoves createInitialBoard Black None)) =
     randomIndex pickLast (length (getValidMoves createInitialBoard Black None)) →
   shuffle pickFirst (getValidMoves createInitialBoard Black None)
     = shuffle pickLast (getValidMoves createInitialBoard Black None) →
   ∀ fuel, getBotMove pickFirst fuel createInitialBoard Black Hard None
           = getBotMove pickLast fuel createInitialBoard Black Hard None) ∧
  (∃ r1 r2,
     (∀ fuel, (botBound createInitialBoard <= fuel)%nat →
        getBotMove pickFirst fuel createInitialBoard Black Hard None = Done r1 ∧
        getBotMove pickLast fuel createInitialBoard Black Hard None = Done r2) ∧
     (r1 = None ↔ getValidMoves createInitialBoard Black None = []) ∧
     (r2 = None ↔ getValidMoves createInitialBoard Black None = []) ∧
     (∀ m, r1 = Some m ∨ r2 = Some m →
           m ∈ getValidMoves createInitialBoard Black None)).
Proof.
  apply (getBotMove_deterministic_in_draws pickFirst pickLast
           createInitialBoard Black Hard None).
  - apply wf_boardb_spec. reflexivity.
  - exact I.
  - apply random_ok_pickFirst.
  - apply random_ok_pickLast.
Defined.

(** ** [executeMove] on the object store *)

Lemma readCell_mono ps ps' cell x :
  ps `prefix_of` ps' → readCell ps cell = Some x → readCell ps' cell = Some x.
Proof.
  intros Hpre. destruct cell as [l|]; simpl; [|done].
  destruct (ps !! l) as [p|] eqn:Hl; [|done].
  by rewrite (prefix_lookup_Some _ _ _ _ Hl Hpre).
Qed.

Lemma readCells_mono ps ps' rw cells :
  ps `prefix_of` ps' →
  mapM (readCell ps) rw = Some cells → mapM (readCell ps') rw = Some cells.
Proof.
  intros Hpre. rewrite !mapM_Some. intros H.
  eapply Forall2_impl; [exact H|]. intros cell x. by apply readCell_mono.
Qed.

Lemma readRow_extends h h' ra cells :
  extends h h' → readRow h ra = Some cells → readRow h' ra = Some cells.
Proof.
  intros (Hp & Hr & _). unfold readRow.
  destruct (rowArrs h !! ra) as [rw|] eqn:Hrw; [|done].
  rewrite (prefix_lookup_Some _ _ _ _ Hrw Hr). by apply readCells_mono.
Qed.

Lemma readRows_extends h h' ras rows :
  extends h h' →
  mapM (readRow h) ras = Some rows → mapM (readRow h') ras = Some rows.
Proof.
  intros Hext. rewrite !mapM_Some. intros H.
  eapply Forall2_impl; [exact H|]. intros ra x. by apply readRow_extends.
Qed.

Lemma readBoard_extends h h' br b :
  extends h h' → readBoard h br = Some b → readBoard h' br = Some b.
Proof.
  intros Hext. unfold readBoard.
  destruct (boardArrs h !! br) as [ras|] eqn:Hras; [|done].
  destruct Hext as (Hp & Hr & Hb).
  rewrite (prefix_lookup_Some _ _ _ _ Hras Hb). by apply readRows_extends.
Qed.

Lemma extends_trans h1 h2 h3 : extends h1 h2 → extends h2 h3 → extends h1 h3.
Proof.
  intros (? & ? & ?) (? & ? & ?). repeat split; by etrans.
Qed.

Lemma prefix_insert_ge {A} (l1 l2 : list A) i x :
  l1 `prefix_of` l2 → (length l1 <= i)%nat → l1 `prefix_of` <[i := x]> l2.
Proof.
  intros [k ->] Hi. rewrite insert_app_r_alt by done. by apply prefix_app_r.
Qed.

(** Copying a row appends the copies and leaves a row that reads the same. *)
Lemma copyRow_spec ps rw cells :
  mapM (readCell ps) rw = Some cells →
  ∃ ps' rw', copyRow ps rw = Some (ps', rw') ∧
    ps `prefix_of` ps' ∧
    mapM (readCell ps') rw' = Some cells ∧
    ∀ l, Some l ∈ rw' → (length ps <= l)%nat.
Proof.
  revert ps cells. induction rw as [|cell rw IH]; intros ps cells Hread.
  - injection Hread as <-. exists ps, []. repeat split; try done.
    intros l Hl. by apply not_elem_of_nil in Hl.
  - apply mapM_Some in Hread. inversion Hread as [|? x ? cells' Hcell Hrest]; subst.
    apply mapM_Some in Hrest.
    destruct cell as [l|]; simpl in Hcell.
    + destruct (ps !! l) as [p|] eqn:Hl; [|done]. injection Hcell as <-.
      assert (ps `prefix_of` ps ++ [p]) as Hpre by by apply prefix_app_r.
      destruct (IH (ps ++ [p]) cells') as (ps' & rw' & Hcopy & Hpre' & Hread' & Hfresh).
      { by eapply readCells_mono. }
      simpl. rewrite Hl, Hcopy. exists ps', (Some (length ps) :: rw').
      split; [done|]. split; [by etrans|]. split.
      * apply mapM_Some. constructor; [|by apply mapM_Some].
        simpl. assert ((ps ++ [p]) !! length ps = Some p) as Hnew
          by by rewrite list_lookup_middle.
        by rewrite (prefix_lookup_Some _ _ _ _ Hnew Hpre').
      * intros l' [[= ->]|Hl']%elem_of_cons; [done|].
        apply Hfresh in Hl'. rewrite length_app in Hl'. simpl in Hl'. lia.
    + injection Hcell as <-.
      destruct (IH ps cells' Hrest) as (ps' & rw' & Hcopy & Hpre' & Hread' & Hfresh).
      simpl. rewrite Hcopy. exists ps', (None :: rw').
      split; [done|]. split; [done|]. split.
      * apply mapM_Some. constructor; [done|by apply mapM_Some].
      * intros l' [[=]|Hl']%elem_of_cons. by apply Hfresh.
Qed.

Lemma fresh_row_weaken h0 h h' ra :
  extends h0 h → extends h h' → fresh_row h h' ra → fresh_row h0 h' ra.
Proof.
  intros (Hp & Hr & _) _ (Hra & rw & Hrw & Hcells).
  apply prefix_length in Hp, Hr.
  split; [lia|]. exists rw. split; [done|].
  intros l Hl. apply Hcells in Hl. lia.
Qed.

Lemma fresh_row_extends h0 h h' ra :
  extends h h' → fresh_row h0 h ra → fresh_row h0 h' ra.
Proof.
  intros (_ & Hr & _) (Hra & rw & Hrw & Hcells).
  split; [done|]. exists rw. split; [|done].
  by apply (prefix_lookup_Some _ _ _ _ Hrw Hr).
Qed.

Lemma copyRows_spec h ras rows :
  mapM (readRow h) ras = Some rows →
  ∃ h1 ras', copyRows h ras = Some (h1, ras') ∧
    extends h h1 ∧ boardArrs h1 = boardArrs h ∧
    mapM (readRow h1) ras' = Some rows ∧
    Forall (fresh_row h h1) ras'.
Proof.
  revert h rows. induction ras as [|ra ras IH]; intros h rows Hread.
  - injection Hread as <-. exists h, []. repeat split; try done.
  - apply mapM_Some in Hread. inversion Hread as [|? row ? rows' Hrow Hrest]; subst.
    apply mapM_Some in Hrest.
    unfold readRow in Hrow.
    destruct (rowArrs h !! ra) as [rw|] eqn:Hrw; [|done].
    destruct (copyRow_spec _ _ _ Hrow) as (ps' & rw' & Hcopy & Hpre & Hread' & Hfresh).
    set (h1 := mkHeap ps' (rowArrs h ++ [rw']) (boardArrs h)).
    assert (extends h h1) as Hext1.
    { repeat split; simpl; [done|by apply prefix_app_r|done]. }
    destruct (IH h1 rows') as (h2 & ras' & Hcopies & Hext2 & Hboards & Hreads & Hfr).
    { by eapply readRows_extends. }
    simpl. rewrite Hrw, Hcopy. fold h1. rewrite Hcopies.
    exists h2, (length (rowArrs h) :: ras').
    assert (rowArrs h1 !! length (rowArrs h) = Some rw') as Hnew
      by (simpl; by rewrite list_lookup_middle).
    split; [done|]. split; [by eapply extends_trans|]. split; [by rewrite Hboards|].
    split.
    + apply mapM_Some. constructor; [|by apply mapM_Some].
      apply (readRow_extends h1); [done|]. unfold readRow. by rewrite Hnew.
    + constructor.
      * apply (fresh_row_extends h h1); [done|].
        split; [done|]. by exists rw'.
      * eapply Forall_impl; [exact Hfr|]. intros ra'.
        by apply fresh_row_weaken.
Qed.

Lemma fresh_board_rows h h' br :
  fresh_board h h' br ↔
  (length (boardArrs h) <= br)%nat ∧
  ∃ ras, boardArrs h' !! br = Some ras ∧ Forall (fresh_row h h') ras.
Proof.
  unfold fresh_board, fresh_row. split; intros (Hbr & ras & Hras & Hrows);
    (split; [done|]); exists ras; (split; [done|]).
  - apply Forall_forall. intros ra Hra. by apply Hrows.
  - intros ra Hra. rewrite Forall_forall in Hrows. by apply Hrows.
Qed.

Lemma deepCopy_spec h br b :
  readBoard h br = Some b →
  ∃ h1 nb, deepCopy h br = Some (h1, nb) ∧
    extends h h1 ∧ fresh_board h h1 nb ∧ readBoard h1 nb = Some b.
Proof.
  unfold readBoard, deepCopy.
  destruct (boardArrs h !! br) as [ras|] eqn:Hras; [|done].
  intros Hread.
  destruct (copyRows_spec _ _ _ Hread) as (h1 & ras' & -> & Hext & Hb & Hreads & Hfr).
  eexists _, _. split; [done|].
  set (h2 := mkHeap _ _ _).
  assert (extends h1 h2) as Hext2.
  { repeat split; simpl; [done|done|by apply prefix_app_r]. }
  assert (boardArrs h2 !! length (boardArrs h1) = Some ras') as Hnew
    by (simpl; by rewrite list_lookup_middle).
  split; [by eapply extends_trans|]. split.
  - apply fresh_board_rows. split; [by rewrite Hb|].
    exists ras'. split; [done|].
    eapply Forall_impl; [exact Hfr|]. intros ra. by apply fresh_row_extends.
  - rewrite Hnew. by apply (readRows_extends h1).
Qed.

Lemma elem_of_insert_inv {A} (l : list A) i v x :
  x ∈ <[i := v]> l → x = v ∨ x ∈ l.
Proof.
  intros (j & Hj)%list_elem_of_lookup.
  apply list_lookup_insert_Some in Hj as [(-> & -> & _)|(_ & Hj)]; [by left|].
  right. by eapply list_elem_of_lookup_2.
Qed.

(** A write into the copy touches no object of the old store. *)
Lemma setCell_frame h0 h nb r c v :
  extends h0 h → fresh_board h0 h nb → fresh_ref h0 v →
  extends h0 (setCell h nb r c v) ∧ fresh_board h0 (setCell h nb r c v) nb.
Proof.
  intros Hext Hfresh Hv. unfold setCell.
  destruct ((0 <=? r) && (0 <=? c)); [|done].
  pose proof Hfresh as (Hnb & ras & Hras & Hrows).
  rewrite Hras.
  destruct (ras !! Z.to_nat r) as [ra|] eqn:Hra; [|done].
  destruct (rowArrs h !! ra) as [rw|] eqn:Hrw; [|done].
  destruct (Hrows ra) as (Hfra & rw' & Hrw' & Hcells);
    [by eapply list_elem_of_lookup_2|].
  rewrite Hrw in Hrw'. injection Hrw' as <-.
  destruct Hext as (Hp & Hr & Hb).
  split.
  - repeat split; simpl; [done| |done]. by apply prefix_insert_ge.
  - split; [done|]. exists ras. split; [done|].
    intros ra' Hra'. destruct (Hrows ra' Hra') as (Hfra' & rw2 & Hrw2 & Hcells2).
    split; [done|]. simpl.
    destruct (decide (ra = ra')) as [<-|Hne].
    + exists (<[Z.to_nat c := v]> rw). split.
      * apply list_lookup_insert_eq. by eapply lookup_lt_Some.
      * intros l [<-|Hl]%elem_of_insert_inv; [done|by apply Hcells].
    + exists rw2. split; [by rewrite list_lookup_insert_ne|done].
Qed.

Lemma getCell_fresh h0 h nb r c l :
  fresh_board h0 h nb → getCell h nb r c = Some l →
  (length (pieceObjs h0) <= l)%nat.
Proof.
  intros (Hnb & ras & Hras & Hrows). unfold getCell.
  destruct ((0 <=? r) && (0 <=? c)); [|done].
  rewrite Hras.
  destruct (ras !! Z.to_nat r) as [ra|] eqn:Hra; [|done].
  destruct (Hrows ra) as (_ & rw & Hrw & Hcells);
    [by eapply list_elem_of_lookup_2|].
  rewrite Hrw.
  destruct (rw !! Z.to_nat c) as [cell|] eqn:Hc; [|done].
  intros ->. apply Hcells. by eapply list_elem_of_lookup_2.
Qed.

(** A square of the board value and the cell of the store it is read from. *)
Lemma readBoard_getCell h br b r c piece :
  readBoard h br = Some b → sq b r c = Some piece →
  ∃ l, getCell h br r c = Some l ∧ pieceObjs h !! l = Some piece.
Proof.
  unfold readBoard, sq, getCell.
  destruct (boardArrs h !! br) as [ras|]; [|done].
  intros Hrows%mapM_Some.
  destruct ((0 <=? r) && (0 <=? c)); [|done].
  destruct (b !! Z.to_nat r) as [row|] eqn:Hrow; [|done].
  eapply Forall2_lookup_r in Hrows as (ra & Hra & Hread); [|exact Hrow].
  rewrite Hra. unfold readRow in Hread.
  destruct (rowArrs h !! ra) as [rw|]; [|done].
  apply mapM_Some in Hread.
  destruct (row !! Z.to_nat c) as [o|] eqn:Ho; [|done].
  intros ->.
  eapply Forall2_lookup_r in Hread as (cell & Hcell & Hrc); [|exact Ho].
  rewrite Hcell. destruct cell as [l|]; simpl in Hrc; [|done].
  destruct (pieceObjs h !! l) as [p|] eqn:Hl; [|done].
  injection Hrc as ->. by exists l.
Qed.

Lemma setField_frame h0 h nb pl x :
  extends h0 h → fresh_board h0 h nb → (length (pieceObjs h0) <= pl)%nat →
  extends h0 (mkHeap (<[pl := x]> (pieceObjs h)) (rowArrs h) (boardArrs h)) ∧
  fresh_board h0 (mkHeap (<[pl := x]> (pieceObjs h)) (rowArrs h) (boardArrs h)) nb.
Proof.
  intros (Hp & Hr & Hb) Hfresh Hpl. split; [|done].
  repeat split; simpl; [|done|done]. by apply prefix_insert_ge.
Qed.

Lemma setCell_pieceObjs h nb r c v : pieceObjs (setCell h nb r c v) = pieceObjs h.
Proof. unfold setCell. by repeat case_match. Qed.

(** The frame of [executeMove]: the call succeeds on an occupied [from]
    square, every object that existed before is left as it was, and the
    board returned is built from new objects only. *)
Lemma executeMoveH_frame_aux h br b m piece :
  readBoard h br = Some b → at_sq b (from m) = Some piece →
  ∃ h' nb, executeMoveH h br m = Some (h', nb, promotes piece (row (to m))) ∧
    extends h h' ∧ fresh_board h h' nb.
Proof.
  intros Hread Hfrom. unfold executeMoveH.
  destruct (deepCopy_spec h br b Hread)
    as (h1 & nb & Hcopy & Hext1 & Hfresh1 & Hread1).
  rewrite Hcopy.
  destruct (readBoard_getCell h1 nb b _ _ piece Hread1 Hfrom) as (pl & Hget & Hpl).
  pose proof (getCell_fresh h h1 nb _ _ pl Hfresh1 Hget) as Hplfresh.
  rewrite Hget, Hpl.
  eexists _, nb. split; [reflexivity|].
  destruct (setCell_frame h h1 nb (row (to m)) (col (to m)) (Some pl))
    as [Hext2 Hfresh2]; [done|done|done|].
  destruct (setCell_frame h _ nb (row (from m)) (col (from m)) None Hext2 Hfresh2)
    as [Hext3 Hfresh3]; [done|].
  set (h3 := setCell (setCell h1 _ _ _ _) _ _ _ _) in *.
  set (h4 := match isCapture m, capturedPiece m with
             | true, Some cp => setCell h3 nb (row cp) (col cp) None
             | _, _ => h3
             end).
  assert (extends h h4 ∧ fresh_board h h4 nb) as [Hext4 Hfresh4].
  { unfold h4. destruct (isCapture m), (capturedPiece m) as [cp|]; try done.
    by apply setCell_frame. }
  destruct (promotes piece (row (to m))); [|done].
  by apply setField_frame.
Qed.

(** ** The store model computes the board of the value model *)

(** The copies of a row are different objects, allocated one after another. *)
Lemma copyRow_distinct ps rw ps' rw' :
  copyRow ps rw = Some (ps', rw') →
  (length ps <= length ps')%nat ∧
  (∀ l, Some l ∈ rw' → (length ps <= l < length ps')%nat) ∧
  (∀ i j l, rw' !! i = Some (Some l) → rw' !! j = Some (Some l) → i = j).
Proof.
  revert ps ps' rw'. induction rw as [|cell rw IH]; intros ps ps' rw'; simpl.
  - intros [= <- <-]. split; [done|]. split.
    + intros l Hl. by apply not_elem_of_nil in Hl.
    + intros i j l Hi. by rewrite lookup_nil in Hi.
  - destruct cell as [l0|].
    + destruct (ps !! l0) as [p|]; [|done].
      destruct (copyRow (ps ++ [p]) rw) as [[ps1 rw1]|] eqn:Hcopy; [|done].
      intros [= <- <-].
      destruct (IH _ _ _ Hcopy) as (Hlen & Hrange & Hinj).
      rewrite length_app in Hlen, Hrange. simpl in Hlen, Hrange.
      split; [lia|]. split.
      * intros l [[= ->]|Hl]%elem_of_cons; [lia|]. apply Hrange in Hl. lia.
      * intros [|i] [|j] l Hi Hj; simpl in Hi, Hj; [done| | |].
        -- injection Hi as <-. apply list_elem_of_lookup_2, Hrange in Hj. lia.
        -- injection Hj as <-. apply list_elem_of_lookup_2, Hrange in Hi. lia.
        -- f_equal. by eapply Hinj.
    + destruct (copyRow ps rw) as [[ps1 rw1]|] eqn:Hcopy; [|done].
      intros [= <- <-].
      destruct (IH _ _ _ Hcopy) as (Hlen & Hrange & Hinj).
      split; [done|]. split.
      * intros l [[=]|Hl]%elem_of_cons. by apply Hrange.
      * intros [|i] [|j] l Hi Hj; simpl in Hi, Hj; try done.
        f_equal. by eapply Hinj.
Qed.

Lemma copyRows_distinct h ras h1 ras' :
  copyRows h ras = Some (h1, ras') →
  (length (pieceObjs h) <= length (pieceObjs h1))%nat ∧
  rowArrs h `prefix_of` rowArrs h1 ∧
  NoDup ras' ∧
  (∀ ra, ra ∈ ras' → (length (rowArrs h) <= ra)%nat) ∧
  (∀ ra rw l, ra ∈ ras' → rowArrs h1 !! ra = Some rw → Some l ∈ rw →
     (length (pieceObjs h) <= l)%nat) ∧
  rows_inj h1 ras'.
Proof.
  revert h h1 ras'. induction ras as [|ra ras IH]; intros h h1 ras'; simpl.
  - intros [= <- <-]. split; [done|]. split; [done|]. split; [constructor|].
    split; [by intros ? ?%not_elem_of_nil|].
    split; [by intros ? ? ? ?%not_elem_of_nil|].
    intros i j ? ? ? ? ? ? ? Hi. by rewrite lookup_nil in Hi.
  - destruct (rowArrs h !! ra) as [rw|]; [|done].
    destruct (copyRow (pieceObjs h) rw) as [[ps' rw']|] eqn:Hcopy; [|done].
    set (hm := mkHeap ps' (rowArrs h ++ [rw']) (boardArrs h)).
    destruct (copyRows hm ras) as [[h2 rest']|] eqn:Hrest; [|done].
    intros [= <- <-].
    destruct (copyRow_distinct _ _ _ _ Hcopy) as (Hlen & Hrange & Hinj).
    destruct (IH _ _ _ Hrest) as (Hlen2 & Hpre2 & Hnd & Hge & Hcells & Hrinj).
    simpl in Hlen2, Hpre2, Hge, Hcells.
    rewrite length_app in Hge. simpl in Hge.
    assert (rowArrs h2 !! length (rowArrs h) = Some rw') as Hhead.
    { apply (prefix_lookup_Some (rowArrs h ++ [rw'])); [|done].
      by rewrite list_lookup_middle. }
    split; [lia|]. split; [by eapply prefix_app_l|]. split.
    { constructor; [|done]. intros Hin%Hge. lia. }
    split.
    { intros ra' [->|Hin%Hge]%elem_of_cons; lia. }
    split.
    { intros ra' rw0 l [->|Hin]%elem_of_cons Hrw0 Hl.
      - rewrite Hhead in Hrw0. injection Hrw0 as <-. apply Hrange in Hl. lia.
      - specialize (Hcells _ _ _ Hin Hrw0 Hl). lia. }
    intros [|i] [|j] rai raj rwi rwj ci cj l Hi Hrwi Hci Hj Hrwj Hcj;
      simpl in Hi, Hj.
    + injection Hi as <-. injection Hj as <-.
      rewrite Hhead in Hrwi, Hrwj. injection Hrwi as <-. injection Hrwj as <-.
      split; [done|]. by eapply Hinj.
    + exfalso. injection Hi as <-. rewrite Hhead in Hrwi. injection Hrwi as <-.
      apply list_elem_of_lookup_2, Hrange in Hci.
      apply list_elem_of_lookup_2 in Hj, Hcj.
      specialize (Hcells _ _ _ Hj Hrwj Hcj). lia.
    + exfalso. injection Hj as <-. rewrite Hhead in Hrwj. injection Hrwj as <-.
      apply list_elem_of_lookup_2, Hrange in Hcj.
      apply list_elem_of_lookup_2 in Hi, Hci.
      specialize (Hcells _ _ _ Hi Hrwi Hci). lia.
    + destruct (Hrinj i j rai raj rwi rwj ci cj l) as [-> ->]; done.
Qed.

Lemma deepCopy_distinct h br h1 nb :
  deepCopy h br = Some (h1, nb) →
  ∃ ras, boardArrs h1 !! nb = Some ras ∧ NoDup ras ∧ rows_inj h1 ras.
Proof.
  unfold deepCopy. destruct (boardArrs h !! br) as [ras0|]; [|done].
  destruct (copyRows h ras0) as [[h' ras]|] eqn:Hcopy; [|done].
  intros [= <- <-].
  destruct (copyRows_distinct _ _ _ _ Hcopy) as (_ & _ & Hnd & _ & _ & Hinj).
  exists ras. split; [simpl; by rewrite list_lookup_middle|]. by split.
Qed.

Lemma readBoard_shape h nb b ras :
  readBoard h nb = Some b → wf_board b →
  boardArrs h !! nb = Some ras → NoDup ras → board_shape h nb ras.
Proof.
  unfold readBoard. intros Hread [Hlen Hrows] Hras Hnd. rewrite Hras in Hread.
  pose proof (length_mapM _ _ _ Hread) as Hlen'.
  apply mapM_Some in Hread.
  split; [done|]. split; [lia|]. split; [done|].
  apply Forall_forall. intros ra (i & Hi)%list_elem_of_lookup.
  eapply Forall2_lookup_l in Hread as (row & Hrow & Hrd); [|exact Hi].
  unfold readRow in Hrd. destruct (rowArrs h !! ra) as [rw|]; [|done].
  exists rw. split; [done|].
  rewrite (length_mapM _ _ _ Hrd).
  by eapply (Forall_lookup_1 _ _ _ _ Hrows Hrow).
Qed.

(** Under a shape, a square of the grid is a cell of a row array. *)
Lemma getCell_shape h nb ras r c :
  board_shape h nb ras → isValidPos r c = true →
  ∃ ra rw cell, ras !! Z.to_nat r = Some ra ∧ rowArrs h !! ra = Some rw ∧
    length rw = 8%nat ∧ rw !! Z.to_nat c = Some cell ∧ getCell h nb r c = cell.
Proof.
  intros (Hras & Hlen & _ & Hrows) [Hr Hc]%isValidPos_spec.
  destruct (lookup_lt_is_Some_2 ras (Z.to_nat r)) as [ra Hra]; [lia|].
  destruct (Forall_lookup_1 _ _ _ _ Hrows Hra) as (rw & Hrw & Hlrw).
  destruct (lookup_lt_is_Some_2 rw (Z.to_nat c)) as [cell Hcell]; [lia|].
  exists ra, rw, cell. repeat split; try done.
  unfold getCell.
  replace ((0 <=? r) && (0 <=? c)) with true by (symmetry; apply andb_true_iff; lia).
  by rewrite Hras, Hra, Hrw, Hcell.
Qed.

Lemma readBoard_cell h nb b r c :
  readBoard h nb = Some b → wf_board b → isValidPos r c = true →
  readCell (pieceObjs h) (getCell h nb r c) = Some (sq b r c).
Proof.
  intros Hread Hwf Hv. pose proof Hv as [Hr Hc]%isValidPos_spec.
  destruct (wf_row b r Hwf Hr) as (row & Hrow & Hlen).
  destruct (lookup_lt_is_Some_2 row (Z.to_nat c)) as [o Ho]; [lia|].
  unfold readBoard in Hread. unfold sq, getCell.
  replace ((0 <=? r) && (0 <=? c)) with true by (symmetry; apply andb_true_iff; lia).
  rewrite Hrow, Ho.
  destruct (boardArrs h !! nb) as [ras|]; [|done].
  apply mapM_Some in Hread.
  eapply Forall2_lookup_r in Hread as (ra & Hra & Hrd); [|exact Hrow].
  rewrite Hra. unfold readRow in Hrd.
  destruct (rowArrs h !! ra) as [rw|]; [|done].
  apply mapM_Some in Hrd.
  eapply Forall2_lookup_r in Hrd as (cell & Hcell & Hrc); [|exact Ho].
  by rewrite Hcell.
Qed.

Lemma board_shape_read h nb ras b :
  board_shape h nb ras → wf_board b →
  (∀ r c, isValidPos r c = true →
     readCell (pieceObjs h) (getCell h nb r c) = Some (sq b r c)) →
  readBoard h nb = Some b.
Proof.
  intros Hshape Hwf Hcells. pose proof Hshape as (Hras & Hlen & _ & Hrows).
  unfold readBoard. rewrite Hras. apply mapM_Some.
  apply Forall2_same_length_lookup_2; [destruct Hwf; lia|].
  intros i ra row Hra Hrow.
  assert (i < 8)%nat as Hi by (apply lookup_lt_Some in Hra; lia).
  destruct (wf_row b (Z.of_nat i) Hwf) as (row' & Hrow' & Hlrow); [lia|].
  rewrite Nat2Z.id, Hrow in Hrow'. injection Hrow' as <-.
  destruct (Forall_lookup_1 _ _ _ _ Hrows Hra) as (rw & Hrw & Hlrw).
  unfold readRow. rewrite Hrw. apply mapM_Some.
  apply Forall2_same_length_lookup_2; [lia|].
  intros j cell o Hcell Ho.
  assert (j < 8)%nat as Hj by (apply lookup_lt_Some in Hcell; lia).
  specialize (Hcells (Z.of_nat i) (Z.of_nat j)).
  unfold getCell, sq in Hcells.
  replace ((0 <=? Z.of_nat i) && (0 <=? Z.of_nat j)) with true in Hcells
    by (symmetry; apply andb_true_iff; lia).
  rewrite !Nat2Z.id, Hras, Hra, Hrw, Hcell, Hrow, Ho in Hcells.
  apply Hcells, isValidPos_spec. lia.
Qed.

Lemma setCell_shape h nb ras r c v :
  board_shape h nb ras → board_shape (setCell h nb r c v) nb ras.
Proof.
  intros Hshape. pose proof Hshape as (Hras & Hlen & Hnd & Hrows).
  unfold setCell.
  destruct ((0 <=? r) && (0 <=? c)); [|done].
  rewrite Hras.
  destruct (ras !! Z.to_nat r) as [ra|]; [|done].
  destruct (rowArrs h !! ra) as [rw|] eqn:Hrw; [|done].
  split; [done|]. split; [done|]. split; [done|].
  eapply Forall_impl; [exact Hrows|]. intros ra' (rw' & Hrw' & Hl). simpl.
  destruct (decide (ra = ra')) as [<-|Hne].
  - rewrite Hrw in Hrw'. injection Hrw' as <-.
    exists (<[Z.to_nat c := v]> rw). split; [|by rewrite length_insert].
    apply list_lookup_insert_eq. by eapply lookup_lt_Some.
  - exists rw'. split; [by rewrite list_lookup_insert_ne|done].
Qed.

(** Reading a cell of the grid after a write to the grid. *)
Lemma getCell_setCell h nb ras r c v r' c' :
  board_shape h nb ras → isValidPos r c = true → isValidPos r' c' = true →
  getCell (setCell h nb r c v) nb r' c' =
    if bool_decide (r = r' ∧ c = c') then v else getCell h nb r' c'.
Proof.
  intros Hshape Hv Hv'.
  destruct (getCell_shape _ _ _ _ _ Hshape Hv) as (ra & rw & cell & Hra & Hrw & Hl & Hc & _).
  destruct (getCell_shape _ _ _ _ _ Hshape Hv')
    as (ra' & rw' & cell' & Hra' & Hrw' & Hl' & Hc' & Hget').
  pose proof Hshape as (Hras & Hlen & Hnd & Hrows).
  apply isValidPos_spec in Hv as [Hr Hcc], Hv' as [Hr' Hcc'].
  rewrite Hget'. unfold getCell, setCell.
  replace ((0 <=? r) && (0 <=? c)) with true by (symmetry; apply andb_true_iff; lia).
  replace ((0 <=? r') && (0 <=? c')) with true by (symmetry; apply andb_true_iff; lia).
  rewrite Hras, Hra, Hrw. simpl. rewrite Hras, Hra'.
  destruct (decide (r = r')) as [<-|Hne].
  - rewrite Hra in Hra'. injection Hra' as <-.
    rewrite Hrw in Hrw'. injection Hrw' as <-.
    rewrite list_lookup_insert_eq by by eapply lookup_lt_Some.
    destruct (decide (c = c')) as [<-|Hnc].
    + rewrite list_lookup_insert_eq by lia. by rewrite bool_decide_eq_true_2.
    + rewrite list_lookup_insert_ne by lia. rewrite Hc'.
      rewrite bool_decide_eq_false_2; [done|]. by intros [_ ?].
  - assert (ra ≠ ra') as Hra_ne.
    { intros <-. apply Hne.
      assert (Z.to_nat r = Z.to_nat r') by by eapply NoDup_lookup. lia. }
    rewrite list_lookup_insert_ne by done. rewrite Hrw', Hc'.
    rewrite bool_decide_eq_false_2; [done|]. by intros [? _].
Qed.

Lemma getCell_inj h nb ras r c r' c' l :
  board_shape h nb ras → rows_inj h ras →
  isValidPos r c = true → isValidPos r' c' = true →
  getCell h nb r c = Some l → getCell h nb r' c' = Some l →
  r = r' ∧ c = c'.
Proof.
  intros Hshape Hinj Hv Hv' Hg Hg'.
  destruct (getCell_shape _ _ _ _ _ Hshape Hv)
    as (ra & rw & cell & Hra & Hrw & _ & Hc & Hget).
  destruct (getCell_shape _ _ _ _ _ Hshape Hv')
    as (ra' & rw' & cell' & Hra' & Hrw' & _ & Hc' & Hget').
  rewrite Hg in Hget. rewrite Hg' in Hget'. subst cell cell'.
  apply isValidPos_spec in Hv, Hv'.
  destruct (Hinj _ _ _ _ _ _ _ _ _ Hra Hrw Hc Hra' Hrw' Hc'). lia.
Qed.

Lemma executeMove_cleared b m piece :
  sq b (row (from m)) (col (from m)) = Some piece →
  executeMove b m =
    Some (let nb := set_sq b (row (to m)) (col (to m))
                      (Some (movedPiece piece (row (to m)))) in
          let nb := set_sq nb (row (from m)) (col (from m)) None in
          match clearedSquare m with
          | Some cp => set_sq nb (row cp) (col cp) None
          | None => nb
          end,
          promotes piece (row (to m))).
Proof.
  intros H. rewrite (executeMove_Some _ _ _ H). unfold clearedSquare.
  by destruct (isCapture m), (capturedPiece m).
Qed.

Lemma readCell_moved ps pl piece toRow :
  ps !! pl = Some piece →
  readCell (if promotes piece toRow
            then <[pl := mkPiece (player piece) King]> ps else ps) (Some pl)
  = Some (Some (movedPiece piece toRow)).
Proof.
  intros Hpl. unfold movedPiece. simpl. destruct (promotes piece toRow).
  - rewrite list_lookup_insert_eq; [done|]. by eapply lookup_lt_Some.
  - by rewrite Hpl.
Qed.

Lemma readCell_other ps pl (x : Piece) (promoted : bool) cell o :
  cell ≠ Some pl → readCell ps cell = Some o →
  readCell (if promoted then <[pl := x]> ps else ps) cell = Some o.
Proof.
  intros Hne. destruct promoted; [|done].
  destruct cell as [l|]; simpl; [|done].
  rewrite list_lookup_insert_ne; [done|]. intros ->. by apply Hne.
Qed.

(** The board that the store holds after [executeMove] is the board the
    value model computes. *)
Lemma executeMoveH_refines h br b m piece :
  readBoard h br = Some b → wf_board b → move_in_bounds m →
  at_sq b (from m) = Some piece →
  ∃ h' nb b',
    executeMoveH h br m = Some (h', nb, promotes piece (row (to m))) ∧
    executeMove b m = Some (b', promotes piece (row (to m))) ∧
    readBoard h' nb = Some b'.
Proof.
  intros Hread Hwf (Hvf & Hvt & Hvc) Hfrom.
  destruct (deepCopy_spec h br b Hread)
    as (h1 & nb & Hcopy & Hext1 & Hfresh1 & Hread1).
  destruct (deepCopy_distinct _ _ _ _ Hcopy) as (ras & Hras & Hnd & Hinj).
  pose proof (readBoard_shape _ _ _ _ Hread1 Hwf Hras Hnd) as Hshape1.
  destruct (readBoard_getCell h1 nb b _ _ piece Hread1 Hfrom) as (pl & Hget & Hpl).
  unfold at_sq in Hfrom. rewrite (executeMove_cleared _ _ _ Hfrom).
  unfold executeMoveH. rewrite Hcopy, Hget, Hpl.
  eexists _, nb, _. split; [reflexivity|]. split; [reflexivity|].
  fold (clearedSquare m).
  assert (match isCapture m, capturedPiece m with
          | true, Some cp => Some cp | _, _ => None end = clearedSquare m) as Hclr
    by (unfold clearedSquare; by destruct (isCapture m), (capturedPiece m)).
  set (tr := row (to m)) in *. set (tc := col (to m)) in *.
  set (fr := row (from m)) in *. set (fc := col (from m)) in *.
  unfold pos_in_bounds in Hvf, Hvt. fold tr tc in Hvt. fold fr fc in Hvf.
  set (h2 := setCell h1 nb tr tc (Some pl)).
  set (h3 := setCell h2 nb fr fc None).
  set (b2 := set_sq b tr tc (Some (movedPiece piece tr))).
  set (b3 := set_sq b2 fr fc None).
  pose proof (setCell_shape _ _ _ tr tc (Some pl) Hshape1) as Hshape2. fold h2 in Hshape2.
  pose proof (setCell_shape _ _ _ fr fc None Hshape2) as Hshape3. fold h3 in Hshape3.
  assert (wf_board b2) as Hwf2 by by apply wf_set_sq.
  assert (wf_board b3) as Hwf3 by by apply wf_set_sq.
  set (h4 := match isCapture m, capturedPiece m with
             | true, Some cp => setCell h3 nb (row cp) (col cp) None
             | _, _ => h3
             end).
  set (b4 := match clearedSquare m with
             | Some cp => set_sq b3 (row cp) (col cp) None
             | None => b3
             end).
  assert (h4 = match clearedSquare m with
               | Some cp => setCell h3 nb (row cp) (col cp) None
               | None => h3
               end) as Hh4
    by (unfold h4, clearedSquare; by destruct (isCapture m), (capturedPiece m)).
  assert (match clearedSquare m with
          | Some cp => pos_in_bounds cp | None => True end) as Hvcl
    by (unfold clearedSquare; destruct (isCapture m); [done|exact I]).
  clearbody h4. subst h4. clear Hvc Hclr.
  (* the cells after the three writes, in terms of the copy *)
  assert (∀ r c, isValidPos r c = true →
    ∃ cell o,
      getCell (match clearedSquare m with
               | Some cp => setCell h3 nb (row cp) (col cp) None
               | None => h3 end) nb r c = cell ∧
      sq b4 r c = o ∧
      ((cell = None ∧ o = None) ∨
       (cell = Some pl ∧ o = Some (movedPiece piece tr)) ∨
       (cell = getCell h1 nb r c ∧ o = sq b r c ∧ (fr ≠ r ∨ fc ≠ c)))) as Hcells.
  { intros r c Hv. eexists _, _. split; [reflexivity|]. split; [reflexivity|].
    assert (getCell h3 nb r c = (if bool_decide (fr = r ∧ fc = c) then None
              else if bool_decide (tr = r ∧ tc = c) then Some pl
              else getCell h1 nb r c)) as Hg3.
    { unfold h3, h2.
      rewrite (getCell_setCell _ _ ras) by done.
      by rewrite (getCell_setCell _ _ ras) by done. }
    assert (sq b3 r c = (if bool_decide (fr = r ∧ fc = c) then None
              else if bool_decide (tr = r ∧ tc = c)
                   then Some (movedPiece piece tr)
              else sq b r c)) as Hs3.
    { unfold b3, b2. rewrite sq_set_sq by done. by rewrite sq_set_sq by done. }
    assert ((getCell h3 nb r c = None ∧ sq b3 r c = None) ∨
            (getCell h3 nb r c = Some pl ∧ sq b3 r c = Some (movedPiece piece tr)) ∨
            (getCell h3 nb r c = getCell h1 nb r c ∧ sq b3 r c = sq b r c ∧
             (fr ≠ r ∨ fc ≠ c))) as H3.
    { rewrite Hg3, Hs3.
      destruct (bool_decide (fr = r ∧ fc = c)) eqn:E1; [by left|].
      apply bool_decide_eq_false in E1.
      destruct (bool_decide (tr = r ∧ tc = c)); [by right; left|].
      right; right. repeat split. lia. }
    unfold b4. destruct (clearedSquare m) as [cp|]; [|done].
    rewrite (getCell_setCell _ _ ras) by done. rewrite sq_set_sq by done.
    destruct (bool_decide (row cp = r ∧ col cp = c)); [by left|done]. }
  assert (wf_board b4) as Hwf4.
  { unfold b4. destruct (clearedSquare m); [by apply wf_set_sq|done]. }
  set (h4 := match clearedSquare m with
             | Some cp => setCell h3 nb (row cp) (col cp) None
             | None => h3 end) in *.
  assert (board_shape h4 nb ras) as Hshape4.
  { unfold h4. destruct (clearedSquare m); [by apply setCell_shape|done]. }
  assert (pieceObjs h4 = pieceObjs h1) as Hps.
  { unfold h4, h3, h2. destruct (clearedSquare m);
      by rewrite !setCell_pieceObjs. }
  set (h5 := if promotes piece tr
             then mkHeap (<[pl := mkPiece (player piece) King]> (pieceObjs h4))
                         (rowArrs h4) (boardArrs h4)
             else h4).
  assert (board_shape h5 nb ras) as Hshape5
    by (unfold h5; by destruct (promotes piece tr)).
  assert (∀ r c, getCell h5 nb r c = getCell h4 nb r c) as Hg5
    by (intros; unfold h5; by destruct (promotes piece tr)).
  assert (pieceObjs h5 = if promotes piece tr
                         then <[pl := mkPiece (player piece) King]> (pieceObjs h1)
                         else pieceObjs h1) as Hps5
    by (unfold h5; rewrite <- Hps; by destruct (promotes piece tr)).
  apply (board_shape_read h5 nb ras); [done|done|].
  intros r c Hv. rewrite Hg5, Hps5.
  destruct (Hcells r c Hv) as (cell & o & -> & -> & Hcase).
  destruct Hcase as [[-> ->]|[[-> ->]|(-> & -> & Hne)]].
  - by destruct (promotes piece tr).
  - by apply readCell_moved.
  - apply readCell_other; [|by apply readBoard_cell].
    intros Hcell.
    destruct (getCell_inj h1 nb ras fr fc r c pl Hshape1 Hinj); try done. lia.
Qed.

(** C4. [executeMove] on an 8x8 board with a move within the board whose
    [from] square is occupied: the call returns the board of the value model,
    every object of the store that existed before the call is the same after
    it, so that the input board reads square for square as before, and the
    board returned is a new outer array of new row arrays holding new piece
    objects. *)
Theorem executeMove_leaves_input (h : Heap) (br : loc) (b : Board) (m : Move)
    (piece : Piece) :
  readBoard h br = Some b → wf_board b → move_in_bounds m →
  at_sq b (from m) = Some piece →
  ∃ h' nb b',
    executeMoveH h br m = Some (h', nb, promotes piece (row (to m))) ∧
    executeMove b m = Some (b', promotes piece (row (to m))) ∧
    readBoard h' nb = Some b' ∧
    extends h h' ∧
    readBoard h' br = Some b ∧
    fresh_board h h' nb ∧ nb ≠ br.
Proof.
  intros Hread Hwf Hin Hfrom.
  destruct (executeMoveH_refines h br b m piece Hread Hwf Hin Hfrom)
    as (h' & nb & b' & Hex & Hpure & Hnew).
  destruct (executeMoveH_frame_aux h br b m piece Hread Hfrom)
    as (h'' & nb' & Hex' & Hext & Hfresh).
  rewrite Hex in Hex'. injection Hex' as <- <-.
  exists h', nb, b'. repeat (split; [done|]).
  split; [by apply (readBoard_extends h)|]. split; [done|].
  destruct Hfresh as [Hnb _]. unfold readBoard in Hread.
  destruct (boardArrs h !! br) as [ras|] eqn:Hras; [|done].
  apply lookup_lt_Some in Hras. lia.
Qed.

Lemma executeMove_leaves_input_witness :
  ∃ h' nb b',
    executeMoveH initialHeap initialRef (slide (mkPos 6 1) 5 0)
      = Some (h', nb, promotes (mkPiece Red Man) 5) ∧
    executeMove createInitialBoard (slide (mkPos 6 1) 5 0)
      = Some (b', promotes (mkPiece Red Man) 5) ∧
    readBoard h' nb = Some b' ∧
    extends initialHeap h' ∧
    readBoard h' initialRef = Some createInitialBoard ∧
    fresh_board initialHeap h' nb ∧ nb ≠ initialRef.
Proof.
  apply (executeMove_leaves_input initialHeap initialRef createInitialBoard
           (slide (mkPos 6 1) 5 0) (mkPiece Red Man)).
  - reflexivity.
  - apply wf_boardb_spec. reflexivity.
  - repeat split.
  - reflexivity.
Defined.

(** A promoting move on the store: the Red man on (1,2) is moved onto the
    Black king on (0,1). The copy ends up with a single Red king; the input
    board keeps both pieces. *)
Example executeMoveH_promotion :
  match allocBoard emptyHeap (place (place emptyBoard 1 2 Red Man) 0 1 Black King) with
  | (h, br) =>
      match executeMoveH h br (slide (mkPos 1 2) 0 1) with
      | Some (h', nb, pr) =>
          pr = true ∧
          readBoard h' nb = Some (place emptyBoard 0 1 Red King) ∧
          readBoard h' br
            = Some (place (place emptyBoard 1 2 Red Man) 0 1 Black King)
      | None => False
      end
  end.
Proof. by vm_compute. Qed.

(** * Further properties of the rules engine *)

(** X1. Every move that [getValidMoves] returns for an 8x8 board (and an
    active piece on the board, if any) starts on a piece of the player, lands
    on an empty square of the board and, when it captures, names a square
    that holds a piece of another owner; a move that does not capture names
    none. [executeMove] applies it without throwing and returns an 8x8
    board. *)
Theorem generated_move_applies (b : Board) (p : Player) (ap : option Position)
    (m : Move) :
  wf_board b → active_ok ap → m ∈ getValidMoves b p ap →
  pos_in_bounds (from m) ∧ owned_by p (at_sq b (from m)) = true ∧
  pos_in_bounds (to m) ∧ at_sq b (to m) = None ∧
  (isCapture m = true →
     ∃ cp e, capturedPiece m = Some cp ∧ pos_in_bounds cp ∧
       at_sq b cp = Some e ∧ player e ≠ p) ∧
  (isCapture m = false → capturedPiece m = None) ∧
  ∃ nb pr, executeMove b m = Some (nb, pr) ∧ wf_board nb.
Proof.
  intros Hwf Hap Hm.
  pose proof (getValidMoves_legal b p ap m Hap Hm) as Hlegal.
  destruct (executeMove_legal b p m Hwf Hlegal) as (nb & pr & Hex & Hwfnb & _).
  destruct Hlegal as (Hf & Hown & Ht & He & Hcap).
  repeat (split; [done|]). split; [|split].
  - intros Hc. destruct (capturedPiece m) as [cp|].
    + destruct Hcap as (_ & Hv & e & Hcp & Hne). by exists cp, e.
    + congruence.
  - intros Hc. destruct (capturedPiece m) as [cp|]; [|done].
    destruct Hcap as (Hc' & _). congruence.
  - by exists nb, pr.
Qed.

Lemma generated_move_applies_witness :
  pos_in_bounds (mkPos 5 3) ∧ owned_by Red (at_sq forcedBoard (mkPos 5 3)) = true ∧
  pos_in_bounds (mkPos 3 1) ∧ at_sq forcedBoard (mkPos 3 1) = None ∧
  (true = true →
     ∃ cp e, Some (mkPos 4 2) = Some cp ∧ pos_in_bounds cp ∧
       at_sq forcedBoard cp = Some e ∧ player e ≠ Red) ∧
  (true = false → Some (mkPos 4 2) = None) ∧
  ∃ nb pr, executeMove forcedBoard (capture (mkPos 5 3) 3 1 (mkPos 4 2))
             = Some (nb, pr) ∧ wf_board nb.
Proof.
  apply (generated_move_applies forcedBoard Red None
           (capture (mkPos 5 3) 3 1 (mkPos 4 2))).
  - apply wf_boardb_spec. reflexivity.
  - exact I.
  - vm_compute. apply list_elem_of_here.
Defined.

(** X2. The moves of a king on a square of the board are exactly these, for
    each of the four diagonals: a slide to every empty square reached over
    empty squares only, and, when the first piece met belongs to another
    owner and the square right behind it is an empty square of the board,
    the capture of that piece landing on that square. Nothing else is
    generated: no second landing square, nothing behind an own piece, nothing
    behind two pieces. *)
Theorem king_moves_exact (b : Board) (pos : Position) (p : Player) (m : Move) :
  pos_in_bounds pos →
  m ∈ getKingMoves b pos p ↔
  ∃ d k, d ∈ king_dirs ∧ 1 <= k ∧
    pos_in_bounds (ray pos d k) ∧ at_sq b (ray pos d k) = None ∧
    ((m = mkMove pos (ray pos d k) false None ∧
      ∀ j, 1 <= j < k → at_sq b (ray pos d j) = None) ∨
     (2 <= k ∧ m = mkMove pos (ray pos d k) true (Some (ray pos d (k - 1))) ∧
      (∃ e, at_sq b (ray pos d (k - 1)) = Some e ∧ player e ≠ p) ∧
      ∀ j, 1 <= j < k - 1 → at_sq b (ray pos d j) = None)).
Proof.
  intros Hpos. rewrite getKingMoves_spec by done. split.
  - intros (d & Hd & k & Hk & Hv & He & Hcase). exists d, k.
    repeat (split; [done|]). exact Hcase.
  - intros (d & k & Hd & Hk & Hv & He & Hcase). exists d. split; [done|].
    exists k. repeat (split; [done|]). exact Hcase.
Qed.

Lemma king_moves_exact_witness :
  mkMove (mkPos 0 1) (mkPos 4 5) true (Some (mkPos 3 4))
    ∈ getKingMoves kingBoard (mkPos 0 1) Red ↔
  ∃ d k, d ∈ king_dirs ∧ 1 <= k ∧
    pos_in_bounds (ray (mkPos 0 1) d k) ∧ at_sq kingBoard (ray (mkPos 0 1) d k) = None ∧
    ((mkMove (mkPos 0 1) (mkPos 4 5) true (Some (mkPos 3 4))
        = mkMove (mkPos 0 1) (ray (mkPos 0 1) d k) false None ∧
      ∀ j, 1 <= j < k → at_sq kingBoard (ray (mkPos 0 1) d j) = None) ∨
     (2 <= k ∧
      mkMove (mkPos 0 1) (mkPos 4 5) true (Some (mkPos 3 4))
        = mkMove (mkPos 0 1) (ray (mkPos 0 1) d k) true
            (Some (ray (mkPos 0 1) d (k - 1))) ∧
      (∃ e, at_sq kingBoard (ray (mkPos 0 1) d (k - 1)) = Some e ∧ player e ≠ Red) ∧
      ∀ j, 1 <= j < k - 1 → at_sq kingBoard (ray (mkPos 0 1) d j) = None)).
Proof.
  apply (king_moves_exact kingBoard (mkPos 0 1) Red). reflexivity.
Defined.

(** X3. A man only moves forward: every move of a man of Red goes to a
    smaller row, every move of a man of any other owner to a greater row. A
    slide changes row and column by one; a capture changes them by two and
    takes the piece on the square in between. *)
Theorem man_moves_forward (b : Board) (pos : Position) (p : Player) (m : Move) :
  m ∈ getManMoves b pos p →
  from m = pos ∧
  (col (to m) - col pos = row (to m) - row pos ∨
   col (to m) - col pos = - (row (to m) - row pos)) ∧
  ((isCapture m = false ∧ capturedPiece m = None ∧
    row (to m) = row pos + forward p) ∨
   (isCapture m = true ∧ row (to m) = row pos + 2 * forward p ∧
    ∃ cp, capturedPiece m = Some cp ∧
      row cp = row pos + forward p ∧ 2 * col cp = col pos + col (to m))).
Proof.
  intros (d & Hd & Hcase)%getManMoves_spec.
  assert (fst d = forward p ∧ (snd d = 1 ∨ snd d = -1)) as [Hr Hc].
  { unfold forward_dirs, forward in *. destruct (decide (p = Red)) as [->|Hne].
    - rewrite bool_decide_eq_true_2 by done.
      rewrite !elem_of_cons, elem_of_nil in Hd.
      destruct Hd as [->|[->|[]]]; simpl; lia.
    - rewrite bool_decide_eq_false_2 by done.
      rewrite !elem_of_cons, elem_of_nil in Hd.
      destruct Hd as [->|[->|[]]]; simpl; lia. }
  assert (forward p = 1 ∨ forward p = -1) as Hfw
    by (unfold forward; case_bool_decide; lia).
  destruct Hcase as [(-> & _)|(-> & _)]; simpl.
  - split; [done|]. split; [lia|]. left. repeat split. lia.
  - split; [done|]. split; [lia|]. right. repeat split; [lia|].
    eexists. split; [done|]. simpl. lia.
Qed.

Lemma man_moves_forward_witness :
  from (capture (mkPos 5 3) 3 1 (mkPos 4 2)) = mkPos 5 3 ∧
  (1 - 3 = 3 - 5 ∨ 1 - 3 = - (3 - 5)) ∧
  ((true = false ∧ Some (mkPos 4 2) = None ∧ 3 = 5 + forward Red) ∨
   (true = true ∧ 3 = 5 + 2 * forward Red ∧
    ∃ cp, Some (mkPos 4 2) = Some cp ∧
      row cp = 5 + forward Red ∧ 2 * col cp = 3 + 1)).
Proof.
  apply (man_moves_forward forcedBoard (mkPos 5 3) Red
           (capture (mkPos 5 3) 3 1 (mkPos 4 2))).
  vm_compute. apply list_elem_of_further, list_elem_of_here.
Defined.

(** X4. With an active piece, [getValidMoves] only returns moves of that
    piece, and only if the square holds a piece of the player: for an empty
    square or a piece of another owner the list is empty. Every move it
    returns is also among the moves gathered without an active piece. *)
Theorem active_piece_only (b : Board) (p : Player) (pos : Position) (m : Move) :
  pos_in_bounds pos → m ∈ getValidMoves b p (Some pos) →
  from m = pos ∧
  (∃ piece, at_sq b pos = Some piece ∧ player piece = p) ∧
  m ∈ gatherMoves b p None.
Proof.
  intros Hpos Hm%getValidMoves_subset.
  apply gatherMoves_active in Hm as (piece & Hp & Hown & Hm).
  split; [by eapply getPieceMoves_from|]. split; [by exists piece|].
  apply gatherMoves_all. by exists pos, piece.
Qed.

Lemma active_piece_only_witness :
  from (capture (mkPos 5 3) 3 1 (mkPos 4 2)) = mkPos 5 3 ∧
  (∃ piece, at_sq forcedBoard (mkPos 5 3) = Some piece ∧ player piece = Red) ∧
  capture (mkPos 5 3) 3 1 (mkPos 4 2) ∈ gatherMoves forcedBoard Red None.
Proof.
  apply (active_piece_only forcedBoard Red (mkPos 5 3)
           (capture (mkPos 5 3) 3 1 (mkPos 4 2))).
  - reflexivity.
  - vm_compute. apply list_elem_of_here.
Defined.

Lemma dark_onlyb_spec b : dark_onlyb b = true → dark_only b.
Proof.
  unfold dark_onlyb, dark_only. rewrite forallb_forall.
  intros H r c piece [Hr Hc]%isValidPos_spec Hp.
  specialize (H r). rewrite forallb_forall in H.
  assert (In r indices) as Hir by (apply list_elem_of_In, elem_of_indices; lia).
  assert (In c indices) as Hic by (apply list_elem_of_In, elem_of_indices; lia).
  specialize (H Hir c Hic). rewrite Hp in H. by apply Z.eqb_eq.
Qed.

(** A diagonal step keeps the colour of the square. *)
Lemma ray_parity pos d k :
  d ∈ king_dirs →
  (row (ray pos d k) + col (ray pos d k)) mod 2 = (row pos + col pos) mod 2.
Proof.
  intros Hd%elem_of_king_dirs. destruct d as [dr dc]. unfold ray; simpl in *.
  destruct Hd as [[-> | ->] [-> | ->]].
  - replace (row pos + k * 1 + (col pos + k * 1)) with (row pos + col pos + k * 2)
      by lia. apply Z_mod_plus_full.
  - replace (row pos + k * 1 + (col pos + k * -1)) with (row pos + col pos + 0 * 2)
      by lia. apply Z_mod_plus_full.
  - replace (row pos + k * -1 + (col pos + k * 1)) with (row pos + col pos + 0 * 2)
      by lia. apply Z_mod_plus_full.
  - replace (row pos + k * -1 + (col pos + k * -1))
      with (row pos + col pos + (- k) * 2) by lia. apply Z_mod_plus_full.
Qed.

(** Where a generated move lands: some steps along a diagonal. *)
Lemma getPieceMoves_to b pos piece m :
  pos_in_bounds pos → m ∈ getPieceMoves b pos piece →
  ∃ d k, d ∈ king_dirs ∧ 1 <= k ∧ to m = ray pos d k.
Proof.
  intros Hpos. unfold getPieceMoves. destruct (type piece).
  - intros (d & Hd%forward_dirs_king & [(-> & _)|(-> & _)])%getManMoves_spec.
    + by exists d, 1.
    + by exists d, 2.
  - intros (d & Hd & Hm%ray_move_to)%getKingMoves_spec; [|done].
    destruct Hm as (k & Hk & Hto & _). by exists d, k.
Qed.

Lemma gatherMoves_piece b p ap m :
  active_ok ap → m ∈ gatherMoves b p ap →
  ∃ pos piece, pos_in_bounds pos ∧ at_sq b pos = Some piece ∧
    player piece = p ∧ m ∈ getPieceMoves b pos piece.
Proof.
  destruct ap as [pos|]; simpl.
  - intros Hpos (piece & Hp & Hown & Hm)%gatherMoves_active. by exists pos, piece.
  - intros _. by apply gatherMoves_all.
Qed.

(** What a generated move does to the squares of the board. *)
Lemma executeMove_squares b p ap m :
  wf_board b → active_ok ap → m ∈ getValidMoves b p ap →
  ∃ piece nb,
    at_sq b (from m) = Some piece ∧ player piece = p ∧
    executeMove b m = Some (nb, promotes piece (row (to m))) ∧
    wf_board nb ∧
    ∀ pos, pos_in_bounds pos →
      at_sq nb pos =
        if bool_decide (pos = from m) then None
        else if bool_decide (pos = to m)
             then Some (movedPiece piece (row (to m)))
        else if bool_decide (capturedPiece m = Some pos) then None
        else at_sq b pos.
Proof.
  intros Hwf Hap Hm.
  pose proof (getValidMoves_legal b p ap m Hap Hm) as (Hf & Hown & Ht & He & Hcap).
  destruct (at_sq b (from m)) as [piece|] eqn:Hp; [|done].
  simpl in Hown. apply bool_decide_eq_true in Hown.
  unfold at_sq in Hp. exists piece. eexists. split; [done|]. split; [done|].
  split; [apply (executeMove_Some _ _ _ Hp)|].
  assert (from m ≠ to m) as Hft.
  { intros Heq. rewrite <- Heq in He. unfold at_sq in He. congruence. }
  set (b1 := set_sq b (row (to m)) (col (to m)) _).
  set (b2 := set_sq b1 (row (from m)) (col (from m)) None).
  assert (wf_board b1) as Hwf1 by by apply wf_set_sq.
  assert (wf_board b2) as Hwf2 by by apply wf_set_sq.
  assert (∀ pos, at_sq b2 pos =
            if bool_decide (pos = from m) then None
            else if bool_decide (pos = to m)
                 then Some (movedPiece piece (row (to m)))
            else at_sq b pos) as H2.
  { intros [r c]. unfold at_sq, b2, b1; simpl.
    rewrite !sq_set_sq by done.
    destruct (bool_decide (mkPos r c = from m)) eqn:E1.
    - apply bool_decide_eq_true in E1. rewrite <- E1. simpl.
      by rewrite bool_decide_eq_true_2.
    - apply bool_decide_eq_false in E1.
      rewrite bool_decide_eq_false_2
        by (intros [? ?]; apply E1; destruct (from m); simpl in *; congruence).
      destruct (bool_decide (mkPos r c = to m)) eqn:E2.
      + apply bool_decide_eq_true in E2. rewrite <- E2. simpl.
        by rewrite bool_decide_eq_true_2.
      + apply bool_decide_eq_false in E2.
        by rewrite bool_decide_eq_false_2
          by (intros [? ?]; apply E2; destruct (to m); simpl in *; congruence). }
  cbv zeta. fold b1. fold b2.
  destruct (capturedPiece m) as [cp|] eqn:Hcp.
  - destruct Hcap as (-> & Hvc & e & Hecp & Hne).
    split; [by apply wf_set_sq|].
    intros [r c] Hv. unfold at_sq at 1. simpl.
    rewrite sq_set_sq by done.
    change (sq b2 r c) with (at_sq b2 (mkPos r c)). rewrite H2.
    destruct (bool_decide (row cp = r ∧ col cp = c)) eqn:E3.
    + apply bool_decide_eq_true in E3 as [<- <-].
      assert (mkPos (row cp) (col cp) = cp) as -> by by destruct cp.
      rewrite (bool_decide_eq_true_2 (Some cp = Some cp)) by done.
      assert (cp ≠ to m) as Hct by (intros ->; congruence).
      rewrite (bool_decide_eq_false_2 (cp = to m)) by done.
      by destruct (bool_decide (cp = from m)).
    + apply bool_decide_eq_false in E3.
      rewrite (bool_decide_eq_false_2 (Some cp = Some (mkPos r c)));
        [done|]. intros [= ->]. by apply E3.
  - rewrite Hcap. split; [done|]. intros pos Hv. rewrite H2.
    by rewrite (bool_decide_eq_false_2 (None = Some pos)).
Qed.

Lemma movedPiece_player piece toRow : player (movedPiece piece toRow) = player piece.
Proof. unfold movedPiece. by destruct (promotes piece toRow). Qed.

Lemma movedPiece_type piece toRow :
  type (movedPiece piece toRow) =
    if promotes piece toRow then King else type piece.
Proof. unfold movedPiece. by destruct (promotes piece toRow). Qed.

Lemma promotes_spec piece toRow :
  promotes piece toRow = true ↔
  type piece = Man ∧
  ((player piece = Red ∧ toRow = 0) ∨ (player piece = Black ∧ toRow = 7)).
Proof.
  unfold promotes, BOARD_SIZE. destruct (type piece).
  - rewrite orb_true_iff, !andb_true_iff, !bool_decide_eq_true, !Z.eqb_eq.
    intuition.
  - intuition discriminate.
Qed.

(** X5. A generated move changes at most three squares of the board: [from]
    is left empty, [to] holds the moved piece, the captured square (of a
    capture) is left empty, and every other square is as before. The moved
    piece keeps its owner; it is a king afterwards exactly if it was a king
    or is a man of Red reaching row 0 or of Black reaching row 7, and that
    last case is what the returned flag reports. *)
Theorem executeMove_effect (b : Board) (p : Player) (ap : option Position)
    (m : Move) :
  wf_board b → active_ok ap → m ∈ getValidMoves b p ap →
  ∃ piece moved nb pr,
    at_sq b (from m) = Some piece ∧
    executeMove b m = Some (nb, pr) ∧
    at_sq nb (from m) = None ∧
    at_sq nb (to m) = Some moved ∧
    player moved = player piece ∧ player piece = p ∧
    (type moved = King ↔ type piece = King ∨ pr = true) ∧
    (pr = true ↔
       type piece = Man ∧
       ((p = Red ∧ row (to m) = 0) ∨ (p = Black ∧ row (to m) = 7))) ∧
    (∀ cp, capturedPiece m = Some cp → at_sq nb cp = None) ∧
    (∀ pos, pos_in_bounds pos → pos ≠ from m → pos ≠ to m →
            capturedPiece m ≠ Some pos → at_sq nb pos = at_sq b pos).
Proof.
  intros Hwf Hap Hm.
  destruct (executeMove_squares b p ap m Hwf Hap Hm)
    as (piece & nb & Hp & Hown & Hex & Hwfnb & Hsq).
  pose proof (getValidMoves_legal b p ap m Hap Hm) as (Hf & _ & Ht & He & Hcap).
  assert (from m ≠ to m) as Hft.
  { intros Heq. rewrite <- Heq in He. congruence. }
  exists piece, (movedPiece piece (row (to m))), nb, (promotes piece (row (to m))).
  split; [done|]. split; [done|]. split.
  { rewrite Hsq by done. by rewrite bool_decide_eq_true_2. }
  split.
  { rewrite Hsq by done. rewrite bool_decide_eq_false_2 by done.
    by rewrite bool_decide_eq_true_2. }
  split; [apply movedPiece_player|]. split; [done|]. split.
  { rewrite movedPiece_type. destruct (promotes piece (row (to m))) eqn:Hpr.
    - split; auto.
    - split; [auto|]. intros [?|?]; [done|discriminate]. }
  split.
  { rewrite promotes_spec, Hown. done. }
  split.
  - intros cp Hcp. rewrite Hcp in Hcap. destruct Hcap as (_ & Hvc & e & Hecp & Hne).
    rewrite Hsq by done.
    destruct (bool_decide (cp = from m)); [done|].
    assert (cp ≠ to m) as Hct by (intros ->; congruence).
    rewrite (bool_decide_eq_false_2 (cp = to m)) by done.
    by rewrite bool_decide_eq_true_2.
  - intros pos Hv H1 H2 H3. rewrite Hsq by done.
    by rewrite !bool_decide_eq_false_2 by done.
Qed.

Lemma executeMove_effect_witness :
  ∃ piece moved nb pr,
    at_sq forcedBoard (mkPos 5 3) = Some piece ∧
    executeMove forcedBoard (capture (mkPos 5 3) 3 1 (mkPos 4 2)) = Some (nb, pr) ∧
    at_sq nb (mkPos 5 3) = None ∧
    at_sq nb (mkPos 3 1) = Some moved ∧
    player moved = player piece ∧ player piece = Red ∧
    (type moved = King ↔ type piece = King ∨ pr = true) ∧
    (pr = true ↔
       type piece = Man ∧ ((Red = Red ∧ 3 = 0) ∨ (Red = Black ∧ 3 = 7))) ∧
    (∀ cp, Some (mkPos 4 2) = Some cp → at_sq nb cp = None) ∧
    (∀ pos, pos_in_bounds pos → pos ≠ mkPos 5 3 → pos ≠ mkPos 3 1 →
            Some (mkPos 4 2) ≠ Some pos → at_sq nb pos = at_sq forcedBoard pos).
Proof.
  apply (executeMove_effect forcedBoard Red None
           (capture (mkPos 5 3) 3 1 (mkPos 4 2))).
  - apply wf_boardb_spec. reflexivity.
  - exact I.
  - vm_compute. apply list_elem_of_here.
Defined.

Lemma generated_move_dark (b : Board) (p : Player) (ap : option Position)
    (m : Move) (nb : Board) (pr : bool) :
  wf_board b → active_ok ap → dark_only b →
  m ∈ getValidMoves b p ap → executeMove b m = Some (nb, pr) →
  (row (to m) + col (to m)) mod 2 = (row (from m) + col (from m)) mod 2 ∧
  dark_only nb.
Proof.
  intros Hwf Hap Hdark Hm Hex.
  destruct (executeMove_squares b p ap m Hwf Hap Hm)
    as (piece & nb' & Hp & Hown & Hex' & Hwfnb & Hsq).
  rewrite Hex in Hex'. injection Hex' as <- ->.
  assert ((row (to m) + col (to m)) mod 2 = (row (from m) + col (from m)) mod 2)
    as Hpar.
  { apply getValidMoves_subset in Hm.
    apply (gatherMoves_piece b p ap m Hap) in Hm as (pos & pc & Hpos & _ & _ & Hm).
    pose proof (getPieceMoves_from _ _ _ _ Hm) as ->.
    destruct (getPieceMoves_to _ _ _ _ Hpos Hm) as (d & k & Hd & _ & ->).
    by apply ray_parity. }
  split; [done|].
  pose proof (getValidMoves_legal b p ap m Hap Hm) as (Hf & _ & Ht & _).
  intros r c piece' Hv Hpiece.
  specialize (Hsq (mkPos r c) Hv). unfold at_sq in Hsq at 1. simpl in Hsq.
  rewrite Hpiece in Hsq.
  destruct (bool_decide (mkPos r c = from m)); [done|].
  destruct (bool_decide (mkPos r c = to m)) eqn:E.
  - apply bool_decide_eq_true in E. rewrite <- E in Hpar. simpl in Hpar.
    rewrite Hpar. by apply (Hdark _ _ piece Hf).
  - destruct (bool_decide (capturedPiece m = Some (mkPos r c))); [done|].
    by apply (Hdark r c piece').
Qed.

(** X6. Pieces stay on the dark squares: every generated move lands on a
    square of the colour it started from, so a board whose pieces all stand
    on dark squares, as the initial board does, is taken to another such
    board by every move [getValidMoves] offers. *)
Theorem dark_squares_kept (b : Board) (p : Player) (ap : option Position)
    (m : Move) (nb : Board) (pr : bool) :
  wf_board b → active_ok ap → dark_only b →
  m ∈ getValidMoves b p ap → executeMove b m = Some (nb, pr) →
  (row (to m) + col (to m)) mod 2 = (row (from m) + col (from m)) mod 2 ∧
  dark_only nb ∧ dark_only createInitialBoard.
Proof.
  intros Hwf Hap Hdark Hm Hex.
  destruct (generated_move_dark b p ap m nb pr Hwf Hap Hdark Hm Hex) as [Hpar Hnb].
  split; [done|]. split; [done|]. apply dark_onlyb_spec. reflexivity.
Qed.

Lemma dark_squares_kept_witness :
  (5 + 0) mod 2 = (6 + 1) mod 2 ∧
  dark_only (set_sq (set_sq createInitialBoard 5 0 (Some (mkPiece Red Man))) 6 1 None) ∧
  dark_only createInitialBoard.
Proof.
  apply (dark_squares_kept createInitialBoard Red None (slide (mkPos 6 1) 5 0)
           _ false).
  - apply wf_boardb_spec. reflexivity.
  - exact I.
  - apply dark_onlyb_spec. reflexivity.
  - vm_compute. apply list_elem_of_here.
  - reflexivity.
Defined.

(** ** The counts of [checkWinner] *)

Lemma fold_left_ext_all {A B} (f g : A → B → A) l a :
  (∀ a x, f a x = g a x) → fold_left f l a = fold_left g l a.
Proof.
  intros Hfg. revert a. induction l as [|x l IH]; intros a; simpl; [done|].
  by rewrite Hfg, IH.
Qed.

Lemma fold_add_shift_gen (w : Z → Z) l a z :
  fold_left (λ acc x, acc + w x) l (a + z) =
  a + fold_left (λ acc x, acc + w x) l z.
Proof.
  revert z. induction l as [|x l IH]; intros z; simpl; [done|].
  replace (a + z + w x) with (a + (z + w x)) by lia. apply IH.
Qed.

Lemma fold_add_shift w l acc :
  fold_left (λ acc x, acc + w x) l acc = acc + sumZ w l.
Proof.
  unfold sumZ. rewrite <- fold_add_shift_gen. f_equal. lia.
Qed.

Lemma sumZ_cons w x l : sumZ w (x :: l) = w x + sumZ w l.
Proof. unfold sumZ at 1. simpl. by rewrite fold_add_shift. Qed.

Lemma sumZ_ext w w' l : (∀ x, x ∈ l → w x = w' x) → sumZ w l = sumZ w' l.
Proof.
  induction l as [|x l IH]; intros H; [done|].
  rewrite !sumZ_cons, IH, (H x); [done|by left|].
  intros y Hy. apply H. by right.
Qed.

Lemma sumZ_change w w' l x0 :
  NoDup l → x0 ∈ l → (∀ x, x ∈ l → x ≠ x0 → w x = w' x) →
  sumZ w' l = sumZ w l - w x0 + w' x0.
Proof.
  induction l as [|x l IH]; intros Hnd Hin H; [by apply not_elem_of_nil in Hin|].
  apply NoDup_cons in Hnd as [Hx Hnd]. rewrite !sumZ_cons.
  apply elem_of_cons in Hin as [->|Hin].
  - rewrite (sumZ_ext w' w l); [lia|].
    intros y Hy. symmetry. apply H; [by right|]. by intros ->.
  - rewrite IH by (try done; intros y Hy; apply H; by right).
    rewrite (H x); [lia|by left|]. by intros ->.
Qed.

Lemma sumZ_nonneg w l : (∀ x, 0 <= w x) → 0 <= sumZ w l.
Proof.
  intros H. induction l as [|x l IH]; [done|].
  rewrite sumZ_cons. specialize (H x). lia.
Qed.

Lemma NoDup_indices : NoDup indices.
Proof.
  unfold indices.
  repeat (constructor; [rewrite ?elem_of_cons, ?elem_of_nil; lia|]).
  constructor.
Qed.

Lemma countPieces_sum b p :
  countPieces b p =
    sumZ (λ r, sumZ (λ c, bz (owned_by p (sq b r c))) indices) indices.
Proof.
  unfold countPieces.
  rewrite (fold_left_ext_all _
             (λ acc r, acc + sumZ (λ c, bz (owned_by p (sq b r c))) indices)).
  - by rewrite fold_add_shift.
  - intros acc r.
    rewrite (fold_left_ext_all _ (λ acc c, acc + bz (owned_by p (sq b r c)))).
    + apply fold_add_shift.
    + intros a c. unfold bz. destruct (owned_by p (sq b r c)); lia.
Qed.

Lemma countPieces_nonneg b p : 0 <= countPieces b p.
Proof.
  rewrite countPieces_sum. apply sumZ_nonneg. intros r.
  apply sumZ_nonneg. intros c. unfold bz. by destruct (owned_by _ _).
Qed.

(** A write changes the count of a player by what it removes and adds. *)
Lemma countPieces_set_sq b r c v p :
  wf_board b → isValidPos r c = true →
  countPieces (set_sq b r c v) p =
    countPieces b p - bz (owned_by p (sq b r c)) + bz (owned_by p v).
Proof.
  intros Hwf Hv. pose proof Hv as [Hr Hc]%isValidPos_spec.
  rewrite !countPieces_sum.
  rewrite (sumZ_change
             (λ r', sumZ (λ c', bz (owned_by p (sq b r' c'))) indices)
             _ indices r NoDup_indices).
  - rewrite (sumZ_change (λ c', bz (owned_by p (sq b r c')))
               (λ c', bz (owned_by p (sq (set_sq b r c v) r c')))
               indices c NoDup_indices).
    + rewrite sq_set_sq_eq by done. lia.
    + by apply elem_of_indices.
    + intros c' _ Hne. rewrite sq_set_sq_ne; [done|]. right. congruence.
  - by apply elem_of_indices.
  - intros r' _ Hne. apply sumZ_ext. intros c' _.
    rewrite sq_set_sq_ne; [done|]. left. congruence.
Qed.

Lemma generated_move_counts (b : Board) (p : Player) (ap : option Position)
    (m : Move) (nb : Board) (pr : bool) :
  wf_board b → active_ok ap →
  m ∈ getValidMoves b p ap → executeMove b m = Some (nb, pr) →
  countPieces nb p = countPieces b p ∧
  (∀ q, countPieces nb q = countPieces b q - bz (takes_from b m q)) ∧
  (∀ q, 0 <= countPieces nb q <= countPieces b q).
Proof.
  intros Hwf Hap Hm Hex.
  pose proof (getValidMoves_legal b p ap m Hap Hm) as (Hf & Hown & Ht & He & Hcap).
  destruct (at_sq b (from m)) as [piece|] eqn:Hp; [|done].
  simpl in Hown. apply bool_decide_eq_true in Hown.
  unfold at_sq in Hp, He. rewrite (executeMove_Some _ _ _ Hp) in Hex.
  injection Hex as <- <-.
  assert (from m ≠ to m) as Hft.
  { intros Heq. rewrite <- Heq in He. congruence. }
  set (b1 := set_sq b (row (to m)) (col (to m)) _).
  set (b2 := set_sq b1 (row (from m)) (col (from m)) None).
  assert (wf_board b1) as Hwf1 by by apply wf_set_sq.
  assert (wf_board b2) as Hwf2 by by apply wf_set_sq.
  assert (∀ q, countPieces b2 q = countPieces b q) as H2.
  { intros q. unfold b2. rewrite countPieces_set_sq by done.
    fold (at_sq b1 (from m)). unfold b1 at 2. rewrite at_sq_set_ne by done.
    unfold at_sq. rewrite Hp. unfold b1. rewrite countPieces_set_sq by done.
    rewrite He. simpl. rewrite movedPiece_player. lia. }
  assert (∀ q, countPieces
                 (match isCapture m, capturedPiece m with
                  | true, Some cp => set_sq b2 (row cp) (col cp) None
                  | _, _ => b2
                  end) q = countPieces b q - bz (takes_from b m q)) as Hall.
  { intros q. unfold takes_from.
    destruct (capturedPiece m) as [cp|] eqn:Hcp.
    - destruct Hcap as (-> & Hvc & e & Hecp & Hne).
      assert (cp ≠ to m) as Hct by (intros ->; unfold at_sq in Hecp; congruence).
      assert (cp ≠ from m) as Hcf.
      { intros ->. unfold at_sq in Hecp. rewrite Hp in Hecp. by injection Hecp as ->. }
      rewrite countPieces_set_sq by done. fold (at_sq b2 cp).
      unfold b2, b1. rewrite !at_sq_set_ne by done. fold b1. fold b2.
      rewrite H2. simpl. lia.
    - rewrite Hcap. simpl. rewrite H2. lia. }
  cbv zeta. fold b1. fold b2.
  split; [|split; [done|]].
  - rewrite Hall. unfold takes_from.
    destruct (capturedPiece m) as [cp|]; [|simpl; lia].
    destruct Hcap as (_ & _ & e & -> & Hne). simpl.
    rewrite bool_decide_eq_false_2 by done. simpl. lia.
  - intros q. rewrite Hall. pose proof (countPieces_nonneg b q).
    split; [|unfold bz; destruct (takes_from b m q); lia].
    rewrite <- Hall. apply countPieces_nonneg.
Qed.

(** X7. The counts that [checkWinner] takes: a generated move leaves the
    count of every player as it was, except that a capture lowers the count
    of the owner of the captured piece by one. The mover's own count never
    changes, and no count ever grows. *)
Theorem counts_after_move (b : Board) (p : Player) (ap : option Position)
    (m : Move) (nb : Board) (pr : bool) :
  wf_board b → active_ok ap →
  m ∈ getValidMoves b p ap → executeMove b m = Some (nb, pr) →
  countPieces nb p = countPieces b p ∧
  (∀ q, countPieces nb q = countPieces b q - bz (takes_from b m q)) ∧
  (∀ q, 0 <= countPieces nb q <= countPieces b q).
Proof.
  intros Hwf Hap Hm Hex.
  by apply (generated_move_counts b p ap m nb pr).
Qed.

Lemma counts_after_move_witness :
  countPieces (set_sq (set_sq (set_sq forcedBoard 3 1 (Some (mkPiece Red Man)))
                         5 3 None) 4 2 None) Red
    = countPieces forcedBoard Red ∧
  (∀ q, countPieces (set_sq (set_sq (set_sq forcedBoard 3 1 (Some (mkPiece Red Man)))
                               5 3 None) 4 2 None) q
        = countPieces forcedBoard q
          - bz (takes_from forcedBoard (capture (mkPos 5 3) 3 1 (mkPos 4 2)) q)) ∧
  (∀ q, 0 <= countPieces (set_sq (set_sq (set_sq forcedBoard 3 1
                                            (Some (mkPiece Red Man)))
                                    5 3 None) 4 2 None) q
        <= countPieces forcedBoard q).
Proof.
  apply (counts_after_move forcedBoard Red None
           (capture (mkPos 5 3) 3 1 (mkPos 4 2)) _ false).
  - apply wf_boardb_spec. reflexivity.
  - exact I.
  - vm_compute. apply list_elem_of_here.
  - reflexivity.
Defined.

Lemma has_pieceb_spec b p : has_pieceb b p = true ↔ has_piece b p.
Proof.
  unfold has_pieceb, has_piece. rewrite existsb_exists. split.
  - intros (r & Hr%list_elem_of_In%elem_of_indices & Hc).
    apply existsb_exists in Hc as (c & Hc%list_elem_of_In%elem_of_indices & Hown).
    exists r, c. split; [by apply isValidPos_spec|done].
  - intros (r & c & [Hr Hc]%isValidPos_spec & Hown).
    exists r. split; [by apply list_elem_of_In, elem_of_indices|].
    apply existsb_exists. exists c.
    split; [by apply list_elem_of_In, elem_of_indices|done].
Qed.

Lemma countPieces_zero b p : countPieces b p = 0 ↔ ¬ has_piece b p.
Proof.
  split.
  - intros Hz Hp%countPieces_pos. lia.
  - intros Hno. rewrite countPieces_sum.
    rewrite (sumZ_ext _ (λ _, 0)).
    + induction indices as [|x l IH]; [done|]. by rewrite sumZ_cons, IH.
    + intros r Hr%elem_of_indices. rewrite (sumZ_ext _ (λ _, 0)).
      * induction indices as [|x l IH]; [done|]. by rewrite sumZ_cons, IH.
      * intros c Hc%elem_of_indices.
        destruct (owned_by p (sq b r c)) eqn:Hown; [|done].
        exfalso. apply Hno. exists r, c. split; [by apply isValidPos_spec|done].
Qed.

Lemma countPieces_nonzero b p : countPieces b p ≠ 0 ↔ has_piece b p.
Proof.
  rewrite countPieces_zero. split; [|tauto].
  intros Hnn. destruct (has_pieceb b p) eqn:E.
  - by apply has_pieceb_spec.
  - exfalso. apply Hnn. intros H%has_pieceb_spec. congruence.
Qed.

(** X8. What [checkWinner] answers. No winner: both Red and Black have a piece
    and a legal move. Black wins exactly when Red has no piece, or both have
    pieces and Red has no move; Red wins exactly when Red has a piece and
    Black has none, or both have pieces, Red has a move and Black has none.
    The answer is never the [None] value of the [Player] enum. *)
Theorem checkWinner_spec (b : Board) :
  (checkWinner b = None ↔
     has_piece b Red ∧ has_piece b Black ∧
     getValidMoves b Red None ≠ [] ∧ getValidMoves b Black None ≠ []) ∧
  (checkWinner b = Some Black ↔
     ¬ has_piece b Red ∨ (has_piece b Black ∧ getValidMoves b Red None = [])) ∧
  (checkWinner b = Some Red ↔
     has_piece b Red ∧
     (¬ has_piece b Black ∨
      (getValidMoves b Red None ≠ [] ∧ getValidMoves b Black None = []))) ∧
  checkWinner b ≠ Some PNone.
Proof.
  unfold checkWinner.
  destruct (countPieces b Red =? 0) eqn:ER.
  { apply Z.eqb_eq, countPieces_zero in ER. intuition congruence. }
  apply Z.eqb_neq, countPieces_nonzero in ER.
  destruct (countPieces b Black =? 0) eqn:EB.
  { apply Z.eqb_eq, countPieces_zero in EB. intuition congruence. }
  apply Z.eqb_neq, countPieces_nonzero in EB.
  destruct (getValidMoves b Red None) as [|mr lr] eqn:EVR; simpl.
  { intuition congruence. }
  destruct (getValidMoves b Black None) as [|mb lb] eqn:EVB; simpl;
    intuition congruence.
Qed.

(** * Further properties of the search *)

Lemma num_le_total a b : num_le a b = false → num_le b a = true.
Proof. destruct a, b; simpl; try done. intros H%Z.leb_gt. apply Z.leb_le. lia. Qed.

Lemma num_le_trans a b c :
  num_le a b = true → num_le b c = true → num_le a c = true.
Proof.
  destruct a, b, c; simpl; try done.
  rewrite !Z.leb_le. lia.
Qed.

(** The root loop returns a candidate of maximal score, or the initial best
    move when no candidate beats [maxEval]. *)
Lemma rootLoop_max rec board depth bot moves best maxEval m :
  (∀ x, x ∈ moves →
     ∃ z, searchChild rec board depth NegInf PosInf true bot x = Done (Fin z)) →
  rootLoop rec board depth bot moves best maxEval = Done m →
  (m = best ∧
   ∀ x z, x ∈ moves →
     searchChild rec board depth NegInf PosInf true bot x = Done (Fin z) →
     num_le (Fin z) maxEval = true) ∨
  (m ∈ moves ∧
   ∃ z, searchChild rec board depth NegInf PosInf true bot m = Done (Fin z) ∧
     num_le maxEval (Fin z) = true ∧
     ∀ x zx, x ∈ moves →
       searchChild rec board depth NegInf PosInf true bot x = Done (Fin zx) →
       zx <= z).
Proof.
  revert best maxEval.
  induction moves as [|x moves IH]; intros best maxEval Hall; simpl.
  - intros [= <-]. left. split; [done|]. by intros ? ? ?%not_elem_of_nil.
  - destruct (Hall x) as [zx Hx]; [by left|]. rewrite Hx.
    assert (∀ y, y ∈ moves →
      ∃ z, searchChild rec board depth NegInf PosInf true bot y = Done (Fin z))
      as Hrest by (intros y Hy; apply Hall; by right).
    unfold num_gt. destruct (num_le (Fin zx) maxEval) eqn:Hcmp; simpl.
    + intros [[-> Hle]|(Hm & z & Hz & Hge & Hmax)]%IH; [| |done].
      * left. split; [done|].
        intros y zy [->|Hy]%elem_of_cons Hscore.
        -- rewrite Hx in Hscore. by injection Hscore as <-.
        -- by eapply Hle.
      * right. split; [by right|]. exists z. split; [done|]. split; [done|].
        intros y zy [->|Hy]%elem_of_cons Hscore.
        -- rewrite Hx in Hscore. injection Hscore as <-.
           pose proof (num_le_trans _ _ _ Hcmp Hge) as H. simpl in H.
           by apply Z.leb_le.
        -- by eapply Hmax.
    + apply num_le_total in Hcmp.
      intros [[-> Hle]|(Hm & z & Hz & Hge & Hmax)]%IH; [| |done].
      * right. split; [by left|]. exists zx. split; [done|]. split; [done|].
        intros y zy [->|Hy]%elem_of_cons Hscore.
        -- rewrite Hx in Hscore. injection Hscore as <-. lia.
        -- specialize (Hle y zy Hy Hscore). simpl in Hle. by apply Z.leb_le.
      * right. split; [by right|]. exists z. split; [done|].
        split; [by eapply num_le_trans|].
        intros y zy [->|Hy]%elem_of_cons Hscore.
        -- rewrite Hx in Hscore. injection Hscore as <-.
           simpl in Hge. by apply Z.leb_le.
        -- by eapply Hmax.
Qed.

(** X9. At Medium and Hard the bot plays a best-scoring move: on an 8x8
    board, with a budget of [botBound] or more, the move [getBotMove] returns
    is a legal move, the root loop gives every legal move a finite score, and
    no legal move scores higher than the move returned, in whatever order the
    shuffle leaves the candidates. *)
Theorem getBotMove_best (rnd : RandomSource) (fuel : nat) (b : Board)
    (p : Player) (difficulty : Difficulty) (ap : option Position) (m : Move) :
  wf_board b → active_ok ap → random_ok rnd → difficulty ≠ Easy →
  (botBound b <= fuel)%nat →
  getBotMove rnd fuel b p difficulty ap = Done (Some m) →
  m ∈ getValidMoves b p ap ∧
  ∃ z, rootScore fuel b p (botDepth difficulty) m = Done (Fin z) ∧
    ∀ x, x ∈ getValidMoves b p ap →
      ∃ zx, rootScore fuel b p (botDepth difficulty) x = Done (Fin zx) ∧ zx <= z.
Proof.
  intros Hwf Hap [Hidx Hperm] Hne Hfuel. unfold getBotMove.
  destruct (getValidMoves b p ap) as [|first rest] eqn:Hvm; [done|].
  set (vm := first :: rest) in *.
  assert (1 <= botDepth difficulty <= 4) as Hdepth
    by (unfold botDepth; case_bool_decide; lia).
  assert (∀ x, x ∈ vm →
    ∃ z, rootScore fuel b p (botDepth difficulty) x = Done (Fin z)) as Hscore.
  { intros x Hx. unfold rootScore.
    destruct fuel as [|n]; [unfold botBound, searchBound in Hfuel; lia|].
    destruct (searchChild_total n p b (botDepth difficulty) NegInf PosInf true p x)
      as [z Hz]; [apply minimax_total|done|lia| | |].
    - unfold botBound, searchBound in *. lia.
    - apply (getValidMoves_legal b p ap); [done|by rewrite Hvm].
    - exists z. eapply searchChild_mono; [|exact Hz].
      intros. eapply (minimax_fuel_mono n (S n)); [lia|done]. }
  assert (rootLoop (λ nb d a b' mx ap', minimax fuel nb d a b' mx p ap')
            b (botDepth difficulty) p (shuffle rnd vm) first NegInf = Done m →
          m ∈ vm ∧
          ∃ z, rootScore fuel b p (botDepth difficulty) m = Done (Fin z) ∧
            ∀ x, x ∈ vm →
              ∃ zx, rootScore fuel b p (botDepth difficulty) x = Done (Fin zx) ∧
                    zx <= z) as Hloop.
  { intros Hrun. apply rootLoop_max in Hrun.
    2:{ intros x Hx. apply Hscore. by rewrite <- (Hperm vm). }
    destruct Hrun as [[-> Hle]|(Hm & z & Hz & _ & Hmax)].
    - exfalso. assert (first ∈ shuffle rnd vm) as Hin
        by (rewrite (Hperm vm); by left).
      destruct (Hscore first) as [z Hz]; [by left|].
      by specialize (Hle first z Hin Hz).
    - split; [by rewrite <- (Hperm vm)|]. exists z. split; [done|].
      intros x Hx. destruct (Hscore x Hx) as [zx Hzx]. exists zx.
      split; [done|]. apply (Hmax x zx); [by rewrite (Hperm vm)|done]. }
  unfold botDepth in *.
  destruct difficulty; [done| |];
    destruct (rootLoop _ _ _ _ _ _ _) as [m'| |] eqn:Hrun; try done;
    intros [= <-]; by apply Hloop.
Qed.

Lemma getBotMove_best_witness :
  slide (mkPos 1 0) 2 1 ∈ getValidMoves createInitialBoard Black None ∧
  ∃ z, rootScore (botBound createInitialBoard) createInitialBoard Black
         (botDepth Medium) (slide (mkPos 1 0) 2 1) = Done (Fin z) ∧
    ∀ x, x ∈ getValidMoves createInitialBoard Black None →
      ∃ zx, rootScore (botBound createInitialBoard) createInitialBoard Black
              (botDepth Medium) x = Done (Fin zx) ∧ zx <= z.
Proof.
  apply (getBotMove_best pickFirst (botBound createInitialBoard)
           createInitialBoard Black Medium None (slide (mkPos 1 0) 2 1)).
  - apply wf_boardb_spec. reflexivity.
  - exact I.
  - apply random_ok_pickFirst.
  - discriminate.
  - lia.
  - by vm_compute.
Defined.

(** X10. A forced move is played: when exactly one move is legal,
    [getBotMove] returns it at every difficulty and for every outcome of
    [Math.random]; when none is legal it returns none. *)
Theorem getBotMove_forced (rnd : RandomSource) (fuel : nat) (b : Board)
    (p : Player) (difficulty : Difficulty) (ap : option Position) :
  wf_board b → active_ok ap → random_ok rnd → (botBound b <= fuel)%nat →
  (∀ m, getValidMoves b p ap = [m] →
        getBotMove rnd fuel b p difficulty ap = Done (Some m)) ∧
  (getValidMoves b p ap = [] →
   getBotMove rnd fuel b p difficulty ap = Done None).
Proof.
  intros Hwf Hap Hok Hfuel.
  destruct (getBotMove_total rnd b p difficulty ap Hwf Hap Hok)
    as (r & Hr & Hnone & Hsome).
  rewrite (Hr fuel Hfuel). split.
  - intros m Hvm. destruct r as [m'|].
    + specialize (Hsome m' eq_refl). rewrite Hvm in Hsome.
      by apply list_elem_of_singleton in Hsome as ->.
    + destruct Hnone as [Hnone _]. rewrite Hnone in Hvm; done.
  - intros Hvm. f_equal. by apply Hnone.
Qed.

Lemma getBotMove_forced_witness :
  (∀ m, getValidMoves chainBoard Red None = [m] →
        getBotMove pickLast (botBound chainBoard) chainBoard Red Hard None
        = Done (Some m)) ∧
  (getValidMoves chainBoard Red None = [] →
   getBotMove pickLast (botBound chainBoard) chainBoard Red Hard None = Done None).
Proof.
  apply (getBotMove_forced pickLast (botBound chainBoard) chainBoard Red Hard None).
  - apply wf_boardb_spec. reflexivity.
  - exact I.
  - apply random_ok_pickLast.
  - lia.
Defined.

(** * Properties of the game component *)

Lemma otherPlayer_flip p :
  (if bool_decide (p = Red) then Black else Red) = otherPlayer p.
Proof. reflexivity. Qed.

Lemma otherPlayer_ne p : otherPlayer p ≠ p.
Proof. unfold otherPlayer. case_bool_decide as H; [by subst|done]. Qed.

(** What [handleMoveExecution] stores, in terms of the rules engine. *)
Lemma handleMoveExecution_spec app m :
  handleMoveExecution app m =
    match executeMove (board (gameState app)) m with
    | None => None
    | Some (nb, pr) =>
        let cur := currentPlayer (gameState app) in
        if chainContinues nb cur m pr then
          Some (mkApp
                  (mkGame nb cur (checkWinner nb)
                     (turnCount (gameState app)) (Some (to m)))
                  (if bool_decide (gameMode app = PvP) || bool_decide (cur = Red)
                   then Some (to m) else selectedPos app)
                  (gameMode app) (difficulty app) (isBotThinking app))
        else
          Some (mkApp
                  (mkGame nb (otherPlayer cur) (checkWinner nb)
                     (turnCount (gameState app) + 1) None)
                  None (gameMode app) (difficulty app) (isBotThinking app))
    end.
Proof.
  unfold handleMoveExecution, chainContinues.
  destruct (executeMove _ m) as [[nb pr]|]; [|done].
  cbv zeta. rewrite otherPlayer_flip.
  destruct (isCapture m && negb pr); simpl.
  - destruct (existsb isCapture _); simpl.
    + by rewrite bool_decide_eq_true_2.
    + by rewrite bool_decide_eq_false_2 by apply otherPlayer_ne.
  - by rewrite bool_decide_eq_false_2 by apply otherPlayer_ne.
Qed.

Lemma chainContinues_spec nb cur m pr :
  chainContinues nb cur m pr = true ↔
  isCapture m = true ∧ pr = false ∧
  ∃ c, c ∈ getValidMoves nb cur (Some (to m)) ∧ isCapture c = true.
Proof.
  unfold chainContinues. destruct (isCapture m), pr; simpl;
    try (split; [done|by intros (? & ? & _)]).
  rewrite existsb_exists. split.
  - intros (c & Hc%list_elem_of_In & Hcap). repeat split. by exists c.
  - intros (_ & _ & c & Hc & Hcap). exists c. by rewrite <- list_elem_of_In.
Qed.

(** One move of the player to move keeps what holds throughout a game. *)
Lemma handleMoveExecution_inv app m :
  game_inv (gameState app) →
  m ∈ getValidMoves (board (gameState app)) (currentPlayer (gameState app))
        (activePiece (gameState app)) →
  ∃ app', handleMoveExecution app m = Some app' ∧ game_inv (gameState app').
Proof.
  intros (Hwf & Hts & Hdark & Hwin & Hcur & Hturn & HcR & HcB & Hact) Hm.
  set (gs := gameState app) in *.
  assert (active_ok (activePiece gs)) as Hap.
  { destruct (activePiece gs); [by destruct Hact|done]. }
  destruct (executeMove_squares _ _ _ m Hwf Hap Hm)
    as (piece & nb & Hp & Hown & Hex & Hwfnb & Hsq).
  pose proof (getValidMoves_legal _ _ _ m Hap Hm) as (Hf & _ & Ht & He & _).
  rewrite handleMoveExecution_spec. fold gs. rewrite Hex. cbv zeta.
  pose proof (executeMove_two_sided _ _ _ _ Hts Hex) as Hts'.
  destruct (generated_move_dark _ _ _ m nb _ Hwf Hap Hdark Hm Hex) as [_ Hdark'].
  destruct (generated_move_counts _ _ _ m nb _ Hwf Hap Hm Hex) as (_ & _ & Hcnt).
  pose proof (Hcnt Red) as HR. pose proof (Hcnt Black) as HB.
  destruct (chainContinues nb (currentPlayer gs) m _) eqn:Hchain;
    eexists; (split; [reflexivity|]); unfold game_inv;
    cbn [gameState board currentPlayer winner turnCount activePiece].
  - apply chainContinues_spec in Hchain as (_ & _ & c & Hc & Hcap).
    repeat (split; [done || lia|]).
    split; [|by exists c].
    assert (from m ≠ to m) as Hft by (intros Heq; rewrite <- Heq in He; congruence).
    rewrite Hsq by done. rewrite bool_decide_eq_false_2 by done.
    rewrite bool_decide_eq_true_2 by done. simpl.
    rewrite movedPiece_player. by apply bool_decide_eq_true_2.
  - repeat (split; [done || lia|]).
    split; [|repeat split; lia].
    unfold otherPlayer. destruct (bool_decide (currentPlayer gs = Red)); auto.
Qed.

Lemma isSamePos_spec a b : isSamePos a b = true ↔ a = b.
Proof.
  unfold isSamePos. rewrite andb_true_iff, !Z.eqb_eq.
  destruct a, b; simpl. split; [by intros [-> ->]|by intros [= -> ->]].
Qed.

Lemma validMoves_elem gs m :
  m ∈ validMoves gs →
  truthy (winner gs) = false ∧
  m ∈ getValidMoves (board gs) (currentPlayer gs) (activePiece gs).
Proof.
  unfold validMoves. destruct (truthy (winner gs)); [by intros ?%not_elem_of_nil|done].
Qed.

Lemma validDestinations_elem app m :
  m ∈ validDestinations app →
  selectedPos app = Some (from m) ∧ m ∈ validMoves (gameState app).
Proof.
  unfold validDestinations. destruct (selectedPos app) as [sel|];
    [|by intros ?%not_elem_of_nil].
  intros [Hsame%isSamePos_spec Hm]%list_elem_of_filter. by rewrite Hsame.
Qed.

(** A click either leaves the game state alone or executes a move found
    among the destinations of the selected piece. *)
Lemma handleSquareClick_cases app r c :
  (∃ app', handleSquareClick app r c = Some app' ∧
           gameState app' = gameState app) ∨
  (truthy (winner (gameState app)) = false ∧ isBotThinking app = false ∧
   isBotTurn app = false ∧
   ∃ m, m ∈ validDestinations app ∧ to m = mkPos r c ∧
        handleSquareClick app r c = handleMoveExecution app m).
Proof.
  unfold handleSquareClick.
  destruct (truthy (winner (gameState app))) eqn:Hw; simpl; [left; by eexists|].
  destruct (isBotThinking app) eqn:Hth; simpl; [left; by eexists|].
  destruct (isBotTurn app) eqn:Hbt; simpl; [left; by eexists|].
  destruct (find _ (validDestinations app)) as [m|] eqn:Hfind.
  - right. repeat (split; [done|]).
    apply find_some in Hfind as [Hin%list_elem_of_In Hto%isSamePos_spec].
    by exists m.
  - left. destruct (owned_by _ _).
    + destruct (match activePiece (gameState app) with
                | Some ap => negb (isSamePos ap (mkPos r c))
                | None => false end); by eexists.
    + destruct (activePiece (gameState app)); by eexists.
Qed.

Lemma getBotMove_elem rnd fuel b p d ap m :
  random_ok rnd → getBotMove rnd fuel b p d ap = Done (Some m) →
  m ∈ getValidMoves b p ap.
Proof.
  intros [Hidx Hperm]. unfold getBotMove.
  destruct (getValidMoves b p ap) as [|first rest]; [done|].
  destruct d.
  - intros [= Hm]. by eapply list_elem_of_lookup_2.
  - destruct (rootLoop _ _ _ _ _ _ _) as [m'| |] eqn:Hloop; try done.
    intros [= <-]. apply rootLoop_elem in Hloop as [->|Hm]; [by left|].
    by rewrite (Hperm (first :: rest)) in Hm.
  - destruct (rootLoop _ _ _ _ _ _ _) as [m'| |] eqn:Hloop; try done.
    intros [= <-]. apply rootLoop_elem in Hloop as [->|Hm]; [by left|].
    by rewrite (Hperm (first :: rest)) in Hm.
Qed.

Lemma isBotTurn_spec app :
  isBotTurn app = true ↔
  gameMode app = PvBot ∧ currentPlayer (gameState app) = Black ∧
  truthy (winner (gameState app)) = false.
Proof.
  unfold isBotTurn.
  rewrite !andb_true_iff, !bool_decide_eq_true, negb_true_iff. tauto.
Qed.

Lemma game_inv_initial : game_inv initialGameState.
Proof.
  unfold game_inv, initialGameState.
  cbn [board currentPlayer winner turnCount activePiece].
  split; [apply wf_boardb_spec; reflexivity|].
  split; [apply two_sidedb_spec; reflexivity|].
  split; [apply dark_onlyb_spec; reflexivity|].
  split; [vm_compute; reflexivity|]. split; [left; reflexivity|]. split; [lia|].
  split; [vm_compute; discriminate|]. split; [vm_compute; discriminate|exact I].
Qed.

(** Every reachable state satisfies [game_inv]. *)
Lemma reachable_inv app : reachable app → game_inv (gameState app).
Proof.
  induction 1 as [sel mode diff thinking
                 |app r c app' _ IH Hv Hclick
                 |rnd fuel app app' _ IH Hrnd Hturn Hbot
                 |app _ IH
                 |app mode diff thinking _ IH].
  - apply game_inv_initial.
  - destruct (handleSquareClick_cases app r c)
      as [(app1 & Heq & Hsame)|(_ & _ & _ & m & Hm & _ & Heq)].
    + rewrite Heq in Hclick. injection Hclick as <-. by rewrite Hsame.
    + rewrite Heq in Hclick.
      apply validDestinations_elem in Hm as [_ [_ Hm]%validMoves_elem].
      destruct (handleMoveExecution_inv app m IH Hm) as (app1 & Hex & Hinv).
      rewrite Hex in Hclick. by injection Hclick as <-.
  - unfold botStep in Hbot.
    remember (getBotMove rnd fuel (board (gameState app)) Black (difficulty app)
                (activePiece (gameState app))) as res eqn:Hmove.
    symmetry in Hmove. destruct res as [[m|]| |].
    + apply (getBotMove_elem _ _ _ _ _ _ _ Hrnd) in Hmove.
      apply isBotTurn_spec in Hturn as (_ & Hcur & _). rewrite <- Hcur in Hmove.
      destruct (handleMoveExecution_inv app m IH Hmove) as (app1 & Hex & Hinv).
      rewrite Hex in Hbot. injection Hbot as <-. exact Hinv.
    + injection Hbot as <-. exact IH.
    + discriminate Hbot.
    + discriminate Hbot.
  - apply game_inv_initial.
  - exact IH.
Qed.



(** X12. Throughout a game, in every state the component can reach from
    the initial state by clicks on squares, moves of the bot, resets and
    changes of settings: the board is an 8x8 grid whose pieces all belong to
    Red or Black and all stand on dark squares, each side has at most eight
    pieces, the winner stored is the one [checkWinner] finds on the board, the
    player to move is Red or Black, the turn counter is at least 1, and an
    active piece, if there is one, is a piece of the player to move that has
    a capture. *)
Theorem reachable_states_sound (app : AppState) :
  reachable app →
  wf_board (board (gameState app)) ∧
  two_sided (board (gameState app)) ∧
  dark_only (board (gameState app)) ∧
  countPieces (board (gameState app)) Red <= 8 ∧
  countPieces (board (gameState app)) Black <= 8 ∧
  winner (gameState app) = checkWinner (board (gameState app)) ∧
  (currentPlayer (gameState app) = Red ∨ currentPlayer (gameState app) = Black) ∧
  1 <= turnCount (gameState app) ∧
  ∀ pos, activePiece (gameState app) = Some pos →
    pos_in_bounds pos ∧
    owned_by (currentPlayer (gameState app)) (at_sq (board (gameState app)) pos)
      = true ∧
    ∃ c, c ∈ getValidMoves (board (gameState app))
               (currentPlayer (gameState app)) (Some pos) ∧
         isCapture c = true ∧ from c = pos.
Proof.
  intros (Hwf & Hts & Hdark & Hwin & Hcur & Hturn & HcR & HcB & Hact)%reachable_inv.
  repeat (split; [done|]).
  intros pos Hpos. rewrite Hpos in Hact. destruct Hact as (Hv & Hown & c & Hc & Hcap).
  repeat (split; [done|]). exists c. repeat (split; [done|]).
  apply getValidMoves_subset, gatherMoves_active in Hc as (piece & _ & _ & Hc).
  by eapply getPieceMoves_from.
Qed.

Lemma reachable_states_sound_witness :
  wf_board (board (gameState initialApp)) ∧
  two_sided (board (gameState initialApp)) ∧
  dark_only (board (gameState initialApp)) ∧
  countPieces (board (gameState initialApp)) Red <= 8 ∧
  countPieces (board (gameState initialApp)) Black <= 8 ∧
  winner (gameState initialApp) = checkWinner (board (gameState initialApp)) ∧
  (currentPlayer (gameState initialApp) = Red ∨
   currentPlayer (gameState initialApp) = Black) ∧
  1 <= turnCount (gameState initialApp) ∧
  ∀ pos, activePiece (gameState initialApp) = Some pos →
    pos_in_bounds pos ∧
    owned_by (currentPlayer (gameState initialApp))
      (at_sq (board (gameState initialApp)) pos) = true ∧
    ∃ c, c ∈ getValidMoves (board (gameState initialApp))
               (currentPlayer (gameState initialApp)) (Some pos) ∧
         isCapture c = true ∧ from c = pos.
Proof.
  apply (reachable_states_sound initialApp). apply reach_init.
Defined.

(** X13. No handler throws during a game: in every reachable state, a click
    on any square of the board returns a state ([executeMove] is only ever
    called with a move whose [from] square is occupied), and on the bot's turn
    the bot step, with a budget of [botBound] or more and whatever
    [Math.random] draws, returns a state with the thinking flag cleared. *)
Theorem handlers_never_throw (app : AppState) :
  reachable app →
  (∀ r c, isValidPos r c = true →
     ∃ app', handleSquareClick app r c = Some app' ∧ reachable app') ∧
  (∀ rnd fuel, random_ok rnd → isBotTurn app = true →
     (botBound (board (gameState app)) <= fuel)%nat →
     ∃ app', botStep rnd fuel app = Done app' ∧ isBotThinking app' = false ∧
             reachable app').
Proof.
  intros Hreach. pose proof (reachable_inv app Hreach) as Hinv. split.
  - intros r c Hv.
    destruct (handleSquareClick_cases app r c)
      as [(app1 & Heq & Hsame)|(_ & _ & _ & m & Hm & _ & Heq)].
    + exists app1. split; [done|]. by eapply reach_click.
    + apply validDestinations_elem in Hm as [_ [_ Hm]%validMoves_elem].
      destruct (handleMoveExecution_inv app m Hinv Hm) as (app1 & Hex & _).
      exists app1. rewrite Heq. split; [done|].
      eapply reach_click; [done|done|]. by rewrite Heq.
  - intros rnd fuel Hrnd Hturn Hfuel.
    pose proof Hinv as (Hwf & _ & _ & _ & _ & _ & _ & _ & Hact).
    assert (active_ok (activePiece (gameState app))) as Hap.
    { destruct (activePiece (gameState app)); [by destruct Hact|exact I]. }
    destruct (getBotMove_total rnd (board (gameState app)) Black (difficulty app)
                (activePiece (gameState app)) Hwf Hap Hrnd)
      as (res & Hres & _ & Hsome).
    specialize (Hres fuel Hfuel).
    assert (∃ app', botStep rnd fuel app = Done app' ∧ isBotThinking app' = false)
      as (app1 & Hstep & Hth).
    { unfold botStep. rewrite Hres. destruct res as [m|].
      - specialize (Hsome m eq_refl).
        pose proof Hturn as (_ & Hcur & _)%isBotTurn_spec. rewrite <- Hcur in Hsome.
        destruct (handleMoveExecution_inv app m Hinv Hsome) as (app1 & -> & _).
        by eexists.
      - by eexists. }
    exists app1. split; [done|]. split; [done|]. by eapply reach_bot.
Qed.

Lemma handlers_never_throw_witness :
  (∀ r c, isValidPos r c = true →
     ∃ app', handleSquareClick initialApp r c = Some app' ∧ reachable app') ∧
  (∀ rnd fuel, random_ok rnd → isBotTurn initialApp = true →
     (botBound (board (gameState initialApp)) <= fuel)%nat →
     ∃ app', botStep rnd fuel initialApp = Done app' ∧ isBotThinking app' = false ∧
             reachable app').
Proof.
  apply (handlers_never_throw initialApp). apply reach_init.
Defined.

(** X14. A click changes the game only by a legal move: if the game state
    after a click differs from the one before, then the game was not won,
    the bot was neither thinking nor to move, a piece was selected, and the
    state is the result of executing a move that [getValidMoves] offers the
    player to move, from the selected square to the clicked square. *)
Theorem click_plays_legal_move (app : AppState) (r c : Z) (app' : AppState) :
  handleSquareClick app r c = Some app' →
  gameState app' ≠ gameState app →
  truthy (winner (gameState app)) = false ∧
  isBotThinking app = false ∧ isBotTurn app = false ∧
  ∃ m, selectedPos app = Some (from m) ∧ to m = mkPos r c ∧
       m ∈ getValidMoves (board (gameState app)) (currentPlayer (gameState app))
             (activePiece (gameState app)) ∧
       handleMoveExecution app m = Some app'.
Proof.
  intros Hclick Hchange.
  destruct (handleSquareClick_cases app r c)
    as [(app1 & Heq & Hsame)|(Hw & Hth & Hbt & m & Hm & Hto & Heq)].
  - rewrite Heq in Hclick. injection Hclick as <-. done.
  - repeat (split; [done|]). exists m.
    apply validDestinations_elem in Hm as [Hsel [_ Hm]%validMoves_elem].
    repeat (split; [done|]). by rewrite <- Heq.
Qed.

Lemma click_plays_legal_move_witness :
  truthy (winner (gameState chainApp)) = false ∧
  isBotThinking chainApp = false ∧ isBotTurn chainApp = false ∧
  ∃ m, selectedPos chainApp = Some (from m) ∧ to m = mkPos 3 1 ∧
       m ∈ getValidMoves (board (gameState chainApp))
             (currentPlayer (gameState chainApp))
             (activePiece (gameState chainApp)) ∧
       handleMoveExecution chainApp m = Some afterJump.
Proof.
  apply (click_plays_legal_move chainApp 3 1 afterJump).
  - vm_compute. reflexivity.
  - vm_compute. discriminate.
Defined.

(** * Alpha-beta pruning against the exhaustive search *)

(** ** The order of the scores *)

Lemma num_le_true a b :
  num_le a b = true ↔ rank a < rank b ∨ (rank a = rank b ∧ val a ≤ val b).
Proof. destruct a, b; simpl; rewrite ?Z.leb_le; split; intros; try done; lia. Qed.

Lemma num_le_false a b :
  num_le a b = false ↔ rank b < rank a ∨ (rank a = rank b ∧ val b < val a).
Proof. destruct a, b; simpl; rewrite ?Z.leb_gt; split; intros; try done; lia. Qed.

Lemma num_eq a b : a = b ↔ rank a = rank b ∧ val a = val b.
Proof.
  split; [by intros ->|]. destruct a, b; simpl; intros [? ?]; try done.
  by f_equal.
Qed.

Lemma rank_range a : -1 ≤ rank a ≤ 1 ∧ (rank a ≠ 0 → val a = 0).
Proof. destruct a; simpl; lia. Qed.

Ltac num_solve :=
  unfold within, num_max, num_min in *; intros;
  repeat match goal with
         | |- context [if num_le ?a ?b then _ else _] => destruct (num_le a b) eqn:?
         | H : context [if num_le ?a ?b then _ else _] |- _ =>
             destruct (num_le a b) eqn:?
         end;
  rewrite ?num_le_true, ?num_le_false, ?num_eq in *;
  repeat match goal with
         | x : num |- _ =>
             pose proof (rank_range x); generalize dependent (rank x);
             generalize dependent (val x); clear x; intros
         end;
  lia.

Lemma num_max_assoc a b c : num_max (num_max a b) c = num_max a (num_max b c).
Proof. num_solve. Qed.

Lemma max_end a0 beta M P :
  num_le beta (num_max a0 M) = false → num_le P M = true →
  (num_le M a0 = false → P = M) → within a0 beta P M.
Proof. num_solve. Qed.

Lemma cut_ge a0 beta M r :
  num_le beta (num_max a0 M) = false →
  num_le beta (num_max (num_max a0 M) r) = true →
  num_le beta r = true ∧ num_max M r = r ∧ num_le r a0 = false.
Proof. num_solve. Qed.

Lemma within_high a0 beta r vfin :
  num_le beta r = true → num_le r vfin = true → num_le r a0 = false →
  within a0 beta vfin r.
Proof. num_solve. Qed.

Lemma go_lt A beta r :
  num_le beta (num_max A r) = false → num_le beta r = false.
Proof. num_solve. Qed.

Lemma num_max_mono a b c d :
  num_le a b = true → num_le c d = true →
  num_le (num_max a c) (num_max b d) = true.
Proof. num_solve. Qed.

Lemma num_max_absorb a b : num_le b a = true → num_max a b = a.
Proof. num_solve. Qed.

Lemma low_le a0 M r :
  num_le r (num_max a0 M) = true → num_le M a0 = true →
  num_le (num_max M r) a0 = true.
Proof. num_solve. Qed.

Lemma low_le' a0 M r :
  num_le r (num_max a0 M) = true → num_le M a0 = false → num_le r M = true.
Proof. num_solve. Qed.

Lemma go_low a0 M P v r :
  num_le r (num_max a0 M) = true → num_le v r = true →
  num_le P M = true → (num_le M a0 = false → P = M) →
  num_le (num_max P v) (num_max M r) = true ∧
  (num_le (num_max M r) a0 = false → num_max P v = num_max M r).
Proof.
  intros Hr Hv HP HPM. split; [by apply num_max_mono|].
  destruct (num_le M a0) eqn:HM.
  - rewrite (low_le _ _ _ Hr HM). done.
  - intros _. rewrite (HPM eq_refl).
    pose proof (low_le' _ _ _ Hr HM) as HrM.
    rewrite !num_max_absorb; eauto using num_le_trans.
Qed.

Lemma go_high a0 M P r :
  num_le r (num_max a0 M) = false → num_le P M = true →
  num_le (num_max P r) (num_max M r) = true ∧
  (num_le (num_max M r) a0 = false → num_max P r = num_max M r).
Proof. num_solve. Qed.

Lemma num_max_NegInf a : num_max a NegInf = a.
Proof. by destruct a. Qed.

Lemma num_le_max_r a b : num_le b (num_max a b) = true.
Proof. num_solve. Qed.

Lemma num_le_refl a : num_le a a = true.
Proof. num_solve. Qed.

Lemma num_le_max_l a b : num_le a (num_max a b) = true.
Proof. num_solve. Qed.

Lemma within_refl a b v : within a b v v.
Proof. num_solve. Qed.

Lemma within_full v r : within NegInf PosInf v r → r = v.
Proof.
  intros (H1 & H2 & H3). destruct r; [symmetry|by apply H3|symmetry].
  - specialize (H1 eq_refl). by destruct v.
  - specialize (H2 eq_refl). by destruct v.
Qed.

Lemma num_min_assoc a b c : num_min (num_min a b) c = num_min a (num_min b c).
Proof. num_solve. Qed.

Lemma num_min_PosInf a : num_min a PosInf = a.
Proof. by destruct a. Qed.

Lemma num_le_min_l a b : num_le (num_min a b) a = true.
Proof. num_solve. Qed.

Lemma num_le_min_r a b : num_le (num_min a b) b = true.
Proof. num_solve. Qed.

Lemma num_min_mono a b c d :
  num_le a b = true → num_le c d = true →
  num_le (num_min a c) (num_min b d) = true.
Proof. num_solve. Qed.

Lemma num_min_absorb a b : num_le a b = true → num_min a b = a.
Proof. num_solve. Qed.

Lemma min_end alpha b0 m P :
  num_le (num_min b0 m) alpha = false → num_le m P = true →
  (num_le b0 m = false → P = m) → within alpha b0 P m.
Proof. num_solve. Qed.

Lemma cut_le alpha b0 m r :
  num_le (num_min b0 m) alpha = false →
  num_le (num_min (num_min b0 m) r) alpha = true →
  num_le r alpha = true ∧ num_min m r = r ∧ num_le b0 r = false.
Proof. num_solve. Qed.

Lemma within_low alpha b0 r vfin :
  num_le r alpha = true → num_le vfin r = true → num_le b0 r = false →
  within alpha b0 vfin r.
Proof. num_solve. Qed.

Lemma go_gt alpha B r :
  num_le (num_min B r) alpha = false → num_le r alpha = false.
Proof. num_solve. Qed.

Lemma high_le b0 m r :
  num_le (num_min b0 m) r = true → num_le b0 m = true →
  num_le b0 (num_min m r) = true.
Proof. num_solve. Qed.

Lemma high_le' b0 m r :
  num_le (num_min b0 m) r = true → num_le b0 m = false → num_le m r = true.
Proof. num_solve. Qed.

Lemma min_go_high b0 m P v r :
  num_le (num_min b0 m) r = true → num_le r v = true →
  num_le m P = true → (num_le b0 m = false → P = m) →
  num_le (num_min m r) (num_min P v) = true ∧
  (num_le b0 (num_min m r) = false → num_min P v = num_min m r).
Proof.
  intros Hr Hv HP HPm. split; [by apply num_min_mono|].
  destruct (num_le b0 m) eqn:Hm.
  - rewrite (high_le _ _ _ Hr Hm). done.
  - intros _. rewrite (HPm eq_refl).
    pose proof (high_le' _ _ _ Hr Hm) as Hmr.
    rewrite !num_min_absorb; eauto using num_le_trans.
Qed.

Lemma min_go_low b0 m P r :
  num_le (num_min b0 m) r = false → num_le m P = true →
  num_le (num_min m r) (num_min P r) = true ∧
  (num_le b0 (num_min m r) = false → num_min P r = num_min m r).
Proof. num_solve. Qed.

(** ** The loops of a node *)

Section AlphaBeta.

Variable rec : Board → Z → num → num → bool → option Position → outcome num.
Variable prec : Board → Z → bool → option Position → outcome num.

Hypothesis rec_within : ∀ nb d a b' mx ap v,
  num_le b' a = false → prec nb d mx ap = Done v →
  ∃ r, rec nb d a b' mx ap = Done r ∧ within a b' v r.

Lemma searchChild_within board depth a b' mx cur m v :
  num_le b' a = false → plainChild prec board depth mx cur m = Done v →
  ∃ r, searchChild rec board depth a b' mx cur m = Done r ∧ within a b' v r.
Proof.
  unfold plainChild, searchChild. intros Hw.
  destruct (executeMove board m) as [[nb pr]|]; [|done].
  destruct (chainContinues nb cur m pr); by apply rec_within.
Qed.

Lemma plainMax_ge board depth cur moves P vfin :
  plainMax prec board depth cur moves P = Done vfin → num_le P vfin = true.
Proof.
  revert P. induction moves as [|m moves IH]; intros P; simpl.
  - intros [= <-]. apply num_le_refl.
  - destruct (plainChild prec board depth true cur m) as [e| |]; [|done|done].
    intros H%IH. eapply num_le_trans; [apply num_le_max_l|done].
Qed.

Lemma plainMin_le board depth cur moves P vfin :
  plainMin prec board depth cur moves P = Done vfin → num_le vfin P = true.
Proof.
  revert P. induction moves as [|m moves IH]; intros P; simpl.
  - intros [= <-]. apply num_le_refl.
  - destruct (plainChild prec board depth false cur m) as [e| |]; [|done|done].
    intros H%IH. eapply num_le_trans; [done|apply num_le_min_l].
Qed.

Lemma maxLoop_within board depth cur a0 beta moves M P vfin :
  num_le beta (num_max a0 M) = false → num_le P M = true →
  (num_le M a0 = false → P = M) →
  plainMax prec board depth cur moves P = Done vfin →
  ∃ res, maxLoop rec board depth cur moves M (num_max a0 M) beta = Done res ∧
         within a0 beta vfin res.
Proof.
  revert M P. induction moves as [|m moves IH]; intros M P Hw HP HPM; simpl.
  - intros [= <-]. exists M. split; [done|]. by apply max_end.
  - destruct (plainChild prec board depth true cur m) as [e| |] eqn:He;
      [|done|done].
    intros Hfin.
    destruct (searchChild_within _ _ _ _ _ _ _ _ Hw He) as (r & -> & Hr).
    destruct (num_le beta (num_max (num_max a0 M) r)) eqn:Hcut.
    + exists (num_max M r). split; [done|].
      destruct (cut_ge _ _ _ _ Hw Hcut) as (Hbr & -> & Hra).
      destruct Hr as (_ & Hhigh & _). specialize (Hhigh Hbr).
      apply within_high; [done| |done].
      apply plainMax_ge in Hfin.
      eapply num_le_trans; [exact Hhigh|].
      eapply num_le_trans; [apply (num_le_max_r P)|done].
    + rewrite num_max_assoc in Hcut |- *.
      destruct (num_le r (num_max a0 M)) eqn:Hlow.
      * destruct Hr as (Hle & _ & _). specialize (Hle Hlow).
        destruct (go_low a0 M P e r Hlow Hle HP HPM) as [H1 H2].
        by apply (IH _ (num_max P e)).
      * rewrite <- num_max_assoc in Hcut. pose proof (go_lt _ _ _ Hcut) as Hlt.
        rewrite num_max_assoc in Hcut.
        destruct Hr as (_ & _ & Heq). specialize (Heq Hlow Hlt). subst e.
        destruct (go_high a0 M P r Hlow HP) as [H1 H2].
        by apply (IH _ (num_max P r)).
Qed.

Lemma minLoop_within board depth cur alpha b0 moves m0 P vfin :
  num_le (num_min b0 m0) alpha = false → num_le m0 P = true →
  (num_le b0 m0 = false → P = m0) →
  plainMin prec board depth cur moves P = Done vfin →
  ∃ res, minLoop rec board depth cur moves m0 alpha (num_min b0 m0) = Done res ∧
         within alpha b0 vfin res.
Proof.
  revert m0 P. induction moves as [|m moves IH]; intros m0 P Hw HP HPm; simpl.
  - intros [= <-]. exists m0. split; [done|]. by apply min_end.
  - destruct (plainChild prec board depth false cur m) as [e| |] eqn:He;
      [|done|done].
    intros Hfin.
    destruct (searchChild_within _ _ _ _ _ _ _ _ Hw He) as (r & -> & Hr).
    destruct (num_le (num_min (num_min b0 m0) r) alpha) eqn:Hcut.
    + exists (num_min m0 r). split; [done|].
      destruct (cut_le _ _ _ _ Hw Hcut) as (Hra & -> & Hbr).
      destruct Hr as (Hlow & _ & _). specialize (Hlow Hra).
      apply within_low; [done| |done].
      apply plainMin_le in Hfin.
      eapply num_le_trans; [exact Hfin|].
      eapply num_le_trans; [apply (num_le_min_r P)|done].
    + rewrite num_min_assoc in Hcut |- *.
      destruct (num_le (num_min b0 m0) r) eqn:Hhigh.
      * destruct Hr as (_ & Hge & _). specialize (Hge Hhigh).
        destruct (min_go_high b0 m0 P e r Hhigh Hge HP HPm) as [H1 H2].
        by apply (IH _ (num_min P e)).
      * rewrite <- num_min_assoc in Hcut. pose proof (go_gt _ _ _ Hcut) as Hgt.
        rewrite num_min_assoc in Hcut.
        destruct Hr as (_ & _ & Heq). specialize (Heq Hgt Hhigh). subst e.
        destruct (min_go_low b0 m0 P r Hhigh HP) as [H1 H2].
        by apply (IH _ (num_min P r)).
Qed.

End AlphaBeta.

Lemma minimax_within fuel p b depth alpha beta mx ap v :
  num_le beta alpha = false →
  exhaustive fuel b depth mx p ap = Done v →
  ∃ r, minimax fuel b depth alpha beta mx p ap = Done r ∧ within alpha beta v r.
Proof.
  revert b depth alpha beta mx ap v.
  induction fuel as [|fuel IH]; intros b depth alpha beta mx ap v Hw; [done|].
  rewrite minimax_S. cbn [exhaustive]. cbv zeta.
  destruct ((depth =? 0) || truthy (checkWinner b)).
  { intros [= <-]. eexists. split; [done|apply within_refl]. }
  destruct (Z.of_nat (length _) =? 0).
  { intros [= <-]. eexists. split; [done|apply within_refl]. }
  destruct mx.
  - intros Hfin.
    pose proof (maxLoop_within
      (λ nb d a b' mx ap, minimax fuel nb d a b' mx p ap)
      (λ nb d mx ap, exhaustive fuel nb d mx p ap)
      (λ nb d a b' mx ap v, IH nb d a b' mx ap v)
      b depth p alpha beta (getValidMoves b p ap) NegInf NegInf v) as H.
    rewrite num_max_NegInf in H. by apply H.
  - intros Hfin.
    pose proof (minLoop_within
      (λ nb d a b' mx ap, minimax fuel nb d a b' mx p ap)
      (λ nb d mx ap, exhaustive fuel nb d mx p ap)
      (λ nb d a b' mx ap v, IH nb d a b' mx ap v)
      b depth (otherPlayer p) alpha beta (getValidMoves b (otherPlayer p) ap)
      PosInf PosInf v) as H.
    rewrite num_min_PosInf in H. by apply H.
Qed.

(** ** The exhaustive search terminates *)

Section ExhaustiveTotal.

Variable prec : Board → Z → bool → option Position → outcome num.
Variables (board : Board) (depth : Z) (cur : Player) (mx : bool).
Variable moves : list Move.

Hypothesis child_total : ∀ m,
  m ∈ moves → ∃ z, plainChild prec board depth mx cur m = Done (Fin z).

Lemma plainMax_total ms maxEval :
  mx = true → ms ⊆ moves →
  is_fin maxEval ∨ (maxEval = NegInf ∧ ms ≠ []) →
  ∃ z, plainMax prec board depth cur ms maxEval = Done (Fin z).
Proof.
  intros Hmx. revert maxEval.
  induction ms as [|m ms IH]; intros maxEval Hsub Hinit; simpl.
  - destruct Hinit as [Hfin|[_ ?]]; [|done]. apply is_fin_inv in Hfin as [z ->].
    by exists z.
  - destruct (child_total m) as [z Hz]; [apply Hsub; left|].
    rewrite Hmx in Hz. rewrite Hz.
    apply IH; [intros x Hx; apply Hsub; by right|]. left.
    apply num_max_fin. destruct Hinit as [Hf|[-> _]]; [|done]. by destruct maxEval.
Qed.

Lemma plainMin_total ms minEval :
  mx = false → ms ⊆ moves →
  is_fin minEval ∨ (minEval = PosInf ∧ ms ≠ []) →
  ∃ z, plainMin prec board depth cur ms minEval = Done (Fin z).
Proof.
  intros Hmx. revert minEval.
  induction ms as [|m ms IH]; intros minEval Hsub Hinit; simpl.
  - destruct Hinit as [Hfin|[_ ?]]; [|done]. apply is_fin_inv in Hfin as [z ->].
    by exists z.
  - destruct (child_total m) as [z Hz]; [apply Hsub; left|].
    rewrite Hmx in Hz. rewrite Hz.
    apply IH; [intros x Hx; apply Hsub; by right|]. left.
    apply num_min_fin. destruct Hinit as [Hf|[-> _]]; [|done]. by destruct minEval.
Qed.

End ExhaustiveTotal.

Lemma plainChild_total n p board depth mx cur m :
  (∀ b d mx' ap,
     wf_board b → 0 <= d → active_ok ap → (searchBound d b <= n)%nat →
     ∃ z, exhaustive n b d mx' p ap = Done (Fin z)) →
  wf_board board → 1 <= depth → (searchBound depth board <= S n)%nat →
  legal_shape board cur m →
  ∃ z, plainChild (λ nb d mx' ap', exhaustive n nb d mx' p ap')
         board depth mx cur m = Done (Fin z).
Proof.
  intros IH Hwf Hdepth Hbound Hlegal.
  destruct (executeMove_legal board cur m Hwf Hlegal)
    as (nb & pr & Hex & Hwfnb & Hcount & Hpos).
  unfold plainChild. rewrite Hex.
  pose proof (pieceCount_le nb Hwfnb) as Hle.
  destruct (chainContinues nb cur m pr) eqn:Hchain.
  - apply chainContinues_capture in Hchain.
    rewrite Hchain in Hcount. specialize (Hpos Hchain).
    apply IH; [done|lia| |].
    + destruct Hlegal as (_ & _ & Hto & _). done.
    + unfold searchBound in *. lia.
  - apply IH; [done|lia|done|]. unfold searchBound in *. lia.
Qed.

Lemma exhaustive_total n p :
  ∀ b depth mx ap,
    wf_board b → 0 <= depth → active_ok ap → (searchBound depth b <= n)%nat →
    ∃ z, exhaustive n b depth mx p ap = Done (Fin z).
Proof.
  induction n as [|n IH]; intros b depth mx ap Hwf Hdepth Hap Hbound.
  { unfold searchBound in Hbound. lia. }
  cbn [exhaustive]. cbv zeta.
  destruct (depth =? 0) eqn:Hd0; simpl; [by eexists|].
  destruct (truthy (checkWinner b)); [by eexists|].
  apply Z.eqb_neq in Hd0.
  destruct (Z.of_nat (length _) =? 0) eqn:Hlen; [by eexists|].
  assert (getValidMoves b (if mx then p else otherPlayer p) ap ≠ []) as Hne.
  { intros Hnil. rewrite Hnil in Hlen. done. }
  assert (∀ m,
    m ∈ getValidMoves b (if mx then p else otherPlayer p) ap →
    ∃ z, plainChild (λ nb d mx' ap', exhaustive n nb d mx' p ap')
           b depth mx (if mx then p else otherPlayer p) m
         = Done (Fin z)) as Hchild.
  { intros m Hm.
    apply plainChild_total; [done|done|lia|done|].
    by apply (getValidMoves_legal b _ ap). }
  destruct mx.
  - eapply plainMax_total; [apply Hchild|done|done|by right].
  - eapply plainMin_total; [apply Hchild|done|done|by right].
Qed.

Lemma alpha_beta_exact fuel p b depth mx ap :
  wf_board b → 0 <= depth → active_ok ap → (searchBound depth b <= fuel)%nat →
  ∃ z, exhaustive fuel b depth mx p ap = Done (Fin z) ∧
       minimax fuel b depth NegInf PosInf mx p ap = Done (Fin z).
Proof.
  intros Hwf Hdepth Hap Hfuel.
  destruct (exhaustive_total fuel p b depth mx ap Hwf Hdepth Hap Hfuel) as [z Hz].
  exists z. split; [done|].
  destruct (minimax_within fuel p b depth NegInf PosInf mx ap (Fin z))
    as (r & Hr & Hin); [done|done|].
  apply within_full in Hin. by rewrite Hr, Hin.
Qed.

(** X15. Alpha-beta pruning does not change the value of the search. On an
    8x8 board, with a depth that is not negative and a budget of
    [searchBound depth b] or more, the search that visits every node
    ([exhaustive], the loops of [minimax] without the [break]) ends with a
    finite value [z]; [minimax] with the full window [-Infinity, Infinity]
    returns exactly [z]; and with any window [alpha < beta] it returns an [r]
    that equals [z] when it lies strictly inside the window, is an upper
    bound of [z] when [r <= alpha], and a lower bound of [z] when
    [beta <= r]. *)
Theorem alpha_beta_sound (fuel : nat) (b : Board) (depth : Z) (mx : bool)
    (p : Player) (ap : option Position) :
  wf_board b → 0 <= depth → active_ok ap → (searchBound depth b <= fuel)%nat →
  ∃ z, exhaustive fuel b depth mx p ap = Done (Fin z) ∧
       minimax fuel b depth NegInf PosInf mx p ap = Done (Fin z) ∧
       ∀ alpha beta, num_le beta alpha = false →
         ∃ r, minimax fuel b depth alpha beta mx p ap = Done r ∧
              (num_le r alpha = true → num_le (Fin z) r = true) ∧
              (num_le beta r = true → num_le r (Fin z) = true) ∧
              (num_le r alpha = false → num_le beta r = false → r = Fin z).
Proof.
  intros Hwf Hdepth Hap Hfuel.
  destruct (exhaustive_total fuel p b depth mx ap Hwf Hdepth Hap Hfuel) as [z Hz].
  exists z. split; [done|]. split.
  - destruct (alpha_beta_exact fuel p b depth mx ap Hwf Hdepth Hap Hfuel)
      as (z' & Hz' & Hr). rewrite Hz in Hz'. by injection Hz' as <-.
  - intros alpha beta Hw.
    destruct (minimax_within fuel p b depth alpha beta mx ap (Fin z) Hw Hz)
      as (r & Hr & Hin).
    exists r. split; [done|exact Hin].
Qed.

Lemma alpha_beta_sound_witness :
  ∃ z, exhaustive 200 createInitialBoard 2 true Black None = Done (Fin z) ∧
       minimax 200 createInitialBoard 2 NegInf PosInf true Black None
         = Done (Fin z) ∧
       ∀ alpha beta, num_le beta alpha = false →
         ∃ r, minimax 200 createInitialBoard 2 alpha beta true Black None
                = Done r ∧
              (num_le r alpha = true → num_le (Fin z) r = true) ∧
              (num_le beta r = true → num_le r (Fin z) = true) ∧
              (num_le r alpha = false → num_le beta r = false → r = Fin z).
Proof.
  apply (alpha_beta_sound 200 createInitialBoard 2 true Black None).
  - apply wf_boardb_spec. reflexivity.
  - lia.
  - exact I.
  - vm_compute. lia.
Defined.

(** X16. The scores the root loop of [getBotMove] compares are exact: on an
    8x8 board, for a legal move of the bot and a depth of at least 1, with a
    budget above [searchBound depth b], the score the pruned search gives
    the move is the value of the exhaustive search below it. *)
Theorem root_scores_exact (fuel : nat) (b : Board) (bot : Player) (depth : Z)
    (ap : option Position) (m : Move) :
  wf_board b → active_ok ap → 1 <= depth →
  (searchBound depth b < fuel)%nat →
  m ∈ getValidMoves b bot ap →
  ∃ z, plainScore fuel b bot depth m = Done (Fin z) ∧
       rootScore fuel b bot depth m = Done (Fin z).
Proof.
  intros Hwf Hap Hdepth Hfuel Hm.
  pose proof (getValidMoves_legal b bot ap m Hap Hm) as Hlegal.
  destruct (executeMove_legal b bot m Hwf Hlegal)
    as (nb & pr & Hex & Hwfnb & Hcount & Hpos).
  pose proof (pieceCount_le nb Hwfnb) as Hle.
  unfold plainScore, rootScore, plainChild, searchChild. rewrite Hex.
  destruct (chainContinues nb bot m pr) eqn:Hchain.
  - apply chainContinues_capture in Hchain.
    rewrite Hchain in Hcount. specialize (Hpos Hchain).
    destruct (alpha_beta_exact fuel bot nb depth true (Some (to m)))
      as (z & Hz & Hr); [done|lia| |unfold searchBound in *; lia|by exists z].
    by destruct Hlegal as (_ & _ & Hto & _).
  - destruct (alpha_beta_exact fuel bot nb (depth - 1) false None)
      as (z & Hz & Hr); [done|lia|done|unfold searchBound in *; lia|by exists z].
Qed.

Lemma root_scores_exact_witness :
  ∃ z, plainScore 200 createInitialBoard Black 2 (slide (mkPos 1 0) 2 1)
         = Done (Fin z) ∧
       rootScore 200 createInitialBoard Black 2 (slide (mkPos 1 0) 2 1)
         = Done (Fin z).
Proof.
  apply (root_scores_exact 200 createInitialBoard Black 2 None
           (slide (mkPos 1 0) 2 1)).
  - apply wf_boardb_spec. reflexivity.
  - exact I.
  - lia.
  - vm_compute. lia.
  - vm_compute. left.
Defined.

(** * The evaluation against the piece counts *)

Lemma eval_cell_weight p r o score :
  eval_cell p r o score = score + cellWeight p r o.
Proof.
  unfold cellWeight, eval_cell. destruct o as [[pl ty]|]; simpl; [|lia].
  destruct (bool_decide (pl = p)), ty; lia.
Qed.

Lemma materialScore_sum b p :
  materialScore b p =
    sumZ (λ r, sumZ (λ c, cellWeight p r (sq b r c)) indices) indices.
Proof.
  unfold materialScore.
  rewrite (fold_left_ext_all _
             (λ acc r, acc + sumZ (λ c, cellWeight p r (sq b r c)) indices)).
  - by rewrite fold_add_shift.
  - intros acc r.
    rewrite (fold_left_ext_all _ (λ acc c, acc + cellWeight p r (sq b r c))).
    + apply fold_add_shift.
    + intros a c. apply eval_cell_weight.
Qed.

Lemma sumZ_le w w' l : (∀ x, x ∈ l → w x <= w' x) → sumZ w l <= sumZ w' l.
Proof.
  induction l as [|x l IH]; intros H; [done|].
  rewrite !sumZ_cons.
  assert (w x <= w' x) by (apply H; by left).
  assert (sumZ w l <= sumZ w' l) by (apply IH; intros y Hy; apply H; by right).
  lia.
Qed.

Lemma sumZ_lin a c f g l :
  sumZ (λ x, a * f x + c * g x) l = a * sumZ f l + c * sumZ g l.
Proof.
  induction l as [|x l IH]; [unfold sumZ; simpl; lia|].
  rewrite !sumZ_cons, IH. lia.
Qed.

Lemma indices_range r : r ∈ indices → 0 <= r <= 7.
Proof. unfold indices. rewrite !elem_of_cons, elem_of_nil. lia. Qed.

(** A piece of the player counts between 100 and 300, a piece of the other
    side between -300 and -100. *)
Lemma cellWeight_bounds p r o :
  p = Red ∨ p = Black → cell_two_sided o = true → 0 <= r <= 7 →
  100 * bz (owned_by p o) - 300 * bz (owned_by (otherPlayer p) o)
    <= cellWeight p r o
    <= 300 * bz (owned_by p o) - 100 * bz (owned_by (otherPlayer p) o).
Proof.
  intros Hp Hts Hr. unfold cellWeight, eval_cell, SCORES_MAN, SCORES_KING.
  destruct o as [[pl ty]|]; simpl in *; [|lia].
  destruct Hp as [-> | ->]; destruct pl, ty; simpl in *; try done; lia.
Qed.

Lemma two_sided_cell b r c : two_sided b → cell_two_sided (sq b r c) = true.
Proof.
  intros Hts. destruct (sq b r c) as [piece|] eqn:Hsq; [|done].
  simpl. apply negb_true_iff, bool_decide_eq_false.
  by apply (two_sided_sq b r c).
Qed.

Lemma materialScore_bounds b p :
  two_sided b → p = Red ∨ p = Black →
  100 * countPieces b p - 300 * countPieces b (otherPlayer p)
    <= materialScore b p
    <= 300 * countPieces b p - 100 * countPieces b (otherPlayer p).
Proof.
  intros Hts Hp. rewrite materialScore_sum, !countPieces_sum.
  set (own := λ r c, bz (owned_by p (sq b r c))).
  set (opp := λ r c, bz (owned_by (otherPlayer p) (sq b r c))).
  assert (∀ a c,
    sumZ (λ r, sumZ (λ c', a * own r c' + c * opp r c') indices) indices =
    a * sumZ (λ r, sumZ (own r) indices) indices +
    c * sumZ (λ r, sumZ (opp r) indices) indices) as Hlin.
  { intros a c. rewrite <- sumZ_lin. apply sumZ_ext. intros r _.
    apply sumZ_lin. }
  split.
  - replace (100 * _ - 300 * _) with
      (100 * sumZ (λ r, sumZ (own r) indices) indices +
       (-300) * sumZ (λ r, sumZ (opp r) indices) indices) by (unfold own, opp; lia).
    rewrite <- Hlin. apply sumZ_le. intros r Hr. apply sumZ_le. intros c _.
    pose proof (cellWeight_bounds p r (sq b r c) Hp (two_sided_cell b r c Hts)
                  (indices_range r Hr)). unfold own, opp. lia.
  - replace (300 * _ - 100 * _) with
      (300 * sumZ (λ r, sumZ (own r) indices) indices +
       (-100) * sumZ (λ r, sumZ (opp r) indices) indices) by (unfold own, opp; lia).
    rewrite <- Hlin. apply sumZ_le. intros r Hr. apply sumZ_le. intros c _.
    pose proof (cellWeight_bounds p r (sq b r c) Hp (two_sided_cell b r c Hts)
                  (indices_range r Hr)). unfold own, opp. lia.
Qed.

Lemma checkWinner_cases b :
  checkWinner b = None ∨ checkWinner b = Some Red ∨ checkWinner b = Some Black.
Proof. unfold checkWinner. repeat case_match; auto. Qed.

(** X17. A won position outweighs any material. On a board whose pieces all
    belong to Red or Black, the material score of a player lies between
    [100 * own - 300 * other] and [300 * own - 100 * other], for the numbers
    of pieces [checkWinner] counts. So with at most eight pieces a side, as
    in every position of a game, the score of an undecided position stays
    within 2400 of zero, and [evaluateBoard] returns [SCORES.WIN] exactly for
    a board the player has won and [-SCORES.WIN] exactly for one the other
    side has won. *)
Theorem evaluateBoard_bounds (b : Board) (p : Player) :
  two_sided b → p = Red ∨ p = Black →
  100 * countPieces b p - 300 * countPieces b (otherPlayer p)
    <= materialScore b p
    <= 300 * countPieces b p - 100 * countPieces b (otherPlayer p) ∧
  (countPieces b Red <= 8 → countPieces b Black <= 8 →
   (checkWinner b = None → -2400 <= evaluateBoard b p <= 2400) ∧
   (evaluateBoard b p = SCORES_WIN ↔ checkWinner b = Some p) ∧
   (evaluateBoard b p = - SCORES_WIN ↔ checkWinner b = Some (otherPlayer p))).
Proof.
  intros Hts Hp. pose proof (materialScore_bounds b p Hts Hp) as Hm.
  split; [done|]. intros Hred Hblack.
  pose proof (countPieces_nonneg b Red). pose proof (countPieces_nonneg b Black).
  assert (-2400 <= materialScore b p <= 2400) as Hbound.
  { destruct Hp as [-> | ->]; unfold otherPlayer in Hm; simpl in Hm; lia. }
  unfold evaluateBoard, SCORES_WIN.
  destruct (checkWinner_cases b) as [Hw|[Hw|Hw]]; rewrite Hw;
    destruct Hp as [-> | ->]; unfold otherPlayer; simpl;
    (split; [intros; try done; lia|]); split; split; intros; try done; lia.
Qed.

Lemma evaluateBoard_bounds_witness :
  100 * countPieces createInitialBoard Black
      - 300 * countPieces createInitialBoard (otherPlayer Black)
    <= materialScore createInitialBoard Black
    <= 300 * countPieces createInitialBoard Black
      - 100 * countPieces createInitialBoard (otherPlayer Black) ∧
  (countPieces createInitialBoard Red <= 8 →
   countPieces createInitialBoard Black <= 8 →
   (checkWinner createInitialBoard = None →
    -2400 <= evaluateBoard createInitialBoard Black <= 2400) ∧
   (evaluateBoard createInitialBoard Black = SCORES_WIN ↔
    checkWinner createInitialBoard = Some Black) ∧
   (evaluateBoard createInitialBoard Black = - SCORES_WIN ↔
    checkWinner createInitialBoard = Some (otherPlayer Black))).
Proof.
  apply (evaluateBoard_bounds createInitialBoard Black).
  - apply two_sidedb_spec. reflexivity.
  - right. reflexivity.
Defined.
